(** * longest_match (match_p.h): a shallow embedding and its properties

    The file [match_p.h] holds the hash-chain match finder of deflate in
    several realisations selected by the preprocessor:
    - [std1_longest_match]: byte-at-a-time comparison (lines 49-160);
    - [std2_longest_match]: 16-bit loads (lines 168-312);
    - [std3_longest_match]: 32/64-bit loads and count-trailing-zeros
      (lines 338-438), for a compiler that defines [__GNUC__] and for MSC,
      which differ in the [__builtin_ctzl] that the variant calls.

    Integers of the C code are modelled in [Z]; the only arithmetic of the
    function that can wrap around is the pre-decrement of the 32-bit
    [chain_length], which is written out.  Pointers into [s->window] are
    modelled by their index.  The window is a list of bytes; a read outside
    the list (which the caller excludes: "need lookahead") yields NUL. *)

From Stdlib Require Import ZArith List Lia Bool.
From Stdlib Require Import Init.Byte Strings.Byte Strings.String.
Import ListNotations.
Local Open Scope Z_scope.

(** ** Data model *)

Definition MAX_MATCH : Z := 258.

(** [unsigned] is a 32-bit type. *)
Definition UINT_RANGE : Z := 2 ^ 32.

(** The fields of [deflate_state] that [longest_match] touches. *)
Record deflate_state : Type := mk_deflate_state {
  window : list byte;       (* unsigned char *window *)
  prev : list Z;            (* Pos *prev *)
  w_mask : Z;               (* unsigned w_mask *)
  strstart : Z;             (* unsigned strstart *)
  lookahead : Z;            (* unsigned lookahead *)
  prev_length : Z;          (* unsigned prev_length *)
  match_start : Z;          (* unsigned match_start *)
  max_chain_length : Z;     (* unsigned max_chain_length *)
  good_match : Z;           (* unsigned good_match *)
  nice_match : Z;           (* int nice_match *)
  level : Z                 (* int level *)
}.

(** [s->match_start = p] *)
Definition set_match_start (s : deflate_state) (p : Z) : deflate_state :=
  mk_deflate_state (window s) (prev s) (w_mask s) (strstart s) (lookahead s)
    (prev_length s) p (max_chain_length s) (good_match s) (nice_match s)
    (level s).

(** [s->window[p]] *)
Definition byte_at (s : deflate_state) (p : Z) : byte :=
  if p <? 0 then x00 else nth (Z.to_nat p) (window s) x00.

(** [prev[i]] *)
Definition prev_at (s : deflate_state) (i : Z) : Z :=
  if i <? 0 then 0 else nth (Z.to_nat i) (prev s) 0.

(** [(unsigned int)x] for an [int] x *)
Definition to_unsigned (x : Z) : Z := x mod UINT_RANGE.

(** [--chain_length] on a 32-bit unsigned *)
Definition pre_decrement (c : Z) : Z := (c - 1) mod UINT_RANGE.

(** The value of a byte as an unsigned number. *)
Definition byte_value (b : byte) : Z := Z.of_N (Byte.to_N b).

(** One candidate of the chain as the walk saw it.  This is a ghost record:
    it is produced next to the code's results and never read by the code.
    [outcome] is [None] when the quick check rejected the candidate
    ([continue]) and [Some len] when the candidate was extended to [len]. *)
Record probe : Type := mk_probe {
  cand : Z;
  best_before : Z;
  outcome : option Z
}.

(** A probe that made the code assign [s->match_start]: [len > best_len]. *)
Definition improved (p : probe) : bool :=
  match outcome p with
  | Some len => best_before p <? len
  | None => false
  end.

(** How one pass through the body of the [do ... while] ends. *)
Inductive body_end : Type :=
| Break          (* a [break] statement *)
| ToCondition.   (* the loop condition is evaluated next, by falling through
                    or by [continue] *)

(** What a call gives back: the value returned, the state it leaves and the
    (ghost) list of probes in chain order; [final_best_len] is [best_len]
    before the clamp of lines 157-159. *)
Record outcome_of_call : Type := mk_outcome {
  returned : Z;
  final_state : deflate_state;
  final_best_len : Z;
  examined : list probe
}.

(** The naive comparator of the specification (section 4.2): the number of
    leading positions, among the first [n], at which the bytes from [a] and
    from [b] are equal. *)
Fixpoint equal_run (s : deflate_state) (n : nat) (a b : Z) : Z :=
  match n with
  | O => 0
  | S n' =>
      if Byte.eqb (byte_at s a) (byte_at s b)
      then 1 + equal_run s n' (a + 1) (b + 1)
      else 0
  end.

(** [best_len] after a probe and after the probes [ps], starting from [b]:
    lines 139-141 replace it by every strictly greater [len]. *)
Definition best_with (b : Z) (p : probe) : Z :=
  match outcome p with
  | Some len => Z.max b len
  | None => b
  end.

Definition best_after (b : Z) (ps : list probe) : Z := fold_left best_with ps b.

(** The promise of the hash chain that lines 121 and 246 assert, for one
    probe: a candidate that passed the quick check also agrees with the
    current string on the third byte. *)
Definition third_byte_agrees (s : deflate_state) (p : probe) : bool :=
  match outcome p with
  | Some _ => Byte.eqb (byte_at s (cand p + 2)) (byte_at s (strstart s + 2))
  | None => true
  end.

Section LongestMatch.

(** [MAX_DIST(s)] and [TRIGGER_LEVEL] are macros of [deflate.h]; the
    development takes them as parameters. *)
Variable MAX_DIST : deflate_state -> Z.
Variable TRIGGER_LEVEL : Z.

(** Lines 67-82 of std1; lines 187-202 of std2 are the same. *)
Definition initial_best_len (s : deflate_state) : Z :=
  if prev_length s =? 0 then 1 else prev_length s.

Definition initial_chain_length (s : deflate_state) : Z :=
  if initial_best_len s >=? good_match s
  then Z.shiftr (max_chain_length s) 2
  else max_chain_length s.

Definition effective_nice_match (s : deflate_state) : Z :=
  if to_unsigned (nice_match s) >? lookahead s
  then lookahead s
  else to_unsigned (nice_match s).

Definition chain_limit (s : deflate_state) : Z :=
  if strstart s >? MAX_DIST s then strstart s - MAX_DIST s else 0.

(** Lines 157-159. *)
Definition clamp_to_lookahead (s : deflate_state) (best_len : Z) : Z :=
  if best_len <=? lookahead s then best_len else lookahead s.

(** The number of passes through the loop body that a budget allows: the
    body runs once, and once more for each pre-decrement that does not
    reach zero. *)
Definition walk_bound (chain_length : Z) : Z := 1 + pre_decrement chain_length.

(** ** std1: the scalar variant (lines 49-160) *)

Record std1_locals : Type := mk_std1_locals {
  l1_cur_match : Z;
  l1_chain_length : Z;
  l1_best_len : Z;
  l1_scan_end1 : byte;
  l1_scan_end : byte
}.

(** Lines 106-110: the quick check; [true] means [continue]. *)
Definition std1_reject (s : deflate_state) (l : std1_locals) : bool :=
  let scan := strstart s in
  let mtch := l1_cur_match l in
  negb (Byte.eqb (byte_at s (mtch + l1_best_len l)) (l1_scan_end l))
  || negb (Byte.eqb (byte_at s (mtch + (l1_best_len l - 1))) (l1_scan_end1 l))
  || negb (Byte.eqb (byte_at s mtch) (byte_at s scan))
  || negb (Byte.eqb (byte_at s (mtch + 1)) (byte_at s (scan + 1))).

(** [k] conjuncts [*++scan == *++match] of lines 128-131: the pointers after
    the last increment made, and whether all [k] comparisons held. *)
Fixpoint std1_compare (s : deflate_state) (k : nat) (scan mtch : Z)
  : Z * Z * bool :=
  match k with
  | O => (scan, mtch, true)
  | S k' =>
      if Byte.eqb (byte_at s (scan + 1)) (byte_at s (mtch + 1))
      then std1_compare s k' (scan + 1) (mtch + 1)
      else (scan + 1, mtch + 1, false)
  end.

(** Lines 127-132: the empty [do { } while] with eight comparisons and the
    test [scan < strend]; the result is the final [scan]. *)
Fixpoint std1_extend (s : deflate_state) (rounds : nat) (strend scan mtch : Z)
  : Z :=
  match rounds with
  | O => scan
  | S r =>
      let '(scan', mtch', all_equal) := std1_compare s 8 scan mtch in
      if all_equal && (scan' <? strend)
      then std1_extend s r strend scan' mtch'
      else scan'
  end.

(** Lines 119-136: [len] of the candidate [cur_match].  [scan] starts at
    [strstart + 2] and gains 8 per round, so 32 rounds reach [strend]. *)
Definition std1_len (s : deflate_state) (cur_match : Z) : Z :=
  let strend := strstart s + MAX_MATCH in
  let scan := std1_extend s 32 strend (strstart s + 2) (cur_match + 2) in
  MAX_MATCH - (strend - scan).

(** Lines 91-154: one pass through the loop body. *)
Definition std1_body (s : deflate_state) (nice : Z) (l : std1_locals)
  : body_end * deflate_state * std1_locals * list probe :=
  if l1_cur_match l >=? strstart s then (Break, s, l, [])
  else if std1_reject s l then
    (ToCondition, s, l, [mk_probe (l1_cur_match l) (l1_best_len l) None])
  else
    let len := std1_len s (l1_cur_match l) in
    let p := mk_probe (l1_cur_match l) (l1_best_len l) (Some len) in
    if len >? l1_best_len l then
      let s' := set_match_start s (l1_cur_match l) in
      if len >=? nice then
        (Break, s',
         mk_std1_locals (l1_cur_match l) (l1_chain_length l) len
           (l1_scan_end1 l) (l1_scan_end l), [p])
      else
        (ToCondition, s',
         mk_std1_locals (l1_cur_match l) (l1_chain_length l) len
           (byte_at s (strstart s + (len - 1))) (byte_at s (strstart s + len)),
         [p])
    else if level s <? TRIGGER_LEVEL then (Break, s, l, [p])
    else (ToCondition, s, l, [p]).

(** Line 155: [(cur_match = prev[cur_match & wmask]) > limit && --chain_length];
    the locals after the evaluation and its truth value. *)
Definition std1_condition (s : deflate_state) (limit : Z) (l : std1_locals)
  : std1_locals * bool :=
  let next := prev_at s (Z.land (l1_cur_match l) (w_mask s)) in
  if next >? limit then
    let c := pre_decrement (l1_chain_length l) in
    (mk_std1_locals next c (l1_best_len l) (l1_scan_end1 l) (l1_scan_end l),
     negb (c =? 0))
  else
    (mk_std1_locals next (l1_chain_length l) (l1_best_len l)
       (l1_scan_end1 l) (l1_scan_end l), false).

(** Lines 90-155: the loop; [None] only if [fuel] passes do not suffice. *)
Fixpoint std1_loop (fuel : nat) (s : deflate_state) (limit nice : Z)
  (l : std1_locals) : option (deflate_state * std1_locals * list probe) :=
  match fuel with
  | O => None
  | S fuel' =>
      match std1_body s nice l with
      | (Break, s', l', ps) => Some (s', l', ps)
      | (ToCondition, s', l', ps) =>
          match std1_condition s' limit l' with
          | (l'', true) =>
              match std1_loop fuel' s' limit nice l'' with
              | Some (s'', lf, ps') => Some (s'', lf, ps ++ ps')
              | None => None
              end
          | (l'', false) => Some (s', l'', ps)
          end
      end
  end.

Definition std1_initial_locals (s : deflate_state) (cur_match : Z)
  : std1_locals :=
  let best_len := initial_best_len s in
  mk_std1_locals cur_match (initial_chain_length s) best_len
    (byte_at s (strstart s + (best_len - 1)))
    (byte_at s (strstart s + best_len)).

(** Lines 49-160. *)
Definition std1_longest_match (s : deflate_state) (cur_match : Z)
  : option outcome_of_call :=
  match std1_loop (Z.to_nat (walk_bound (initial_chain_length s))) s
          (chain_limit s) (effective_nice_match s)
          (std1_initial_locals s cur_match) with
  | Some (s', l, ps) =>
      Some (mk_outcome (clamp_to_lookahead s' (l1_best_len l)) s'
              (l1_best_len l) ps)
  | None => None
  end.

(** ** std2: the variant with 16-bit loads (lines 168-312) *)

(** [memcpy(&val, window + p, sizeof(uint16_t))].  The bytes are combined
    in little-endian order; the code only tests two such values for
    equality, which does not depend on the order. *)
Definition load16 (s : deflate_state) (p : Z) : Z :=
  byte_value (byte_at s p) + 256 * byte_value (byte_at s (p + 1)).

Record std2_locals : Type := mk_std2_locals {
  l2_cur_match : Z;
  l2_chain_length : Z;
  l2_best_len : Z;
  l2_scan_end : Z           (* uint16_t scan_end *)
}.

(** Lines 227-234: the two quick checks; [true] means [continue]. *)
Definition std2_reject (s : deflate_state) (scan_start : Z) (l : std2_locals)
  : bool :=
  let mtch := l2_cur_match l in
  if negb (load16 s (mtch + l2_best_len l - 1) =? l2_scan_end l) then true
  else negb (load16 s mtch =? scan_start).

(** [k] of the four blocks of lines 253-279: the pointers where the blocks
    stopped, and whether all [k] pairs were equal (no [break]). *)
Fixpoint std2_compare (s : deflate_state) (k : nat) (scan mtch : Z)
  : Z * Z * bool :=
  match k with
  | O => (scan, mtch, true)
  | S k' =>
      if load16 s mtch =? load16 s scan
      then std2_compare s k' (scan + 2) (mtch + 2)
      else (scan, mtch, false)
  end.

(** Lines 250-280: the final [scan] and [match]. *)
Fixpoint std2_extend (s : deflate_state) (rounds : nat) (strend scan mtch : Z)
  : Z * Z :=
  match rounds with
  | O => (scan, mtch)
  | S r =>
      let '(scan', mtch', all_equal) := std2_compare s 4 scan mtch in
      if all_equal && (scan' <? strend)
      then std2_extend s r strend scan' mtch'
      else (scan', mtch')
  end.

(** Lines 247-289: [len] of the candidate.  [scan] starts at [strstart + 1]
    and gains 8 per round, so 32 rounds reach [strend = strstart + 257]. *)
Definition std2_len (s : deflate_state) (cur_match : Z) : Z :=
  let strend := strstart s + MAX_MATCH - 1 in
  let '(scan, mtch) :=
    std2_extend s 32 strend (strstart s + 1) (cur_match + 1) in
  let scan := if Byte.eqb (byte_at s scan) (byte_at s mtch)
              then scan + 1 else scan in
  (MAX_MATCH - 1) - (strend - scan).

(** Lines 212-306: one pass through the loop body. *)
Definition std2_body (s : deflate_state) (nice scan_start : Z) (l : std2_locals)
  : body_end * deflate_state * std2_locals * list probe :=
  if l2_cur_match l >=? strstart s then (Break, s, l, [])
  else if std2_reject s scan_start l then
    (ToCondition, s, l, [mk_probe (l2_cur_match l) (l2_best_len l) None])
  else
    let len := std2_len s (l2_cur_match l) in
    let p := mk_probe (l2_cur_match l) (l2_best_len l) (Some len) in
    if len >? l2_best_len l then
      let s' := set_match_start s (l2_cur_match l) in
      if len >=? nice then
        (Break, s',
         mk_std2_locals (l2_cur_match l) (l2_chain_length l) len
           (l2_scan_end l), [p])
      else
        (ToCondition, s',
         mk_std2_locals (l2_cur_match l) (l2_chain_length l) len
           (load16 s (strstart s + len - 1)), [p])
    else if level s <? TRIGGER_LEVEL then (Break, s, l, [p])
    else (ToCondition, s, l, [p]).

(** Line 307: [--chain_length && (cur_match = prev[cur_match & wmask]) > limit] *)
Definition std2_condition (s : deflate_state) (limit : Z) (l : std2_locals)
  : std2_locals * bool :=
  let c := pre_decrement (l2_chain_length l) in
  if c =? 0 then
    (mk_std2_locals (l2_cur_match l) c (l2_best_len l) (l2_scan_end l), false)
  else
    let next := prev_at s (Z.land (l2_cur_match l) (w_mask s)) in
    (mk_std2_locals next c (l2_best_len l) (l2_scan_end l), next >? limit).

(** Lines 210-307. *)
Fixpoint std2_loop (fuel : nat) (s : deflate_state) (limit nice scan_start : Z)
  (l : std2_locals) : option (deflate_state * std2_locals * list probe) :=
  match fuel with
  | O => None
  | S fuel' =>
      match std2_body s nice scan_start l with
      | (Break, s', l', ps) => Some (s', l', ps)
      | (ToCondition, s', l', ps) =>
          match std2_condition s' limit l' with
          | (l'', true) =>
              match std2_loop fuel' s' limit nice scan_start l'' with
              | Some (s'', lf, ps') => Some (s'', lf, ps ++ ps')
              | None => None
              end
          | (l'', false) => Some (s', l'', ps)
          end
      end
  end.

Definition std2_initial_locals (s : deflate_state) (cur_match : Z)
  : std2_locals :=
  let best_len := initial_best_len s in
  mk_std2_locals cur_match (initial_chain_length s) best_len
    (load16 s (strstart s + best_len - 1)).

(** Lines 168-312. *)
Definition std2_longest_match (s : deflate_state) (cur_match : Z)
  : option outcome_of_call :=
  match std2_loop (Z.to_nat (walk_bound (initial_chain_length s))) s
          (chain_limit s) (effective_nice_match s) (load16 s (strstart s))
          (std2_initial_locals s cur_match) with
  | Some (s', l, ps) =>
      Some (mk_outcome (clamp_to_lookahead s' (l2_best_len l)) s'
              (l2_best_len l) ps)
  | None => None
  end.

(** ** std3: the variant with 32- and 64-bit loads (lines 338-438) *)

(** [(int)x] for an [unsigned] x *)
Definition to_int (x : Z) : Z := (x + 2 ^ 31) mod UINT_RANGE - 2 ^ 31.

(** [*(uintN_t* )(window + p)] for N = 8 * n, little-endian (the variant is
    only selected on little-endian targets, lines 19-25). *)
Fixpoint load_le (s : deflate_state) (n : nat) (p : Z) : Z :=
  match n with
  | O => 0
  | S n' => byte_value (byte_at s p) + 256 * load_le s n' (p + 1)
  end.

Fixpoint trailing_zeros (p : positive) : Z :=
  match p with
  | xO p' => 1 + trailing_zeros p'
  | _ => 0
  end.

(** [__builtin_ctzl] of gcc and clang on a 64-bit [unsigned long]; the code
    calls it on non-zero arguments only. *)
Definition builtin_ctzl (x : Z) : Z :=
  match x with
  | Zpos p => trailing_zeros p
  | _ => 64
  end.

(** [_BitScanForward(&index, mask)], an intrinsic of the MSC compiler: the
    result is 0 when [mask] is zero and non-zero otherwise, and [index] is
    then the position of the lowest bit set in [mask]. *)
Definition BitScanForward (mask : Z) : Z * Z :=
  match mask with
  | Zpos p => (1, trailing_zeros p)
  | _ => (0, 0)
  end.

(** Lines 323-328: the [__builtin_ctzl] that the file defines under
    [_MSC_VER].  The parameter is an [unsigned long], which has 32 bits with
    MSC: an argument of 64 bits is converted modulo [2^32]. *)
Definition msc_builtin_ctzl (mask : Z) : Z :=
  let '(found, index) := BitScanForward (mask mod 2 ^ 32) in
  if found =? 0 then 32 else index.

(** The targets for which lines 19-25 select std3, told apart by the
    [__builtin_ctzl] that line 409 calls: a compiler that defines
    [__GNUC__], taken here with an [unsigned long] of 64 bits, whose builtin
    it is; and MSC on Windows, where it is the function of lines 323-328.
    (Where a [__GNUC__] compiler has an [unsigned long] of 32 bits, line
    409 passes the builtin the low half of the word, which can be zero; the
    builtin leaves its result undefined there, and that target is not
    modelled.) *)
Inductive std3_target : Type :=
| gnuc_lp64
| msc_win32.

Definition ctzl_of (t : std3_target) : Z -> Z :=
  match t with
  | gnuc_lp64 => builtin_ctzl
  | msc_win32 => msc_builtin_ctzl
  end.

Record std3_locals : Type := mk_std3_locals {
  l3_cur_match : Z;
  l3_chain_length : Z;
  l3_best_len : Z;          (* int best_len *)
  l3_scan_end : Z           (* uint32_t scan_end *)
}.

(** Line 390: the quick check on two 32-bit words. *)
Definition std3_reject (s : deflate_state) (scan_start : Z) (l : std3_locals)
  : bool :=
  let mtch := l3_cur_match l in
  negb (load_le s 4 (mtch + l3_best_len l - 3) =? l3_scan_end l)
  || negb (load_le s 4 mtch =? scan_start).

(** Lines 388-398: the inner [do ... while (1)] that skips rejected
    candidates; the result is the locals, [cont] and the probes skipped. *)
Fixpoint std3_skip (fuel : nat) (s : deflate_state) (limit scan_start : Z)
  (l : std3_locals) : option (std3_locals * bool * list probe) :=
  match fuel with
  | O => None
  | S fuel' =>
      if std3_reject s scan_start l then
        let p := mk_probe (l3_cur_match l) (l3_best_len l) None in
        let next := prev_at s (Z.land (l3_cur_match l) (w_mask s)) in
        if next >? limit then
          let c := pre_decrement (l3_chain_length l) in
          let l' := mk_std3_locals next c (l3_best_len l) (l3_scan_end l) in
          if negb (c =? 0) then
            match std3_skip fuel' s limit scan_start l' with
            | Some (lf, cont, ps) => Some (lf, cont, p :: ps)
            | None => None
            end
          else Some (l', false, [p])
        else
          Some (mk_std3_locals next (l3_chain_length l) (l3_best_len l)
                  (l3_scan_end l), false, [p])
      else Some (l, true, [])
  end.

(** Lines 404-417: the final [scan], for the target [t]. *)
Fixpoint std3_extend (t : std3_target) (s : deflate_state) (rounds : nat)
  (strend scan mtch : Z) : Z :=
  match rounds with
  | O => scan
  | S r =>
      let sv := load_le s 8 scan in
      let mv := load_le s 8 mtch in
      let xor := Z.lxor sv mv in
      if negb (xor =? 0) then scan + ctzl_of t xor / 8
      else if scan + 8 <? strend
           then std3_extend t s r strend (scan + 8) (mtch + 8)
           else scan + 8
  end.

(** Lines 403-424: [len] of the candidate.  [scan] starts at [strstart + 4]
    and gains 8 per round, so 32 rounds pass [strend]. *)
Definition std3_len (t : std3_target) (s : deflate_state) (cur_match : Z) : Z :=
  let strend := strstart s + MAX_MATCH in
  let scan := std3_extend t s 32 strend (strstart s + 4) (cur_match + 4) in
  let scan := if scan >? strend then strend else scan in
  MAX_MATCH - (strend - scan).

(** Line 433: the same condition as line 155. *)
Definition std3_condition (s : deflate_state) (limit : Z) (l : std3_locals)
  : std3_locals * bool :=
  let next := prev_at s (Z.land (l3_cur_match l) (w_mask s)) in
  if next >? limit then
    let c := pre_decrement (l3_chain_length l) in
    (mk_std3_locals next c (l3_best_len l) (l3_scan_end l), negb (c =? 0))
  else
    (mk_std3_locals next (l3_chain_length l) (l3_best_len l) (l3_scan_end l),
     false).

(** Lines 375-434.  There is no test of [cur_match] against [strstart]
    (line 377 is an [Assert]) and no test of [s->level]. *)
Fixpoint std3_loop (t : std3_target) (fuel : nat) (s : deflate_state)
  (limit nice scan_start : Z) (l : std3_locals)
  : option (deflate_state * std3_locals * list probe) :=
  match fuel with
  | O => None
  | S fuel' =>
      match std3_skip fuel s limit scan_start l with
      | None => None
      | Some (l1, false, ps) => Some (s, l1, ps)
      | Some (l1, true, ps) =>
          let len := std3_len t s (l3_cur_match l1) in
          let p := mk_probe (l3_cur_match l1) (l3_best_len l1) (Some len) in
          let '(stop, s', l2) :=
            if len >? l3_best_len l1 then
              let s' := set_match_start s (l3_cur_match l1) in
              if len >=? nice then
                (true, s',
                 mk_std3_locals (l3_cur_match l1) (l3_chain_length l1) len
                   (l3_scan_end l1))
              else
                (false, s',
                 mk_std3_locals (l3_cur_match l1) (l3_chain_length l1) len
                   (load_le s 4 (strstart s + len - 3)))
            else (false, s, l1) in
          if stop then Some (s', l2, ps ++ [p])
          else
            match std3_condition s' limit l2 with
            | (l3, true) =>
                match std3_loop t fuel' s' limit nice scan_start l3 with
                | Some (s'', lf, ps') => Some (s'', lf, ps ++ p :: ps')
                | None => None
                end
            | (l3, false) => Some (s', l3, ps ++ [p])
            end
      end
  end.

(** Lines 338-438, as compiled for the target [t]. *)
Definition std3_longest_match (t : std3_target) (s : deflate_state)
  (cur_match : Z) : option outcome_of_call :=
  let chain_length :=
    if prev_length s >=? good_match s
    then Z.shiftr (max_chain_length s) 2
    else max_chain_length s in
  let best_len := to_int (prev_length s) in
  let nice :=
    if to_unsigned (nice_match s) >? lookahead s
    then to_int (lookahead s)
    else nice_match s in
  match std3_loop t (Z.to_nat (walk_bound chain_length)) s (chain_limit s) nice
          (load_le s 4 (strstart s))
          (mk_std3_locals cur_match chain_length best_len
             (load_le s 4 (strstart s + best_len - 3))) with
  | Some (s', l, ps) =>
      Some (mk_outcome
              (if to_unsigned (l3_best_len l) <=? lookahead s'
               then to_unsigned (l3_best_len l) else lookahead s')
              s' (l3_best_len l) ps)
  | None => None
  end.

End LongestMatch.

(** The locals of std2 hold what the locals of std1 hold: [scan_end] of std2
    is the 16-bit word made of [scan_end1] and [scan_end] of std1. *)
Definition same_locals (l1 : std1_locals) (l2 : std2_locals) : Prop :=
  l2_cur_match l2 = l1_cur_match l1
  /\ l2_chain_length l2 = l1_chain_length l1
  /\ l2_best_len l2 = l1_best_len l1
  /\ l2_scan_end l2
     = byte_value (l1_scan_end1 l1) + 256 * byte_value (l1_scan_end l1).


(** ** The walk that std1 and std2 share *)

Section Walk.

(** A variant is seen here through the type of its locals, its [cur_match],
    [chain_length] and [best_len], its comparator, one pass through its
    loop body and its loop condition. *)
Variable L : Type.
Variables cur chain best : L -> Z.
Variable len_of : deflate_state -> Z -> Z.
Variable body : deflate_state -> L -> body_end * deflate_state * L * list probe.
Variable cond : deflate_state -> L -> L * bool.
Variables TRIGGER_LEVEL nice : Z.

(** The six ways through the loop body of std1 (lines 91-154) and of std2
    (lines 212-306), as a relation between the state and locals before the
    pass and its result. *)
Inductive walk_case (s : deflate_state) (l : L)
  : body_end * deflate_state * L * list probe -> Prop :=
| case_future :
    strstart s <= cur l ->
    walk_case s l (Break, s, l, [])
| case_rejected :
    cur l < strstart s ->
    walk_case s l (ToCondition, s, l, [mk_probe (cur l) (best l) None])
| case_nice : forall l',
    cur l < strstart s ->
    best l < len_of s (cur l) ->
    nice <= len_of s (cur l) ->
    cur l' = cur l -> chain l' = chain l -> best l' = len_of s (cur l) ->
    walk_case s l
      (Break, set_match_start s (cur l), l',
       [mk_probe (cur l) (best l) (Some (len_of s (cur l)))])
| case_better : forall l',
    cur l < strstart s ->
    best l < len_of s (cur l) ->
    len_of s (cur l) < nice ->
    cur l' = cur l -> chain l' = chain l -> best l' = len_of s (cur l) ->
    walk_case s l
      (ToCondition, set_match_start s (cur l), l',
       [mk_probe (cur l) (best l) (Some (len_of s (cur l)))])
| case_trigger :
    cur l < strstart s ->
    len_of s (cur l) <= best l ->
    level s < TRIGGER_LEVEL ->
    walk_case s l
      (Break, s, l, [mk_probe (cur l) (best l) (Some (len_of s (cur l)))])
| case_no_gain :
    cur l < strstart s ->
    len_of s (cur l) <= best l ->
    TRIGGER_LEVEL <= level s ->
    walk_case s l
      (ToCondition, s, l, [mk_probe (cur l) (best l) (Some (len_of s (cur l)))]).

(** The [do ... while] loop over [body] and [cond]; [std1_loop] and
    [std2_loop] are this loop. *)
Fixpoint walk (fuel : nat) (s : deflate_state) (l : L)
  : option (deflate_state * L * list probe) :=
  match fuel with
  | O => None
  | S fuel' =>
      match body s l with
      | (Break, s', l', ps) => Some (s', l', ps)
      | (ToCondition, s', l', ps) =>
          match cond s' l' with
          | (l'', true) =>
              match walk fuel' s' l'' with
              | Some (s'', lf, ps') => Some (s'', lf, ps ++ ps')
              | None => None
              end
          | (l'', false) => Some (s', l'', ps)
          end
      end
  end.

End Walk.

(** ** What a call of std1 or of std2 establishes *)

(** [Q] holds of the outcome of the call in std1 and of the outcome of the
    call in std2; both calls return. *)
Definition std1_and_std2 (MAX_DIST : deflate_state -> Z) (TRIGGER_LEVEL : Z)
  (s : deflate_state) (cur_match : Z) (Q : outcome_of_call -> Prop) : Prop :=
  (exists r, std1_longest_match MAX_DIST TRIGGER_LEVEL s cur_match = Some r
             /\ Q r)
  /\ (exists r, std2_longest_match MAX_DIST TRIGGER_LEVEL s cur_match = Some r
                /\ Q r).

(** The facts about the outcome [r] of a walk from [cur_match] in the state
    [s] from which the properties of a call are derived. *)
Record walk_summary (MAX_DIST : deflate_state -> Z) (TRIGGER_LEVEL : Z)
  (s : deflate_state) (cur_match : Z) (r : outcome_of_call) : Prop :=
  mk_walk_summary {
  ws_returned :
    returned r = clamp_to_lookahead s (final_best_len r);
  ws_frame :
    final_state r = set_match_start s (match_start (final_state r));
  ws_before :
    Forall (fun p => cand p < strstart s) (examined r);
  ws_chain :
    forall p rest, examined r = p :: rest ->
      cand p = cur_match
      /\ Forall (fun q => chain_limit MAX_DIST s < cand q) rest;
  ws_count :
    Z.of_nat (List.length (examined r)) <= walk_bound (initial_chain_length s);
  ws_head :
    cur_match < strstart s -> examined r <> [];
  ws_len :
    Forall (fun p => forall len, outcome p = Some len ->
                                 1 <= len <= MAX_MATCH) (examined r);
  ws_best :
    final_best_len r = best_after (initial_best_len s) (examined r);
  ws_best_before :
    forall pre p post, examined r = pre ++ p :: post ->
      best_before p = best_after (initial_best_len s) pre;
  ws_unchanged :
    final_best_len r = initial_best_len s -> final_state r = s;
  ws_recorded :
    initial_best_len s < final_best_len r ->
    exists pre p post,
      examined r = pre ++ p :: post
      /\ outcome p = Some (final_best_len r)
      /\ improved p = true
      /\ match_start (final_state r) = cand p
      /\ forall q len, In q pre -> outcome q = Some len ->
                       len < final_best_len r;
  ws_stops :
    forall pre p post len,
      examined r = pre ++ p :: post ->
      outcome p = Some len ->
      (best_before p < len /\ effective_nice_match s <= len)
      \/ (len <= best_before p /\ level s < TRIGGER_LEVEL) ->
      post = []
}.

(** ** What the probes say about the strings *)

(** The length of the match at [c]: the number of leading bytes, among the
    first [MAX_MATCH], on which the string at [c] agrees with the current
    string, the one at [strstart]. *)
Definition match_length (s : deflate_state) (c : Z) : Z :=
  equal_run s 258 (strstart s) c.

(** The [len] of a probe is the length of the match at its candidate. *)
Definition reported_exactly (s : deflate_state) (p : probe) : Prop :=
  forall len, outcome p = Some len -> len = match_length s (cand p).

(** The same for std1, which does not compare the third byte: where the
    candidate differs there, its match has two bytes whatever [len] says. *)
Definition reported_beyond_third_byte (s : deflate_state) (p : probe) : Prop :=
  forall len, outcome p = Some len ->
    3 <= len
    /\ (if Byte.eqb (byte_at s (cand p + 2)) (byte_at s (strstart s + 2))
        then len = match_length s (cand p)
        else match_length s (cand p) = 2).

(** The match at the candidate of a probe is no longer than [best_len] is
    after the probe. *)
Definition no_longer_than_recorded (s : deflate_state) (p : probe) : Prop :=
  match_length s (cand p) <= best_with (best_before p) p.

(** [scan_end1] and [scan_end] of std1 hold the bytes of the current string
    at [best_len - 1] and [best_len] (lines 86-87 and 144-145). *)
Definition std1_scan_end_kept (s : deflate_state) (l : std1_locals) : Prop :=
  1 <= l1_best_len l
  /\ l1_scan_end1 l = byte_at s (strstart s + (l1_best_len l - 1))
  /\ l1_scan_end l = byte_at s (strstart s + l1_best_len l).

(** [scan_start] of std2 is the 16-bit word at [strstart] (line 206) and
    [scan_end] the one at [best_len - 1] (lines 207 and 297). *)
Definition std2_scan_end_kept (scan_start : Z) (s : deflate_state)
  (l : std2_locals) : Prop :=
  load16 s (strstart s) = scan_start
  /\ 1 <= l2_best_len l
  /\ l2_scan_end l = load16 s (strstart s + l2_best_len l - 1).

(** ** std3 as one loop over the candidates *)

(** The inner loop of lines 388-398 moves to the next candidate under the
    condition of the outer loop (line 433) and leaves both loops when the
    condition fails, so that std3 passes once through the following body
    for every candidate, rejected or extended.  [std3_loop_walk] shows that
    [std3_loop] is the [walk] over this body and [std3_condition]. *)
Definition std3_body (t : std3_target) (s : deflate_state)
  (nice scan_start : Z) (l : std3_locals)
  : body_end * deflate_state * std3_locals * list probe :=
  if std3_reject s scan_start l then
    (ToCondition, s, l, [mk_probe (l3_cur_match l) (l3_best_len l) None])
  else
    let len := std3_len t s (l3_cur_match l) in
    let p := mk_probe (l3_cur_match l) (l3_best_len l) (Some len) in
    if len >? l3_best_len l then
      let s' := set_match_start s (l3_cur_match l) in
      if len >=? nice then
        (Break, s',
         mk_std3_locals (l3_cur_match l) (l3_chain_length l) len
           (l3_scan_end l), [p])
      else
        (ToCondition, s',
         mk_std3_locals (l3_cur_match l) (l3_chain_length l) len
           (load_le s 4 (strstart s + len - 3)), [p])
    else (ToCondition, s, l, [p]).

(** The locals and parameters that [std3_longest_match] starts its loop
    with (lines 340-372). *)
Definition std3_chain_length (s : deflate_state) : Z :=
  if prev_length s >=? good_match s
  then Z.shiftr (max_chain_length s) 2
  else max_chain_length s.

Definition std3_nice_match (s : deflate_state) : Z :=
  if to_unsigned (nice_match s) >? lookahead s
  then to_int (lookahead s)
  else nice_match s.

Definition std3_initial_locals (s : deflate_state) (cur_match : Z)
  : std3_locals :=
  mk_std3_locals cur_match (std3_chain_length s) (to_int (prev_length s))
    (load_le s 4 (strstart s + to_int (prev_length s) - 3)).

(** [scan_start] of std3 is the 32-bit word at [strstart] (line 356) and
    [scan_end] the 32-bit word of the current string that ends at
    [best_len] (lines 357 and 431). *)
Definition std3_scan_end_kept (scan_start : Z) (s : deflate_state)
  (l : std3_locals) : Prop :=
  load_le s 4 (strstart s) = scan_start
  /\ l3_scan_end l = load_le s 4 (strstart s + l3_best_len l - 3).

(** By how much the [len] that std3 computes can fall short of the length
    of the match: not at all with the builtin of 64 bits, and by up to three
    bytes with the function of lines 323-328, which sees four of the eight
    bytes compared. *)
Definition std3_shortfall (t : std3_target) : Z :=
  match t with
  | gnuc_lp64 => 0
  | msc_win32 => 3
  end.

(** What the quick check of line 390 found for a probe: a rejected
    candidate differs from the current string in the 32-bit word that ends
    at [best_len] or in the first one; an extended candidate agrees on both,
    and its [len] is the one computed for the target, at most the length of
    its match and short of it by no more than [std3_shortfall]. *)
Definition std3_checked (t : std3_target) (s : deflate_state) (p : probe)
  : Prop :=
  match outcome p with
  | None =>
      load_le s 4 (cand p + best_before p - 3)
      <> load_le s 4 (strstart s + best_before p - 3)
      \/ load_le s 4 (cand p) <> load_le s 4 (strstart s)
  | Some len =>
      load_le s 4 (cand p + best_before p - 3)
      = load_le s 4 (strstart s + best_before p - 3)
      /\ load_le s 4 (cand p) = load_le s 4 (strstart s)
      /\ len = std3_len t s (cand p)
      /\ len <= match_length s (cand p) <= len + std3_shortfall t
  end.

(** The facts about the outcome [r] of a call of std3 from which its
    properties are derived. *)
Record std3_summary (MAX_DIST : deflate_state -> Z) (t : std3_target)
  (s : deflate_state) (cur_match : Z) (r : outcome_of_call) : Prop :=
  mk_std3_summary {
  w3_returned :
    returned r
    = if to_unsigned (final_best_len r) <=? lookahead s
      then to_unsigned (final_best_len r) else lookahead s;
  w3_frame :
    final_state r = set_match_start s (match_start (final_state r));
  w3_chain :
    exists p rest,
      examined r = p :: rest /\ cand p = cur_match
      /\ Forall (fun q => chain_limit MAX_DIST s < cand q) rest;
  w3_count :
    Z.of_nat (List.length (examined r)) <= walk_bound (std3_chain_length s);
  w3_checked :
    Forall (std3_checked t s) (examined r);
  w3_best :
    final_best_len r = best_after (to_int (prev_length s)) (examined r);
  w3_best_before :
    forall pre p post, examined r = pre ++ p :: post ->
      best_before p = best_after (to_int (prev_length s)) pre;
  w3_unchanged :
    final_best_len r = to_int (prev_length s) -> final_state r = s;
  w3_recorded :
    to_int (prev_length s) < final_best_len r ->
    exists pre p post,
      examined r = pre ++ p :: post
      /\ outcome p = Some (final_best_len r)
      /\ improved p = true
      /\ match_start (final_state r) = cand p
      /\ forall q len, In q pre -> outcome q = Some len ->
                       len < final_best_len r;
  w3_stops :
    forall pre p post len,
      examined r = pre ++ p :: post ->
      outcome p = Some len ->
      best_before p < len -> std3_nice_match s <= len ->
      post = []
}.

(** ** std33: the variant that no configuration selects (lines 506-634) *)

Section Std33.

Variable MAX_DIST : deflate_state -> Z.
Variable TRIGGER_LEVEL : Z.

(** std33 has the locals of std2: [cur_match], [chain_length], [best_len]
    and a 16-bit [scan_end] (lines 508-525). *)

(** Lines 562-563: two bytes compared by [memcmp] differ exactly when the
    16-bit words do. *)
Definition std33_reject (s : deflate_state) (scan_start : Z) (l : std2_locals)
  : bool :=
  let mtch := l2_cur_match l in
  negb (load16 s (mtch + l2_best_len l - 1) =? l2_scan_end l)
  || negb (load16 s mtch =? scan_start).

(** Lines 560-572: the inner [do ... while (1)] that skips rejected
    candidates; the result is the locals, [cont] and the probes skipped. *)
Fixpoint std33_skip (fuel : nat) (s : deflate_state) (limit scan_start : Z)
  (l : std2_locals) : option (std2_locals * bool * list probe) :=
  match fuel with
  | O => None
  | S fuel' =>
      if std33_reject s scan_start l then
        let p := mk_probe (l2_cur_match l) (l2_best_len l) None in
        let next := prev_at s (Z.land (l2_cur_match l) (w_mask s)) in
        if next >? limit then
          let c := pre_decrement (l2_chain_length l) in
          let l' := mk_std2_locals next c (l2_best_len l) (l2_scan_end l) in
          if negb (c =? 0) then
            match std33_skip fuel' s limit scan_start l' with
            | Some (lf, cont, ps) => Some (lf, cont, p :: ps)
            | None => None
            end
          else Some (l', false, [p])
        else
          Some (mk_std2_locals next (l2_chain_length l) (l2_best_len l)
                  (l2_scan_end l), false, [p])
      else Some (l, true, [])
  end.

(** Lines 588-604: the final [scan]; [unsigned long] has 8 bytes. *)
Fixpoint std33_extend (s : deflate_state) (rounds : nat) (strend scan mtch : Z)
  : Z :=
  match rounds with
  | O => scan
  | S r =>
      let sv := load_le s 8 scan in
      let mv := load_le s 8 mtch in
      let xor := Z.lxor sv mv in
      if negb (xor =? 0) then scan + builtin_ctzl xor / 8
      else if scan + 8 <? strend
           then std33_extend s r strend (scan + 8) (mtch + 8)
           else scan + 8
  end.

(** Lines 586-612: [len] of the candidate.  [scan] starts at [strstart + 2]
    and gains 8 per round, so 32 rounds reach [strend]. *)
Definition std33_len (s : deflate_state) (cur_match : Z) : Z :=
  let strend := strstart s + MAX_MATCH in
  let scan := std33_extend s 32 strend (strstart s + 2) (cur_match + 2) in
  let scan := if scan >? strend then strend else scan in
  MAX_MATCH - (strend - scan).

(** Line 629 (and lines 564-565): the condition of line 155. *)
Definition std33_condition (s : deflate_state) (limit : Z) (l : std2_locals)
  : std2_locals * bool :=
  let next := prev_at s (Z.land (l2_cur_match l) (w_mask s)) in
  if next >? limit then
    let c := pre_decrement (l2_chain_length l) in
    (mk_std2_locals next c (l2_best_len l) (l2_scan_end l), negb (c =? 0))
  else
    (mk_std2_locals next (l2_chain_length l) (l2_best_len l) (l2_scan_end l),
     false).

(** Lines 546-629. *)
Fixpoint std33_loop (fuel : nat) (s : deflate_state) (limit nice scan_start : Z)
  (l : std2_locals) : option (deflate_state * std2_locals * list probe) :=
  match fuel with
  | O => None
  | S fuel' =>
      if l2_cur_match l >=? strstart s then Some (s, l, [])
      else
        match std33_skip fuel s limit scan_start l with
        | None => None
        | Some (l1, false, ps) => Some (s, l1, ps)
        | Some (l1, true, ps) =>
            let len := std33_len s (l2_cur_match l1) in
            let p := mk_probe (l2_cur_match l1) (l2_best_len l1) (Some len) in
            let '(stop, s', l2) :=
              if len >? l2_best_len l1 then
                let s' := set_match_start s (l2_cur_match l1) in
                if len >=? nice then
                  (true, s',
                   mk_std2_locals (l2_cur_match l1) (l2_chain_length l1) len
                     (l2_scan_end l1))
                else
                  (false, s',
                   mk_std2_locals (l2_cur_match l1) (l2_chain_length l1) len
                     (load16 s (strstart s + len - 1)))
              else if level s <? TRIGGER_LEVEL then (true, s, l1)
              else (false, s, l1) in
            if stop then Some (s', l2, ps ++ [p])
            else
              match std33_condition s' limit l2 with
              | (l3, true) =>
                  match std33_loop fuel' s' limit nice scan_start l3 with
                  | Some (s'', lf, ps') => Some (s'', lf, ps ++ p :: ps')
                  | None => None
                  end
              | (l3, false) => Some (s', l3, ps ++ [p])
              end
        end
  end.

(** Lines 506-634.  The budget is quartered on [prev_length], not on
    [best_len] (line 536). *)
Definition std33_longest_match (s : deflate_state) (cur_match : Z)
  : option outcome_of_call :=
  let chain_length :=
    if prev_length s >=? good_match s
    then Z.shiftr (max_chain_length s) 2
    else max_chain_length s in
  let best_len := initial_best_len s in
  match std33_loop (Z.to_nat (walk_bound chain_length)) s
          (chain_limit MAX_DIST s) (effective_nice_match s)
          (load16 s (strstart s))
          (mk_std2_locals cur_match chain_length best_len
             (load16 s (strstart s + best_len - 1))) with
  | Some (s', l, ps) =>
      Some (mk_outcome (clamp_to_lookahead s' (l2_best_len l)) s'
              (l2_best_len l) ps)
  | None => None
  end.

End Std33.

(** ** std3 against std2 *)

(** The locals that std2 and std3 have in common hold the same values. *)
Definition same_walk (l2 : std2_locals) (l3 : std3_locals) : Prop :=
  l2_cur_match l2 = l3_cur_match l3
  /\ l2_chain_length l2 = l3_chain_length l3
  /\ l2_best_len l2 = l3_best_len l3.

(** ** The extent of a walk *)

(** The probes [ps] are those of the chain that starts at [c]: each
    candidate after the first is [prev[cur_match & wmask]] of the one
    before. *)
Fixpoint follows_chain (s : deflate_state) (c : Z) (ps : list probe) : Prop :=
  match ps with
  | [] => True
  | p :: rest =>
      cand p = c /\ follows_chain s (prev_at s (Z.land c (w_mask s))) rest
  end.

(** Why a walk went no further than the probe [p], the last of [count]
    probes: [p] reached [nice] with a longer match; or it did not improve
    on [best_len] at a level below [trigger]; or the next candidate of the
    chain is not beyond [limit], or not before [strstart]; or the budget
    [chain_length] is used up. *)
Definition end_of_walk (s : deflate_state) (trigger nice limit : Z)
  (chain_length : Z) (count : nat) (p : probe) : Prop :=
  let next := prev_at s (Z.land (cand p) (w_mask s)) in
  (exists len, outcome p = Some len /\ best_before p < len /\ nice <= len)
  \/ (exists len, outcome p = Some len /\ len <= best_before p
                  /\ level s < trigger)
  \/ next <= limit
  \/ strstart s <= next
  \/ Z.of_nat count = walk_bound chain_length.

(** The extent of a walk from [cur_match] with the outcome [r]: the
    candidates are those of the chain, none is examined only if [cur_match]
    is not before [strstart], and the walk ends for a reason. *)
Definition extent_of_walk (MAX_DIST : deflate_state -> Z) (TRIGGER_LEVEL : Z)
  (s : deflate_state) (cur_match : Z) (r : outcome_of_call) : Prop :=
  follows_chain s cur_match (examined r)
  /\ (examined r = [] -> strstart s <= cur_match)
  /\ (forall pre p, examined r = pre ++ [p] ->
        end_of_walk s TRIGGER_LEVEL (effective_nice_match s)
          (chain_limit MAX_DIST s) (initial_chain_length s)
          (List.length (examined r)) p).

(** ** The candidate recorded *)

(** The tie-break of lines 139-141 in terms of the matches at the
    candidates: no candidate examined has a longer match than the final
    [best_len]; the state is untouched when [best_len] ends as it began;
    and otherwise [match_start] is a candidate examined whose match has the
    final [best_len], every candidate examined before it having a strictly
    shorter match, so that of several candidates with the longest match the
    first in chain order is the one recorded. *)
Definition first_longest_recorded (s : deflate_state) (r : outcome_of_call)
  : Prop :=
  initial_best_len s <= final_best_len r
  /\ (forall q, In q (examined r) ->
        match_length s (cand q) <= final_best_len r)
  /\ (final_best_len r = initial_best_len s -> final_state r = s)
  /\ (initial_best_len s < final_best_len r ->
      exists pre p post,
        examined r = pre ++ p :: post
        /\ match_start (final_state r) = cand p
        /\ match_length s (cand p) = final_best_len r
        /\ forall q, In q pre -> match_length s (cand q) < final_best_len r)
  /\ (forall pre p mid q post,
        examined r = pre ++ p :: mid ++ q :: post ->
        match_length s (cand q) <= match_length s (cand p) ->
        improved q = false).

(** ** The bytes beyond the lookahead *)

(** The state [s] with another content of the window. *)
Definition with_window (s : deflate_state) (w : list byte) : deflate_state :=
  mk_deflate_state w (prev s) (w_mask s) (strstart s) (lookahead s)
    (prev_length s) (match_start s) (max_chain_length s) (good_match s)
    (nice_match s) (level s).

(** The window [w] holds the bytes of [s] at every position before the end
    of the input, [strstart + lookahead]. *)
Definition same_input (s : deflate_state) (w : list byte) : Prop :=
  forall p, p < strstart s + lookahead s ->
    byte_at (with_window s w) p = byte_at s p.

(** Two outcomes that a caller cannot tell apart: the same value returned
    and, where the initial [best_len] is below [lookahead], the same
    [match_start] and the same candidates examined. *)
Definition same_result (s : deflate_state) (r r' : outcome_of_call) : Prop :=
  returned r' = returned r
  /\ (initial_best_len s < lookahead s ->
      match_start (final_state r') = match_start (final_state r)
      /\ map cand (examined r') = map cand (examined r)).

(** ** Concrete states for the examples *)

(** Values for the two parameters: [MAX_DIST] as for a window of 512 bytes
    of which 262 are kept as lookahead, and a trigger level of 5. *)
Definition MAX_DIST_512 (s : deflate_state) : Z := 250.
Definition TRIGGER_LEVEL_5 : Z := 5.

Definition text (str : string) : list byte := list_byte_of_string str.

Definition zeros (n : nat) : list byte := repeat x00 n.

(** A chain table of 512 entries ([w_mask = 511]), all 0 but those listed. *)
Definition links (set : list (nat * Z)) : list Z :=
  map (fun i => match find (fun e => Nat.eqb (fst e) i) set with
                | Some e => snd e
                | None => 0
                end) (seq 0 512).

(** The scenario of the specification: the second "abcXYZ" at 7 is matched
    against the first at 1. *)
Definition repeated_string : deflate_state :=
  mk_deflate_state (text "_abcXYZabcXYZ!" ++ zeros 300) (links [])
    511 7 6 2 0 16 4 16 6.

(** The end of the input: three bytes of lookahead are left while the
    previous position had a match of four. *)
Definition short_lookahead : deflate_state :=
  mk_deflate_state (text "_abcXYZabcXYZ!" ++ zeros 300) (links [])
    511 7 3 4 0 16 4 16 6.

(** A match of three bytes, "abc" at 1 and at 6, after different bytes. *)
Definition three_byte_match : deflate_state :=
  mk_deflate_state (text "xabcdyabce" ++ zeros 300) (links [])
    511 6 4 2 99 16 4 16 6.

(** A candidate that differs from the current string at the third byte
    only: such a candidate is not on the hash chain of a well-formed
    state. *)
Definition third_byte_differs : deflate_state :=
  mk_deflate_state (text ".abXdef.abcdef!" ++ zeros 300) (links [])
    511 8 6 1 0 16 4 16 6.

(** [nice_match = 3] with [prev_length = 5]: the candidate at 10 passes the
    quick check and matches three bytes; the candidate at 1 matches eight. *)
Definition small_nice_match : deflate_state :=
  mk_deflate_state (text "_abcdefgh_abcXef_abcdefgh!" ++ zeros 300)
    (links [(10%nat, 1)])
    511 17 9 5 0 16 32 3 6.

(** [strstart = 300] and [MAX_DIST = 250]: the chain goes from 200 to 50, at
    distance 250, and on to 49.  The strings at 49 and at 50 match eight
    bytes, the string at 200 three. *)
Definition far_candidate : deflate_state :=
  mk_deflate_state
    (repeat "."%byte 49 ++ text "aaaaaaaaa" ++ repeat "."%byte 142
       ++ text "aaaX" ++ repeat "."%byte 96 ++ text "aaaaaaaa" ++ zeros 300)
    (links [(200%nat, 50); (50%nat, 49)])
    511 300 8 2 0 16 4 16 6.

(** A call of a fast strategy: [level = 2], [prev_length = 2], a chain
    budget of 8.  The chain holds 25, 14 and 1.  The string at 25 matches
    nine bytes (and the byte before it matches too); the string at 14
    agrees with the current string at bytes 0-3 and 5-9 but not at byte 4;
    the string at 1 matches twelve bytes. *)
Definition low_level : deflate_state :=
  mk_deflate_state
    (text "_abcdefghijkl?abcdEfghij_abcdefghiX_abcdefghijkl!" ++ zeros 300)
    (links [(25%nat, 14); (14%nat, 1)])
    511 36 13 2 0 8 4 16 2.

(** The window and the chain of [low_level] in a call of a slow strategy
    that follows a match of three bytes: [level = 6], [prev_length = 3]. *)
Definition deep_chain : deflate_state :=
  mk_deflate_state
    (text "_abcdefghijkl?abcdEfghij_abcdefghiX_abcdefghijkl!" ++ zeros 300)
    (links [(25%nat, 14); (14%nat, 1)])
    511 36 13 3 0 8 4 16 6.

(** The same with an empty chain table: the string at 25, with its match of
    nine bytes, is the only candidate. *)
Definition nine_byte_match : deflate_state :=
  mk_deflate_state
    (text "_abcdefghijkl?abcdEfghij_abcdefghiX_abcdefghijkl!" ++ zeros 300)
    (links [])
    511 36 13 3 0 8 4 16 6.

(** Two candidates with the same match of five bytes, "abcde": the string
    at 8, the head of the chain, and the string at 1. *)
Definition equal_candidates : deflate_state :=
  mk_deflate_state (text "_abcdeX_abcdeY_abcde!" ++ zeros 300)
    (links [(8%nat, 1)])
    511 15 6 2 0 16 4 16 6.

(** [max_chain_length = 3] with [prev_length >= good_match]: the budget of
    line 70 is 0.  The chain holds 25, 19, 13, 7 and 1; each of these
    strings starts like the current one and differs from it at byte 4. *)
Definition empty_budget : deflate_state :=
  mk_deflate_state
    (text "_abcdX_abcdX_abcdX_abcdX_abcdX_abcdef!" ++ zeros 300)
    (links [(25%nat, 19); (19%nat, 13); (13%nat, 7); (7%nat, 1)])
    511 31 6 4 0 3 4 16 6.

(** What a call returned and recorded, and the candidates it probed. *)
Definition summary (r : option outcome_of_call)
  : option (Z * Z * list (Z * option Z)) :=
  option_map (fun r => (returned r, match_start (final_state r),
                        map (fun p => (cand p, outcome p)) (examined r))) r.

(** * Properties *)

(** ** The comparators against the naive scan *)

Lemma byte_eqb_eq (x y : byte) : Byte.eqb x y = true <-> x = y.
Proof. split; [apply Byte.byte_dec_bl | apply Byte.byte_dec_lb]. Qed.

Lemma byte_eqb_refl (x : byte) : Byte.eqb x x = true.
Proof. now apply byte_eqb_eq. Qed.

Lemma equal_run_bounds s n : forall a b, 0 <= equal_run s n a b <= Z.of_nat n.
Proof.
  induction n as [|n IH]; intros a b; cbn [equal_run]; [lia|].
  destruct (Byte.eqb _ _); specialize (IH (a + 1) (b + 1)); lia.
Qed.

Lemma equal_run_split s n m : forall a b,
  equal_run s (n + m) a b =
  if equal_run s n a b =? Z.of_nat n
  then Z.of_nat n + equal_run s m (a + Z.of_nat n) (b + Z.of_nat n)
  else equal_run s n a b.
Proof.
  induction n as [|n IH]; intros a b.
  - cbn [equal_run Nat.add]. change (Z.of_nat 0) with 0.
    rewrite !Z.add_0_r. reflexivity.
  - cbn [equal_run Nat.add].
    destruct (Byte.eqb (byte_at s a) (byte_at s b)).
    + rewrite IH. pose proof (equal_run_bounds s n (a + 1) (b + 1)).
      destruct (equal_run s n (a + 1) (b + 1) =? Z.of_nat n) eqn:E.
      * apply Z.eqb_eq in E.
        replace (1 + equal_run s n (a + 1) (b + 1) =? Z.of_nat (S n)) with true
          by (symmetry; apply Z.eqb_eq; lia).
        replace (a + 1 + Z.of_nat n) with (a + Z.of_nat (S n)) by lia.
        replace (b + 1 + Z.of_nat n) with (b + Z.of_nat (S n)) by lia.
        lia.
      * apply Z.eqb_neq in E.
        replace (1 + equal_run s n (a + 1) (b + 1) =? Z.of_nat (S n)) with false
          by (symmetry; apply Z.eqb_neq; lia).
        reflexivity.
    + replace (0 =? Z.of_nat (S n)) with false
        by (symmetry; apply Z.eqb_neq; lia).
      reflexivity.
Qed.

(** Positions below the run are equal, and the position that ends a run
    short of [n] differs. *)
Lemma equal_run_below s n : forall a b i,
  0 <= i < equal_run s n a b -> byte_at s (a + i) = byte_at s (b + i).
Proof.
  induction n as [|n IH]; intros a b i Hi; cbn [equal_run] in Hi; [lia|].
  destruct (Byte.eqb (byte_at s a) (byte_at s b)) eqn:E; [|lia].
  destruct (Z.eq_dec i 0) as [->|Hne].
  - rewrite !Z.add_0_r. now apply byte_eqb_eq.
  - replace (a + i) with (a + 1 + (i - 1)) by lia.
    replace (b + i) with (b + 1 + (i - 1)) by lia.
    apply IH. lia.
Qed.

Lemma equal_run_stop s n : forall a b,
  equal_run s n a b < Z.of_nat n ->
  byte_at s (a + equal_run s n a b) <> byte_at s (b + equal_run s n a b).
Proof.
  induction n as [|n IH]; intros a b Hlt; cbn [equal_run] in *; [lia|].
  destruct (Byte.eqb (byte_at s a) (byte_at s b)) eqn:E.
  - replace (a + (1 + equal_run s n (a + 1) (b + 1)))
      with (a + 1 + equal_run s n (a + 1) (b + 1)) by lia.
    replace (b + (1 + equal_run s n (a + 1) (b + 1)))
      with (b + 1 + equal_run s n (a + 1) (b + 1)) by lia.
    apply IH. lia.
  - rewrite !Z.add_0_r. now apply Byte.eqb_false.
Qed.

Lemma std1_compare_spec s k : forall scan mtch,
  std1_compare s k scan mtch =
  if equal_run s k (scan + 1) (mtch + 1) =? Z.of_nat k
  then (scan + Z.of_nat k, mtch + Z.of_nat k, true)
  else (scan + equal_run s k (scan + 1) (mtch + 1) + 1,
        mtch + equal_run s k (scan + 1) (mtch + 1) + 1, false).
Proof.
  induction k as [|k IH]; intros scan mtch.
  - cbn [std1_compare equal_run]. change (Z.of_nat 0) with 0.
    rewrite !Z.add_0_r. reflexivity.
  - cbn [std1_compare equal_run].
    destruct (Byte.eqb (byte_at s (scan + 1)) (byte_at s (mtch + 1))).
    + rewrite IH.
      pose proof (equal_run_bounds s k (scan + 1 + 1) (mtch + 1 + 1)).
      destruct (equal_run s k (scan + 1 + 1) (mtch + 1 + 1) =? Z.of_nat k) eqn:E.
      * apply Z.eqb_eq in E.
        replace (1 + equal_run s k (scan + 1 + 1) (mtch + 1 + 1) =? Z.of_nat (S k))
          with true by (symmetry; apply Z.eqb_eq; lia).
        f_equal; f_equal; lia.
      * apply Z.eqb_neq in E.
        replace (1 + equal_run s k (scan + 1 + 1) (mtch + 1 + 1) =? Z.of_nat (S k))
          with false by (symmetry; apply Z.eqb_neq; lia).
        f_equal; f_equal; lia.
    + replace (0 =? Z.of_nat (S k)) with false
        by (symmetry; apply Z.eqb_neq; lia).
      rewrite !Z.add_0_r. reflexivity.
Qed.

Lemma std1_extend_unfold s r strend scan mtch :
  std1_extend s (S r) strend scan mtch =
  let '(scan', mtch', all_equal) := std1_compare s 8 scan mtch in
  if all_equal && (scan' <? strend)
  then std1_extend s r strend scan' mtch'
  else scan'.
Proof. reflexivity. Qed.

(** The extension of std1 over [r + 1] rounds is the naive scan of the
    [8 r + 7] bytes that follow [scan + 1]: the byte at [strend] is compared
    but cannot change the result. *)
Lemma std1_extend_spec s r : forall scan mtch,
  std1_extend s (S r) (scan + 8 * Z.of_nat (S r)) scan mtch =
  scan + 1 + equal_run s (8 * r + 7) (scan + 1) (mtch + 1).
Proof.
  induction r as [|r IH]; intros scan mtch.
  - cbn [std1_extend]. rewrite std1_compare_spec.
    change (8 * 0 + 7)%nat with 7%nat.
    pose proof (equal_run_split s 7 1 (scan + 1) (mtch + 1)) as Hs.
    change (7 + 1)%nat with 8%nat in Hs.
    pose proof (equal_run_bounds s 7 (scan + 1) (mtch + 1)).
    pose proof (equal_run_bounds s 1 (scan + 1 + Z.of_nat 7) (mtch + 1 + Z.of_nat 7)).
    destruct (equal_run s 8 (scan + 1) (mtch + 1) =? Z.of_nat 8) eqn:E8;
      [apply Z.eqb_eq in E8 | apply Z.eqb_neq in E8];
      destruct (equal_run s 7 (scan + 1) (mtch + 1) =? Z.of_nat 7) eqn:E7;
      [apply Z.eqb_eq in E7 | apply Z.eqb_neq in E7
      |apply Z.eqb_eq in E7 | apply Z.eqb_neq in E7];
      cbn [andb]; try lia.
    destruct (scan + Z.of_nat 8 <? scan + 8 * Z.of_nat 1); lia.
  - rewrite std1_extend_unfold, std1_compare_spec.
    replace (8 * S r + 7)%nat with (8 + (8 * r + 7))%nat by lia.
    rewrite equal_run_split.
    destruct (equal_run s 8 (scan + 1) (mtch + 1) =? Z.of_nat 8) eqn:E8.
    + cbn [andb].
      replace (scan + Z.of_nat 8 <? scan + 8 * Z.of_nat (S (S r))) with true
        by (symmetry; apply Z.ltb_lt; lia).
      replace (scan + 8 * Z.of_nat (S (S r)))
        with (scan + Z.of_nat 8 + 8 * Z.of_nat (S r)) by lia.
      rewrite IH.
      replace (scan + Z.of_nat 8 + 1) with (scan + 1 + Z.of_nat 8) by lia.
      replace (mtch + Z.of_nat 8 + 1) with (mtch + 1 + Z.of_nat 8) by lia.
      lia.
    + cbn [andb]. lia.
Qed.

Lemma std1_len_spec s c :
  std1_len s c = 3 + equal_run s 255 (strstart s + 3) (c + 3).
Proof.
  unfold std1_len.
  replace (strstart s + MAX_MATCH) with (strstart s + 2 + 8 * Z.of_nat 32)
    by (unfold MAX_MATCH; lia).
  rewrite (std1_extend_spec s 31).
  change (8 * 31 + 7)%nat with 255%nat.
  replace (strstart s + 2 + 1) with (strstart s + 3) by lia.
  replace (c + 2 + 1) with (c + 3) by lia.
  unfold MAX_MATCH. lia.
Qed.

Lemma std1_len_bounds s c : 3 <= std1_len s c <= MAX_MATCH.
Proof.
  rewrite std1_len_spec. pose proof (equal_run_bounds s 255 (strstart s + 3) (c + 3)).
  unfold MAX_MATCH. lia.
Qed.

Lemma byte_value_inj (x y : byte) : byte_value x = byte_value y -> x = y.
Proof.
  unfold byte_value. intros H. apply N2Z.inj in H.
  pose proof (Byte.of_to_N x) as Hx. pose proof (Byte.of_to_N y) as Hy.
  rewrite H in Hx. congruence.
Qed.

Lemma byte_value_range (x : byte) : 0 <= byte_value x < 256.
Proof. unfold byte_value. pose proof (Byte.to_N_bounded x). lia. Qed.

(** Two 16-bit loads are equal exactly when both of their bytes are. *)
Lemma load16_eqb s p q :
  (load16 s p =? load16 s q) =
  Byte.eqb (byte_at s p) (byte_at s q)
  && Byte.eqb (byte_at s (p + 1)) (byte_at s (q + 1)).
Proof.
  unfold load16.
  pose proof (byte_value_range (byte_at s p)).
  pose proof (byte_value_range (byte_at s q)).
  pose proof (byte_value_range (byte_at s (p + 1))).
  pose proof (byte_value_range (byte_at s (q + 1))).
  destruct (Byte.eqb (byte_at s p) (byte_at s q)) eqn:E0;
    destruct (Byte.eqb (byte_at s (p + 1)) (byte_at s (q + 1))) eqn:E1;
    cbn [andb].
  - apply byte_eqb_eq in E0, E1. rewrite E0, E1. apply Z.eqb_refl.
  - apply Byte.eqb_false in E1. apply Z.eqb_neq. intros H'.
    apply E1, byte_value_inj. lia.
  - apply Byte.eqb_false in E0. apply Z.eqb_neq. intros H'.
    apply E0, byte_value_inj. lia.
  - apply Byte.eqb_false in E0. apply Z.eqb_neq. intros H'.
    apply E0, byte_value_inj. lia.
Qed.

Lemma half_plus_two e : (1 + (1 + e)) / 2 = 1 + e / 2.
Proof.
  replace (1 + (1 + e)) with (e + 1 * 2) by lia.
  rewrite Z.div_add by lia. lia.
Qed.

Lemma std2_compare_spec s k : forall scan mtch,
  std2_compare s k scan mtch =
  if equal_run s (2 * k) scan mtch =? Z.of_nat (2 * k)
  then (scan + Z.of_nat (2 * k), mtch + Z.of_nat (2 * k), true)
  else (scan + 2 * (equal_run s (2 * k) scan mtch / 2),
        mtch + 2 * (equal_run s (2 * k) scan mtch / 2), false).
Proof.
  induction k as [|k IH]; intros scan mtch.
  - cbn [std2_compare equal_run Nat.mul]. change (Z.of_nat 0) with 0.
    rewrite !Z.add_0_r. reflexivity.
  - replace (2 * S k)%nat with (S (S (2 * k))) by lia.
    cbn [std2_compare equal_run]. rewrite load16_eqb, IH.
    pose proof (equal_run_bounds s (2 * k) (scan + 1 + 1) (mtch + 1 + 1)) as Hb.
    replace (scan + 2) with (scan + 1 + 1) by lia.
    replace (mtch + 2) with (mtch + 1 + 1) by lia.
    destruct (Byte.eqb (byte_at s mtch) (byte_at s scan)) eqn:E0.
    + apply byte_eqb_eq in E0. rewrite E0, byte_eqb_refl.
      destruct (Byte.eqb (byte_at s (mtch + 1)) (byte_at s (scan + 1))) eqn:E1.
      * apply byte_eqb_eq in E1. rewrite E1, byte_eqb_refl.
        cbn [andb].
        destruct (equal_run s (2 * k) (scan + 1 + 1) (mtch + 1 + 1)
                  =? Z.of_nat (2 * k)) eqn:E.
        -- apply Z.eqb_eq in E.
           replace (1 + (1 + equal_run s (2 * k) (scan + 1 + 1) (mtch + 1 + 1))
                    =? Z.of_nat (S (S (2 * k)))) with true
             by (symmetry; apply Z.eqb_eq; lia).
           f_equal; f_equal; lia.
        -- apply Z.eqb_neq in E.
           replace (1 + (1 + equal_run s (2 * k) (scan + 1 + 1) (mtch + 1 + 1))
                    =? Z.of_nat (S (S (2 * k)))) with false
             by (symmetry; apply Z.eqb_neq; lia).
           rewrite half_plus_two. f_equal; f_equal; lia.
      * cbn [andb].
        destruct (Byte.eqb (byte_at s (scan + 1)) (byte_at s (mtch + 1))) eqn:E1'.
        { apply byte_eqb_eq in E1'. rewrite E1' in E1.
          rewrite byte_eqb_refl in E1. discriminate. }
        replace (1 + 0 =? Z.of_nat (S (S (2 * k)))) with false
          by (symmetry; apply Z.eqb_neq; lia).
        change ((1 + 0) / 2) with 0. rewrite !Z.add_0_r. reflexivity.
    + cbn [andb].
      destruct (Byte.eqb (byte_at s scan) (byte_at s mtch)) eqn:E0'.
      { apply byte_eqb_eq in E0'. rewrite E0' in E0.
        rewrite byte_eqb_refl in E0. discriminate. }
      replace (0 =? Z.of_nat (S (S (2 * k)))) with false
        by (symmetry; apply Z.eqb_neq; lia).
      change (0 / 2) with 0. rewrite !Z.add_0_r. reflexivity.
Qed.

Lemma std2_extend_unfold s r strend scan mtch :
  std2_extend s (S r) strend scan mtch =
  let '(scan', mtch', all_equal) := std2_compare s 4 scan mtch in
  if all_equal && (scan' <? strend)
  then std2_extend s r strend scan' mtch'
  else (scan', mtch').
Proof. reflexivity. Qed.

(** The extension of std2 stops at the 16-bit pair that holds the first
    unequal byte among the [8 (r + 1)] bytes from [scan]. *)
Lemma std2_extend_spec s r : forall scan mtch,
  std2_extend s (S r) (scan + 8 * Z.of_nat (S r)) scan mtch =
  (scan + 2 * (equal_run s (8 * S r) scan mtch / 2),
   mtch + 2 * (equal_run s (8 * S r) scan mtch / 2)).
Proof.
  induction r as [|r IH]; intros scan mtch;
    rewrite std2_extend_unfold, std2_compare_spec;
    change (2 * 4)%nat with 8%nat.
  - change (8 * 1)%nat with 8%nat.
    destruct (equal_run s 8 scan mtch =? Z.of_nat 8) eqn:E8; cbn [andb].
    + apply Z.eqb_eq in E8. rewrite E8.
      replace (scan + Z.of_nat 8 <? scan + 8 * Z.of_nat 1) with false
        by (symmetry; apply Z.ltb_ge; lia).
      reflexivity.
    + reflexivity.
  - replace (8 * S (S r))%nat with (8 + 8 * S r)%nat by lia.
    rewrite equal_run_split.
    pose proof (equal_run_bounds s (8 * S r) (scan + Z.of_nat 8) (mtch + Z.of_nat 8)).
    destruct (equal_run s 8 scan mtch =? Z.of_nat 8) eqn:E8; cbn [andb].
    + replace (scan + Z.of_nat 8 <? scan + 8 * Z.of_nat (S (S r))) with true
        by (symmetry; apply Z.ltb_lt; lia).
      replace (scan + 8 * Z.of_nat (S (S r)))
        with (scan + Z.of_nat 8 + 8 * Z.of_nat (S r)) by lia.
      rewrite IH.
      replace (Z.of_nat 8 +
               equal_run s (8 * S r) (scan + Z.of_nat 8) (mtch + Z.of_nat 8))
        with (equal_run s (8 * S r) (scan + Z.of_nat 8) (mtch + Z.of_nat 8)
              + 4 * 2) by lia.
      rewrite Z.div_add by lia. f_equal; lia.
    + reflexivity.
Qed.

Lemma std2_len_spec s c :
  std2_len s c = 1 + equal_run s 257 (strstart s + 1) (c + 1).
Proof.
  unfold std2_len.
  replace (strstart s + MAX_MATCH - 1) with (strstart s + 1 + 8 * Z.of_nat 32)
    by (unfold MAX_MATCH; lia).
  rewrite (std2_extend_spec s 31). change (8 * 32)%nat with 256%nat.
  pose proof (equal_run_split s 256 1 (strstart s + 1) (c + 1)) as Hs.
  change (256 + 1)%nat with 257%nat in Hs. rewrite Hs. clear Hs.
  pose proof (equal_run_bounds s 256 (strstart s + 1) (c + 1)) as Hb.
  pose proof (equal_run_below s 256 (strstart s + 1) (c + 1)) as Hbelow.
  pose proof (equal_run_stop s 256 (strstart s + 1) (c + 1)) as Hstop.
  set (e := equal_run s 256 (strstart s + 1) (c + 1)) in *.
  destruct (e =? Z.of_nat 256) eqn:E.
  - apply Z.eqb_eq in E. rewrite E.
    change (2 * (Z.of_nat 256 / 2)) with 256. change (Z.of_nat 256) with 256.
    cbn [equal_run].
    destruct (Byte.eqb (byte_at s (strstart s + 1 + 256))
                (byte_at s (c + 1 + 256))); unfold MAX_MATCH; lia.
  - apply Z.eqb_neq in E.
    assert (Hlt : e < Z.of_nat 256) by lia.
    destruct (Z.eq_dec (2 * (e / 2)) e) as [Heven|Hodd].
    + rewrite Heven.
      destruct (Byte.eqb (byte_at s (strstart s + 1 + e)) (byte_at s (c + 1 + e)))
        eqn:Eb.
      * apply byte_eqb_eq in Eb. exfalso. apply (Hstop Hlt). exact Eb.
      * unfold MAX_MATCH. lia.
    + assert (He : 2 * (e / 2) = e - 1).
      { pose proof (Z.div_mod e 2). pose proof (Z.mod_pos_bound e 2). lia. }
      rewrite He.
      rewrite (Hbelow (e - 1)) by lia.
      rewrite byte_eqb_refl.
      unfold MAX_MATCH. lia.
Qed.

(** Where the third byte of the candidate matches (the promise of the hash
    chain that line 121 and line 246 assert), std1 and std2 compute the same
    length for a candidate that passed the check of the first two bytes. *)
Lemma std1_std2_len s c :
  byte_at s c = byte_at s (strstart s) ->
  byte_at s (c + 1) = byte_at s (strstart s + 1) ->
  byte_at s (c + 2) = byte_at s (strstart s + 2) ->
  std2_len s c = std1_len s c.
Proof.
  intros _ H1 H2. rewrite std1_len_spec, std2_len_spec.
  pose proof (equal_run_split s 2 255 (strstart s + 1) (c + 1)) as Hs.
  change (2 + 255)%nat with 257%nat in Hs. rewrite Hs. clear Hs.
  cbn [equal_run].
  replace (c + 1 + 1) with (c + 2) by lia.
  replace (strstart s + 1 + 1) with (strstart s + 2) by lia.
  rewrite H1, H2, !byte_eqb_refl.
  change (1 + (1 + 0) =? Z.of_nat 2) with true. cbv iota.
  change (Z.of_nat 2) with 2.
  replace (strstart s + 1 + 2) with (strstart s + 3) by lia.
  replace (c + 1 + 2) with (c + 3) by lia.
  lia.
Qed.

(** *** The 64-bit comparator of std3 *)

Lemma equal_run_min s n m a b :
  equal_run s n a b = Z.min (equal_run s (n + m) a b) (Z.of_nat n).
Proof.
  rewrite equal_run_split.
  pose proof (equal_run_bounds s n a b).
  pose proof (equal_run_bounds s m (a + Z.of_nat n) (b + Z.of_nat n)).
  destruct (equal_run s n a b =? Z.of_nat n) eqn:E;
    [apply Z.eqb_eq in E | apply Z.eqb_neq in E]; lia.
Qed.

Lemma load_le_nonneg s n : forall p, 0 <= load_le s n p.
Proof.
  induction n as [|n IH]; intros p; cbn [load_le]; [lia|].
  pose proof (byte_value_range (byte_at s p)). specialize (IH (p + 1)). lia.
Qed.

(** The exclusive-or of two little-endian numbers, byte by byte. *)
Lemma lxor_low_byte a b x y :
  0 <= a < 256 -> 0 <= b < 256 ->
  Z.lxor (a + 256 * x) (b + 256 * y) = Z.lxor a b + 256 * Z.lxor x y
  /\ 0 <= Z.lxor a b < 256.
Proof.
  intros Ha Hb.
  assert (Hmod : forall u v, 0 <= u < 256 -> (u + 256 * v) mod 2 ^ 8 = u).
  { intros u v Hu. change (2 ^ 8) with 256.
    replace (u + 256 * v) with (u + v * 256) by lia.
    rewrite Z.mod_add by lia. apply Z.mod_small; lia. }
  assert (Hdiv : forall u v, 0 <= u < 256 -> (u + 256 * v) / 2 ^ 8 = v).
  { intros u v Hu. change (2 ^ 8) with 256.
    replace (u + 256 * v) with (u + v * 256) by lia.
    rewrite Z.div_add by lia. rewrite Z.div_small by lia. lia. }
  assert (Hlow : Z.lxor (a + 256 * x) (b + 256 * y) mod 2 ^ 8 = Z.lxor a b).
  { rewrite <- Z.land_ones by lia.
    apply Z.bits_inj'. intros n Hn.
    rewrite Z.land_spec, !Z.lxor_spec.
    destruct (Z_lt_le_dec n 8) as [Hlt | Hge].
    - rewrite Z.ones_spec_low by lia. rewrite andb_true_r.
      rewrite <- (Z.mod_pow2_bits_low (a + 256 * x) 8 n) by lia.
      rewrite <- (Z.mod_pow2_bits_low (b + 256 * y) 8 n) by lia.
      rewrite !Hmod by lia. reflexivity.
    - rewrite Z.ones_spec_high by lia. rewrite andb_false_r.
      assert (Hhigh : forall u, 0 <= u < 256 -> Z.testbit u n = false).
      { intros u Hu. destruct (Z.eq_dec u 0) as [-> | Hnz];
          [apply Z.bits_0|].
        apply Z.bits_above_log2; [lia|].
        assert (Z.log2 u < 8) by (apply Z.log2_lt_pow2; lia). lia. }
      rewrite !Hhigh by lia. reflexivity. }
  assert (Hhigh : Z.lxor (a + 256 * x) (b + 256 * y) / 2 ^ 8 = Z.lxor x y).
  { rewrite <- Z.shiftr_div_pow2 by lia. rewrite Z.shiftr_lxor.
    rewrite !Z.shiftr_div_pow2 by lia. rewrite !Hdiv by lia. reflexivity. }
  split.
  - rewrite (Z.div_mod (Z.lxor (a + 256 * x) (b + 256 * y)) (2 ^ 8)) by lia.
    rewrite Hlow, Hhigh. change (2 ^ 8) with 256. lia.
  - rewrite <- Hlow. apply Z.mod_pos_bound. lia.
Qed.

Lemma trailing_zeros_nonneg p : 0 <= trailing_zeros p.
Proof. induction p; cbn [trailing_zeros]; lia. Qed.

Lemma ctzl_double z : 0 < z -> builtin_ctzl (2 * z) = 1 + builtin_ctzl z.
Proof. destruct z; try lia. reflexivity. Qed.

Lemma ctzl_times_256 z : 0 < z -> builtin_ctzl (256 * z) = 8 + builtin_ctzl z.
Proof.
  intros Hz.
  replace (256 * z) with (2 * (2 * (2 * (2 * (2 * (2 * (2 * (2 * z))))))))
    by lia.
  rewrite !ctzl_double by lia. lia.
Qed.

(** A number with [k] trailing zero bits is a multiple of [2 ^ k]. *)
Lemma ctzl_divides k : forall z,
  0 < z -> Z.of_nat k <= builtin_ctzl z -> z mod 2 ^ Z.of_nat k = 0.
Proof.
  induction k as [|k IH]; intros z Hz Hk.
  - change (2 ^ Z.of_nat 0) with 1. apply Z.mod_1_r.
  - destruct z as [|p|p]; try lia.
    destruct p as [p|p|]; cbn [builtin_ctzl trailing_zeros] in Hk; try lia.
    assert (Hp : Z.pos p mod 2 ^ Z.of_nat k = 0).
    { apply IH; [lia|]. cbn [builtin_ctzl]. lia. }
    change (Z.pos p~0) with (2 * Z.pos p).
    rewrite Nat2Z.inj_succ, Z.pow_succ_r by lia.
    rewrite Z.mul_mod_distr_l by lia. lia.
Qed.

Lemma ctzl_low_byte z :
  0 < z -> z mod 256 <> 0 -> builtin_ctzl z / 8 = 0.
Proof.
  intros Hz Hmod.
  assert (Hnn : 0 <= builtin_ctzl z).
  { destruct z; try lia. apply trailing_zeros_nonneg. }
  destruct (Z_lt_le_dec (builtin_ctzl z) 8) as [Hlt | Hge].
  - apply Z.div_small. lia.
  - exfalso. apply Hmod. apply (ctzl_divides 8 z Hz). exact Hge.
Qed.

(** The bit trick of lines 407-411: the exclusive-or of two loads is zero
    when all their bytes are equal, and otherwise its number of trailing
    zero bits, divided by 8, is the index of the first unequal byte. *)
Lemma load_le_xor s n : forall p q,
  (equal_run s n p q = Z.of_nat n ->
   Z.lxor (load_le s n p) (load_le s n q) = 0)
  /\ (equal_run s n p q < Z.of_nat n ->
      0 < Z.lxor (load_le s n p) (load_le s n q)
      /\ builtin_ctzl (Z.lxor (load_le s n p) (load_le s n q)) / 8
         = equal_run s n p q).
Proof.
  induction n as [|n IH]; intros p q.
  - cbn [load_le equal_run]. split; [reflexivity | cbn; lia].
  - cbn [load_le equal_run].
    pose proof (byte_value_range (byte_at s p)) as Ha.
    pose proof (byte_value_range (byte_at s q)) as Hb.
    destruct (lxor_low_byte _ _ (load_le s n (p + 1)) (load_le s n (q + 1)) Ha Hb)
      as [Hx Hd].
    rewrite Hx. clear Hx.
    pose proof (load_le_nonneg s n (p + 1)) as HX.
    pose proof (load_le_nonneg s n (q + 1)) as HY.
    assert (HW : 0 <= Z.lxor (load_le s n (p + 1)) (load_le s n (q + 1)))
      by (apply Z.lxor_nonneg; tauto).
    pose proof (equal_run_bounds s n (p + 1) (q + 1)) as He.
    destruct (IH (p + 1) (q + 1)) as [IH0 IH1].
    destruct (Byte.eqb (byte_at s p) (byte_at s q)) eqn:E.
    + apply byte_eqb_eq in E. rewrite E, Z.lxor_nilpotent.
      split.
      * intros Hall. rewrite IH0 by lia. reflexivity.
      * intros Hsome. destruct IH1 as [Hpos Hctz]; [lia|].
        split; [lia|].
        rewrite Z.add_0_l, ctzl_times_256 by exact Hpos.
        replace (8 + builtin_ctzl (Z.lxor (load_le s n (p + 1))
                                     (load_le s n (q + 1))))
          with (builtin_ctzl (Z.lxor (load_le s n (p + 1))
                                (load_le s n (q + 1))) + 1 * 8) by lia.
        rewrite Z.div_add by lia. lia.
    + apply Byte.eqb_false in E.
      assert (Hne : Z.lxor (byte_value (byte_at s p)) (byte_value (byte_at s q))
                    <> 0).
      { intros H0. apply Z.lxor_eq in H0. apply E.
        apply byte_value_inj. exact H0. }
      split; [lia|]. intros _.
      split; [lia|].
      apply ctzl_low_byte; [lia|].
      replace (Z.lxor (byte_value (byte_at s p)) (byte_value (byte_at s q))
               + 256 * Z.lxor (load_le s n (p + 1)) (load_le s n (q + 1)))
        with (Z.lxor (byte_value (byte_at s p)) (byte_value (byte_at s q))
              + Z.lxor (load_le s n (p + 1)) (load_le s n (q + 1)) * 256)
        by lia.
      rewrite Z.mod_add by lia.
      rewrite Z.mod_small by lia. exact Hne.
Qed.

Lemma std3_extend_unfold t s r strend scan mtch :
  std3_extend t s (S r) strend scan mtch =
  if negb (Z.lxor (load_le s 8 scan) (load_le s 8 mtch) =? 0)
  then scan + ctzl_of t (Z.lxor (load_le s 8 scan) (load_le s 8 mtch)) / 8
  else if scan + 8 <? strend
       then std3_extend t s r strend (scan + 8) (mtch + 8)
       else scan + 8.
Proof. reflexivity. Qed.

(** With the builtin of 64 bits, the extension of std3, cut at [strend] as
    line 419 does, is the naive scan of the bytes up to [strend]. *)
Lemma std3_extend_spec s : forall r n scan mtch,
  (0 < n <= 8 * r)%nat ->
  Z.min (std3_extend gnuc_lp64 s r (scan + Z.of_nat n) scan mtch)
    (scan + Z.of_nat n)
  = scan + equal_run s n scan mtch.
Proof.
  induction r as [|r IH]; intros n scan mtch Hn; [lia|].
  rewrite std3_extend_unfold. cbn [ctzl_of].
  destruct (load_le_xor s 8 scan mtch) as [H0 H1].
  pose proof (equal_run_bounds s 8 scan mtch) as Hb8.
  pose proof (equal_run_bounds s n scan mtch) as Hbn.
  destruct (Z.eq_dec (equal_run s 8 scan mtch) (Z.of_nat 8)) as [Hall | Hsome].
  - rewrite (H0 Hall). cbn [Z.eqb negb].
    destruct (scan + 8 <? scan + Z.of_nat n) eqn:Hmore;
      [apply Z.ltb_lt in Hmore | apply Z.ltb_ge in Hmore].
    + pose proof (equal_run_split s 8 (n - 8) scan mtch) as Hs.
      replace (8 + (n - 8))%nat with n in Hs by lia.
      rewrite Hall, Z.eqb_refl in Hs. change (Z.of_nat 8) with 8 in Hs.
      replace (scan + Z.of_nat n) with (scan + 8 + Z.of_nat (n - 8)) by lia.
      rewrite IH by lia. lia.
    + assert (Hle : (n <= 8)%nat) by lia.
      pose proof (equal_run_min s n (8 - n) scan mtch) as Hmin.
      replace (n + (8 - n))%nat with 8%nat in Hmin by lia.
      lia.
  - destruct H1 as [Hpos Hctz]; [lia|].
    replace (Z.lxor (load_le s 8 scan) (load_le s 8 mtch) =? 0) with false
      by (symmetry; apply Z.eqb_neq; lia).
    cbn [negb]. rewrite Hctz.
    destruct (Nat.le_gt_cases 8 n) as [Hge | Hlt].
    + pose proof (equal_run_split s 8 (n - 8) scan mtch) as Hs.
      replace (8 + (n - 8))%nat with n in Hs by lia.
      replace (equal_run s 8 scan mtch =? Z.of_nat 8) with false in Hs
        by (symmetry; apply Z.eqb_neq; lia).
      lia.
    + pose proof (equal_run_min s n (8 - n) scan mtch) as Hmin.
      replace (n + (8 - n))%nat with 8%nat in Hmin by lia.
      lia.
Qed.

Lemma std3_len_spec s c :
  std3_len gnuc_lp64 s c = 4 + equal_run s 254 (strstart s + 4) (c + 4).
Proof.
  unfold std3_len.
  pose proof (std3_extend_spec s 32 254 (strstart s + 4) (c + 4)) as H.
  replace (strstart s + 4 + Z.of_nat 254) with (strstart s + MAX_MATCH) in H
    by (unfold MAX_MATCH; lia).
  specialize (H ltac:(lia)).
  destruct (std3_extend gnuc_lp64 s 32 (strstart s + MAX_MATCH)
              (strstart s + 4) (c + 4)
            >? strstart s + MAX_MATCH) eqn:E; unfold MAX_MATCH in *; lia.
Qed.

(** *** [__builtin_ctzl] as MSC has it *)

Lemma load_le_bound s n : forall p, 0 <= load_le s n p < 256 ^ Z.of_nat n.
Proof.
  induction n as [|n IH]; intros p.
  - unfold load_le. cbn. lia.
  - change (load_le s (S n) p)
      with (byte_value (byte_at s p) + 256 * load_le s n (p + 1)).
    pose proof (byte_value_range (byte_at s p)).
    specialize (IH (p + 1)).
    rewrite Nat2Z.inj_succ, Z.pow_succ_r by lia. lia.
Qed.

Lemma load_le_split s n m : forall p,
  load_le s (n + m) p
  = load_le s n p + 256 ^ Z.of_nat n * load_le s m (p + Z.of_nat n).
Proof.
  induction n as [|n IH]; intros p.
  - change (load_le s 0 p) with 0. cbn [Nat.add Z.of_nat].
    rewrite Z.add_0_r, Z.pow_0_r. lia.
  - change (load_le s (S n + m) p)
      with (byte_value (byte_at s p) + 256 * load_le s (n + m) (p + 1)).
    change (load_le s (S n) p)
      with (byte_value (byte_at s p) + 256 * load_le s n (p + 1)).
    rewrite IH, Nat2Z.inj_succ, Z.pow_succ_r by lia.
    replace (p + 1 + Z.of_nat n) with (p + Z.succ (Z.of_nat n)) by lia.
    lia.
Qed.

Lemma lxor_mod_pow2 a b n :
  0 <= n -> Z.lxor a b mod 2 ^ n = Z.lxor (a mod 2 ^ n) (b mod 2 ^ n).
Proof.
  intros Hn. apply Z.bits_inj'. intros k Hk. rewrite Z.lxor_spec.
  destruct (Z_lt_le_dec k n) as [Hlt | Hge].
  - rewrite !Z.mod_pow2_bits_low by lia. apply Z.lxor_spec.
  - rewrite !Z.mod_pow2_bits_high by lia. reflexivity.
Qed.

(** The low 32 bits of the exclusive-or of two 64-bit loads are the
    exclusive-or of the 32-bit loads. *)
Lemma lxor_load_le_low s p q :
  Z.lxor (load_le s 8 p) (load_le s 8 q) mod 2 ^ 32
  = Z.lxor (load_le s 4 p) (load_le s 4 q).
Proof.
  pose proof (load_le_split s 4 4 p) as Hp.
  pose proof (load_le_split s 4 4 q) as Hq.
  change (4 + 4)%nat with 8%nat in Hp, Hq.
  pose proof (load_le_bound s 4 p) as Bp.
  pose proof (load_le_bound s 4 q) as Bq.
  change (256 ^ Z.of_nat 4) with (2 ^ 32) in Hp, Hq, Bp, Bq.
  rewrite lxor_mod_pow2 by lia. rewrite Hp, Hq.
  replace (load_le s 4 p + 2 ^ 32 * load_le s 4 (p + Z.of_nat 4))
    with (load_le s 4 p + load_le s 4 (p + Z.of_nat 4) * 2 ^ 32) by lia.
  replace (load_le s 4 q + 2 ^ 32 * load_le s 4 (q + Z.of_nat 4))
    with (load_le s 4 q + load_le s 4 (q + Z.of_nat 4) * 2 ^ 32) by lia.
  rewrite !Z.mod_add by lia.
  rewrite !Z.mod_small by lia. reflexivity.
Qed.

(** The definition of lines 323-328 sees the low 32 bits of the
    exclusive-or of two 64-bit words. *)
Lemma msc_ctzl_low_word s p q :
  equal_run s 8 p q < 8 ->
  msc_builtin_ctzl (Z.lxor (load_le s 8 p) (load_le s 8 q)) / 8
  = Z.min 4 (equal_run s 8 p q).
Proof.
  intros Hlt.
  pose proof (equal_run_min s 4 4 p q) as Hmin.
  change (4 + 4)%nat with 8%nat in Hmin. change (Z.of_nat 4) with 4 in Hmin.
  destruct (load_le_xor s 4 p q) as [H40 H41].
  pose proof (equal_run_bounds s 4 p q) as Hb.
  unfold msc_builtin_ctzl. rewrite lxor_load_le_low.
  destruct (Z.eq_dec (equal_run s 4 p q) 4) as [Hall | Hsome].
  - rewrite (H40 Hall). cbn [BitScanForward Z.eqb].
    change (32 / 8) with 4. lia.
  - destruct H41 as [Hpos4 Hctz4]; [change (Z.of_nat 4) with 4; lia|].
    destruct (Z.lxor (load_le s 4 p) (load_le s 4 q)) as [|x|x] eqn:Hx;
      try lia.
    cbn [BitScanForward Z.eqb]. cbn [builtin_ctzl] in Hctz4.
    rewrite Hctz4. lia.
Qed.

(** With the definition of lines 323-328, [__builtin_ctzl(xor) / 8] at line
    409 is the index of the first byte on which the two 64-bit words differ
    only if that byte is one of the low four; it is 4 when the words differ
    in one of the high four bytes only.  A [__builtin_ctzl] of 64 bits gives
    the index of the first differing byte in either case. *)
Theorem msc_ctzl_sees_four_bytes s p q :
  equal_run s 8 p q < 8 ->
  Z.lxor (load_le s 8 p) (load_le s 8 q) <> 0
  /\ builtin_ctzl (Z.lxor (load_le s 8 p) (load_le s 8 q)) / 8
     = equal_run s 8 p q
  /\ msc_builtin_ctzl (Z.lxor (load_le s 8 p) (load_le s 8 q)) / 8
     = Z.min 4 (equal_run s 8 p q).
Proof.
  intros Hlt.
  destruct (load_le_xor s 8 p q) as [_ H8].
  destruct (H8 Hlt) as [Hpos Hctz].
  split; [lia|]. split; [exact Hctz|].
  now apply msc_ctzl_low_word.
Qed.

(** The extension stops where that with the builtin of 64 bits stops, or up
    to three bytes before. *)
Lemma std3_extend_short s strend : forall r scan mtch,
  std3_extend msc_win32 s r strend scan mtch
  <= std3_extend gnuc_lp64 s r strend scan mtch
  /\ std3_extend gnuc_lp64 s r strend scan mtch
     <= std3_extend msc_win32 s r strend scan mtch + 3
  /\ scan <= std3_extend msc_win32 s r strend scan mtch.
Proof.
  induction r as [|r IH]; intros scan mtch.
  - cbn [std3_extend]. lia.
  - rewrite !std3_extend_unfold. cbn [ctzl_of].
    pose proof (equal_run_bounds s 8 scan mtch) as Hb.
    change (Z.of_nat 8) with 8 in Hb.
    destruct (Z.lxor (load_le s 8 scan) (load_le s 8 mtch) =? 0) eqn:E;
      cbn [negb].
    + destruct (scan + 8 <? strend); [|lia].
      specialize (IH (scan + 8) (mtch + 8)). lia.
    + apply Z.eqb_neq in E.
      assert (Hlt : equal_run s 8 scan mtch < 8).
      { destruct (Z.eq_dec (equal_run s 8 scan mtch) 8) as [Hall | Hne];
          [|lia].
        exfalso. apply E. now apply (load_le_xor s 8). }
      rewrite (msc_ctzl_low_word s scan mtch Hlt).
      destruct (load_le_xor s 8 scan mtch) as [_ H8].
      destruct (H8 Hlt) as [_ ->]. lia.
Qed.

(** The [len] that std3 computes for a target against the one computed
    with the builtin of 64 bits. *)
Lemma std3_len_short t s c :
  4 <= std3_len t s c
  /\ std3_len t s c <= std3_len gnuc_lp64 s c
  /\ std3_len gnuc_lp64 s c <= std3_len t s c + std3_shortfall t.
Proof.
  assert (H64 : 4 <= std3_len gnuc_lp64 s c).
  { rewrite std3_len_spec.
    pose proof (equal_run_bounds s 254 (strstart s + 4) (c + 4)). lia. }
  destruct t; cbn [std3_shortfall]; [lia|].
  unfold std3_len in *.
  destruct (std3_extend_short s (strstart s + MAX_MATCH) 32
              (strstart s + 4) (c + 4)) as (Hle & Hge & Hlo).
  destruct (std3_extend msc_win32 s 32 (strstart s + MAX_MATCH)
              (strstart s + 4) (c + 4) >? strstart s + MAX_MATCH) eqn:E1;
    destruct (std3_extend gnuc_lp64 s 32 (strstart s + MAX_MATCH)
                (strstart s + 4) (c + 4) >? strstart s + MAX_MATCH) eqn:E2;
    unfold MAX_MATCH in *; lia.
Qed.

(** Under MSC the [len] that std3 computes for a candidate is never more
    than the [len] computed with a [__builtin_ctzl] of 64 bits, and at most
    3 less: a match is never reported longer than it is, and can be
    reported up to three bytes shorter. *)
Theorem msc_std3_len_falls_short s c :
  4 <= std3_len msc_win32 s c
  /\ std3_len msc_win32 s c <= std3_len gnuc_lp64 s c
  /\ std3_len gnuc_lp64 s c <= std3_len msc_win32 s c + 3.
Proof. exact (std3_len_short msc_win32 s c). Qed.


(** Section 4.2 of the specification.  For a candidate that agrees with the
    current string on the bytes that the variant does not compare in its
    extension (three for std1, which relies on the hash chain for the third;
    one for std2; four for std3), the length computed is the number of
    leading equal bytes found by the naive scan, capped at [MAX_MATCH]: in
    std1, in std2 and in std3 with the builtin of 64 bits.  In std3 with the
    [__builtin_ctzl] of lines 323-328 it is that number or up to 3 less. *)
Theorem comparators_scan_naively s c :
  (equal_run s 3 (strstart s) c = 3 ->
   std1_len s c = equal_run s 258 (strstart s) c)
  /\ (equal_run s 1 (strstart s) c = 1 ->
      std2_len s c = equal_run s 258 (strstart s) c)
  /\ (equal_run s 4 (strstart s) c = 4 ->
      std3_len gnuc_lp64 s c = equal_run s 258 (strstart s) c
      /\ equal_run s 258 (strstart s) c - 3 <= std3_len msc_win32 s c
         <= equal_run s 258 (strstart s) c).
Proof.
  split; [|split]; intros H.
  - rewrite std1_len_spec.
    pose proof (equal_run_split s 3 255 (strstart s) c) as Hs.
    change (3 + 255)%nat with 258%nat in Hs. rewrite Hs, H.
    change (Z.of_nat 3) with 3. rewrite Z.eqb_refl. reflexivity.
  - rewrite std2_len_spec.
    pose proof (equal_run_split s 1 257 (strstart s) c) as Hs.
    change (1 + 257)%nat with 258%nat in Hs. rewrite Hs, H.
    change (Z.of_nat 1) with 1. rewrite Z.eqb_refl. reflexivity.
  - assert (H64 : std3_len gnuc_lp64 s c = equal_run s 258 (strstart s) c).
    { rewrite std3_len_spec.
      pose proof (equal_run_split s 4 254 (strstart s) c) as Hs.
      change (4 + 254)%nat with 258%nat in Hs. rewrite Hs, H.
      change (Z.of_nat 4) with 4. rewrite Z.eqb_refl. reflexivity. }
    split; [exact H64|].
    pose proof (std3_len_short msc_win32 s c) as Hshort.
    cbn [std3_shortfall] in Hshort. lia.
Qed.

Arguments std1_len : simpl never.
Arguments std2_len : simpl never.
Arguments std1_reject : simpl never.
Arguments std2_reject : simpl never.
Arguments byte_at : simpl never.
Arguments prev_at : simpl never.
Arguments load16 : simpl never.
Arguments pre_decrement : simpl never.

(** Reduction of the projections of records and pairs only. *)
Ltac simpl_locals :=
  cbn [fst snd
       l1_cur_match l1_chain_length l1_best_len l1_scan_end1 l1_scan_end
       l2_cur_match l2_chain_length l2_best_len l2_scan_end
       window prev w_mask strstart lookahead prev_length match_start
       max_chain_length good_match nice_match level set_match_start
       cand best_before outcome
       returned final_state final_best_len examined] in *.

(** ** Arithmetic of the budget, and of [best_after] *)

(** The pre-decrement leaves a budget in the 32-bit range. *)
Lemma pre_decrement_range c : 0 <= pre_decrement c < UINT_RANGE.
Proof. unfold pre_decrement, UINT_RANGE. apply Z.mod_pos_bound. lia. Qed.

Lemma walk_bound_step c :
  pre_decrement c <> 0 -> walk_bound (pre_decrement c) = walk_bound c - 1.
Proof.
  intros Hnz. pose proof (pre_decrement_range c) as Hr.
  unfold walk_bound. unfold pre_decrement at 1.
  rewrite Z.mod_small by lia. lia.
Qed.

Lemma shiftr2_le x : 0 <= x -> Z.shiftr x 2 <= x.
Proof.
  intros Hx. rewrite Z.shiftr_div_pow2 by lia. change (2 ^ 2) with 4.
  apply Z.div_le_upper_bound; lia.
Qed.

Lemma set_match_start_same s : set_match_start s (match_start s) = s.
Proof. destruct s; reflexivity. Qed.

Lemma initial_best_len_ge s : prev_length s <= initial_best_len s.
Proof. unfold initial_best_len. destruct (prev_length s =? 0) eqn:E; lia. Qed.

Lemma best_after_app b ps ps' :
  best_after b (ps ++ ps') = best_after (best_after b ps) ps'.
Proof. apply fold_left_app. Qed.

Lemma best_after_cons b p ps :
  best_after b (p :: ps) = best_after (best_with b p) ps.
Proof. reflexivity. Qed.

Lemma best_after_ge ps : forall b, b <= best_after b ps.
Proof.
  induction ps as [|p ps IH]; intros b; [cbn; lia|].
  rewrite best_after_cons. specialize (IH (best_with b p)).
  unfold best_with in *. destruct (outcome p); lia.
Qed.

Lemma best_after_ge_in ps : forall b q len,
  In q ps -> outcome q = Some len -> len <= best_after b ps.
Proof.
  induction ps as [|p ps IH]; intros b q len Hin Ho; [contradiction|].
  rewrite best_after_cons.
  destruct Hin as [-> | Hin].
  - pose proof (best_after_ge ps (best_with b q)) as Hge.
    unfold best_with in Hge at 1. rewrite Ho in Hge. lia.
  - eapply IH; eauto.
Qed.

Lemma snoc_split (A : Type) (pre pre' post' : list A) (p p' : A) :
  pre ++ [p] = pre' ++ p' :: post' ->
  (post' = [] /\ pre = pre' /\ p = p') \/ In p' pre.
Proof.
  revert pre'. induction pre as [|a pre IH]; intros pre' H.
  - destruct pre' as [|b pre']; cbn in H.
    + inversion H. left. auto.
    + inversion H. destruct pre'; discriminate.
  - destruct pre' as [|b pre']; cbn in H.
    + inversion H. right. left. reflexivity.
    + inversion H. destruct (IH _ H2) as [(-> & -> & ->) | Hin].
      * left. auto.
      * right. right. exact Hin.
Qed.

(** ** The chain walk *)

Section WalkProperties.

Variable L : Type.
Variables cur chain best : L -> Z.
Variable len_of : deflate_state -> Z -> Z.
Variable body : deflate_state -> L -> body_end * deflate_state * L * list probe.
Variable cond : deflate_state -> L -> L * bool.
Variables TRIGGER_LEVEL nice limit : Z.

(** What the proofs need to know of a variant. *)
Hypothesis body_cases :
  forall s l,
    walk_case L cur chain best len_of TRIGGER_LEVEL nice s l (body s l).
Hypothesis cond_best : forall s l, best (fst (cond s l)) = best l.
Hypothesis cond_true :
  forall s l, snd (cond s l) = true ->
    limit < cur (fst (cond s l))
    /\ chain (fst (cond s l)) = pre_decrement (chain l)
    /\ chain (fst (cond s l)) <> 0.
Hypothesis len_bounds : forall s c, 1 <= len_of s c <= MAX_MATCH.

(** Induction over the passes of the loop. *)
Lemma walk_ind
  (P : deflate_state -> L -> deflate_state * L * list probe -> Prop) :
  (forall s l s' l' ps,
      body s l = (Break, s', l', ps) -> P s l (s', l', ps)) ->
  (forall s l s' l' ps l'',
      body s l = (ToCondition, s', l', ps) ->
      cond s' l' = (l'', false) ->
      P s l (s', l'', ps)) ->
  (forall s l s' l' ps l'' sf lf ps',
      body s l = (ToCondition, s', l', ps) ->
      cond s' l' = (l'', true) ->
      P s' l'' (sf, lf, ps') ->
      P s l (sf, lf, ps ++ ps')) ->
  forall fuel s l r, walk L body cond fuel s l = Some r -> P s l r.
Proof.
  intros Hbreak Hexit Hnext.
  induction fuel as [|fuel IH]; intros s l r Hrun; cbn [walk] in Hrun.
  - discriminate.
  - destruct (body s l) as [[[e s'] l'] ps] eqn:Hbody.
    destruct e.
    + inversion Hrun; subst. now apply Hbreak.
    + destruct (cond s' l') as [l'' go] eqn:Hcond.
      destruct go.
      * destruct (walk L body cond fuel s' l'') as [[[sf lf] ps']|] eqn:Hrec;
          [|discriminate].
        inversion Hrun; subst.
        eapply Hnext; eauto.
      * inversion Hrun; subst. eapply Hexit; eauto.
Qed.

Lemma cond_continues s l l' :
  cond s l = (l', true) ->
  limit < cur l' /\ chain l' = pre_decrement (chain l) /\ chain l' <> 0.
Proof.
  intros Hcond. pose proof (cond_true s l) as H.
  rewrite Hcond in H. exact (H eq_refl).
Qed.

Lemma cond_keeps_best s l l' go : cond s l = (l', go) -> best l' = best l.
Proof.
  intros Hcond. pose proof (cond_best s l) as H.
  rewrite Hcond in H. exact H.
Qed.

(** One pass through the body yields at most one probe, of the current
    candidate, and leaves the budget and the candidate as they were. *)
Lemma body_probe s l e s' l' ps :
  body s l = (e, s', l', ps) ->
  chain l' = chain l
  /\ cur l' = cur l
  /\ (s' = s \/ s' = set_match_start s (cur l))
  /\ ((ps = [] /\ e = Break /\ strstart s <= cur l)
      \/ (exists o, ps = [mk_probe (cur l) (best l) o]
                    /\ cur l < strstart s
                    /\ forall len, o = Some len -> len = len_of s (cur l))).
Proof.
  intros Hbody. pose proof (body_cases s l) as Hc. rewrite Hbody in Hc.
  inversion Hc; subst;
    (split; [auto|]; split; [auto|]; split; [auto|]);
    first [ left; repeat split; assumption
          | right; eexists; split; [reflexivity|]; split; [assumption|];
            intros ? [=]; subst; reflexivity
          | right; eexists; split; [reflexivity|]; split; [assumption|];
            intros ? [=] ].
Qed.

Lemma body_record s l e s' l' ps :
  body s l = (e, s', l', ps) ->
  best l' = best_after (best l) ps
  /\ Forall (fun p => best_before p = best l) ps
  /\ (best l' = best l -> s' = s)
  /\ (best l < best l' ->
      ps = [mk_probe (cur l) (best l) (Some (best l'))]
      /\ s' = set_match_start s (cur l)).
Proof.
  intros Hbody. pose proof (body_cases s l) as Hc. rewrite Hbody in Hc.
  inversion Hc; subst; unfold best_after, best_with;
    cbn [fold_left outcome];
    (split; [lia|]); (split; [repeat constructor|]);
    (split; [intros; first [reflexivity | lia]
            |intros; first [lia | split; [congruence | reflexivity]]]).
Qed.

(** With [walk_bound] passes of fuel the loop ends by itself. *)
Lemma walk_total : forall fuel s l,
  walk_bound (chain l) <= Z.of_nat fuel ->
  exists r, walk L body cond fuel s l = Some r.
Proof.
  induction fuel as [|fuel IH]; intros s l Hfuel.
  - pose proof (pre_decrement_range (chain l)).
    unfold walk_bound in Hfuel. lia.
  - cbn [walk].
    destruct (body s l) as [[[e s'] l'] ps] eqn:Hbody.
    destruct (body_probe _ _ _ _ _ _ Hbody) as (Hchain & _).
    destruct e; [eauto|].
    destruct (cond s' l') as [l'' go] eqn:Hcond.
    destruct go; [|eauto].
    destruct (cond_continues _ _ _ Hcond) as (_ & Hc & Hnz).
    destruct (IH s' l'') as [[[sf lf] ps'] Hrec].
    + rewrite Hc in *. rewrite walk_bound_step by assumption.
      rewrite Hchain. lia.
    + rewrite Hrec. eauto.
Qed.

(** *** What the loop leaves behind *)

(** Only [match_start] is assigned. *)
Lemma walk_frame fuel s l sf lf ps :
  walk L body cond fuel s l = Some (sf, lf, ps) ->
  sf = set_match_start s (match_start sf).
Proof.
  revert fuel s l sf lf ps.
  enough (H : forall fuel s l r,
             walk L body cond fuel s l = Some r ->
             fst (fst r) = set_match_start s (match_start (fst (fst r)))).
  { intros fuel s l sf lf ps Hrun. exact (H _ _ _ _ Hrun). }
  apply (walk_ind
           (fun s _ r =>
              fst (fst r) = set_match_start s (match_start (fst (fst r))))).
  - intros s l s' l' ps Hbody.
    destruct (body_probe _ _ _ _ _ _ Hbody) as (_ & _ & [-> | ->] & _);
      simpl_locals; now rewrite ?set_match_start_same.
  - intros s l s' l' ps l'' Hbody _.
    destruct (body_probe _ _ _ _ _ _ Hbody) as (_ & _ & [-> | ->] & _);
      simpl_locals; now rewrite ?set_match_start_same.
  - intros s l s' l' ps l'' sf lf ps' Hbody _ IH.
    destruct (body_probe _ _ _ _ _ _ Hbody) as (_ & _ & [-> | ->] & _);
      simpl_locals; exact IH.
Qed.

(** The probes of a walk: all before [strstart]; the first is the candidate
    the walk starts at and the others lie beyond [limit]; their number is
    within the budget; and no [len] exceeds [MAX_MATCH]. *)
Lemma walk_probes fuel s l sf lf ps :
  walk L body cond fuel s l = Some (sf, lf, ps) ->
  Forall (fun p => cand p < strstart s) ps
  /\ (forall p rest, ps = p :: rest ->
        cand p = cur l /\ Forall (fun q => limit < cand q) rest)
  /\ Z.of_nat (List.length ps) <= walk_bound (chain l)
  /\ (cur l < strstart s -> ps <> [])
  /\ Forall (fun p => forall len, outcome p = Some len ->
                                  1 <= len <= MAX_MATCH) ps.
Proof.
  revert fuel s l sf lf ps.
  pose (P := fun (s : deflate_state) (l : L)
                 (r : deflate_state * L * list probe) =>
    Forall (fun p => cand p < strstart s) (snd r)
    /\ (forall p rest, snd r = p :: rest ->
          cand p = cur l /\ Forall (fun q => limit < cand q) rest)
    /\ Z.of_nat (List.length (snd r)) <= walk_bound (chain l)
    /\ (cur l < strstart s -> snd r <> [])
    /\ Forall (fun p => forall len, outcome p = Some len ->
                                    1 <= len <= MAX_MATCH) (snd r)).
  enough (H : forall fuel s l r, walk L body cond fuel s l = Some r -> P s l r).
  { intros fuel s l sf lf ps Hrun. exact (H _ _ _ _ Hrun). }
  assert (Hone : forall s l e s' l' ps,
             body s l = (e, s', l', ps) ->
             Forall (fun p => cand p < strstart s) ps
             /\ (forall p rest, ps = p :: rest -> cand p = cur l /\ rest = [])
             /\ Z.of_nat (List.length ps) <= 1
             /\ (cur l < strstart s -> ps <> [])
             /\ Forall (fun p => forall len, outcome p = Some len ->
                                             1 <= len <= MAX_MATCH) ps).
  { intros s l e s' l' ps Hbody.
    destruct (body_probe _ _ _ _ _ _ Hbody)
      as (_ & _ & _ & [(-> & _ & Hfut) | (o & -> & Hlt & Hlen)]).
    - split; [constructor|]. split; [intros p rest [=]|].
      split; [cbn; lia|]. split; [lia | constructor].
    - split; [repeat constructor; exact Hlt|].
      split; [intros p rest [= <- <-]; split; reflexivity|].
      split; [cbn; lia|]. split; [discriminate|].
      constructor; [|constructor]. cbn. intros len Ho.
      rewrite (Hlen _ Ho). apply len_bounds. }
  assert (Hlast : forall s l e s' l' ps l'',
             body s l = (e, s', l', ps) -> P s l (s', l'', ps)).
  { intros s l e s' l' ps l'' Hbody. unfold P. simpl_locals.
    destruct (Hone _ _ _ _ _ _ Hbody) as (H1 & H2 & H3 & H4 & H5).
    pose proof (pre_decrement_range (chain l)) as Hr.
    split; [exact H1|]. split.
    { intros p rest Hps. destruct (H2 _ _ Hps) as [Hc ->].
      split; [exact Hc | constructor]. }
    split; [unfold walk_bound; lia|]. split; assumption. }
  apply (walk_ind P).
  - intros s l s' l' ps Hbody. eapply Hlast; eauto.
  - intros s l s' l' ps l'' Hbody _. eapply Hlast; eauto.
  - intros s l s' l' ps l'' sf lf ps' Hbody Hcond IH.
    unfold P in *. simpl_locals.
    destruct (Hone _ _ _ _ _ _ Hbody) as (H1 & H2 & H3 & H4 & H5).
    destruct IH as (I1 & I2 & I3 & I4 & I5).
    destruct (cond_continues _ _ _ Hcond) as (Hlim & Hchain & Hnz).
    destruct (body_probe _ _ _ _ _ _ Hbody)
      as (Hc' & _ & Hs' & [(_ & [=] & _) | (o & -> & Hlt & _)]).
    assert (Hss : strstart s' = strstart s)
      by (destruct Hs' as [-> | ->]; reflexivity).
    rewrite Hss in *.
    split; [apply Forall_app; split; assumption|]. split.
    { intros p rest Hps. cbn in Hps. inversion Hps; subst p rest.
      split; [reflexivity|].
      destruct ps' as [|q rest']; [constructor|].
      destruct (I2 _ _ eq_refl) as [Hq Hrest].
      constructor; [lia | assumption]. }
    split.
    { rewrite length_app, Nat2Z.inj_add.
      rewrite Hchain, walk_bound_step in I3 by (rewrite <- Hchain; assumption).
      rewrite Hc' in I3. cbn [List.length] in *. lia. }
    split; [intros _; discriminate|].
    apply Forall_app; split; assumption.
Qed.

(** *** Which candidate is recorded *)

Lemma walk_record fuel s l sf lf ps :
  walk L body cond fuel s l = Some (sf, lf, ps) ->
  best lf = best_after (best l) ps
  /\ (forall pre p post, ps = pre ++ p :: post ->
        best_before p = best_after (best l) pre)
  /\ (best lf = best l -> sf = s)
  /\ (best l < best lf ->
      exists pre p post,
        ps = pre ++ p :: post
        /\ outcome p = Some (best lf)
        /\ improved p = true
        /\ match_start sf = cand p
        /\ forall q len, In q pre -> outcome q = Some len -> len < best lf).
Proof.
  revert fuel s l sf lf ps.
  pose (P := fun (s : deflate_state) (l : L)
                 (r : deflate_state * L * list probe) =>
    best (snd (fst r)) = best_after (best l) (snd r)
    /\ (forall pre p post, snd r = pre ++ p :: post ->
          best_before p = best_after (best l) pre)
    /\ (best (snd (fst r)) = best l -> fst (fst r) = s)
    /\ (best l < best (snd (fst r)) ->
        exists pre p post,
          snd r = pre ++ p :: post
          /\ outcome p = Some (best (snd (fst r)))
          /\ improved p = true
          /\ match_start (fst (fst r)) = cand p
          /\ forall q len, In q pre -> outcome q = Some len ->
                           len < best (snd (fst r)))).
  enough (H : forall fuel s l r, walk L body cond fuel s l = Some r -> P s l r).
  { intros fuel s l sf lf ps Hrun. exact (H _ _ _ _ Hrun). }
  (* a walk that ends after this pass *)
  assert (Hlast : forall s l e s' l' ps l'',
             body s l = (e, s', l', ps) ->
             best l'' = best l' ->
             P s l (s', l'', ps)).
  { intros s l e s' l' ps l'' Hbody Hbest. unfold P. simpl_locals.
    destruct (body_record _ _ _ _ _ _ Hbody) as (R1 & R2 & R3 & R4).
    rewrite Hbest.
    split; [exact R1|]. split.
    { intros pre p post Hps.
      destruct (body_probe _ _ _ _ _ _ Hbody)
        as (_ & _ & _ & [(-> & _) | (o & -> & _)]).
      - destruct pre; discriminate.
      - destruct pre as [|p' pre].
        + cbn in Hps. inversion Hps; subst. reflexivity.
        + cbn in Hps. inversion Hps. destruct pre; discriminate. }
    split; [exact R3|].
    intros Hlt. destruct (R4 Hlt) as [-> ->].
    exists [], (mk_probe (cur l) (best l) (Some (best l'))), [].
    cbn. repeat split; try reflexivity.
    - unfold improved. cbn. apply Z.ltb_lt. exact Hlt.
    - intros q len []. }
  apply (walk_ind P).
  - intros s l s' l' ps Hbody. eapply Hlast; eauto.
  - intros s l s' l' ps l'' Hbody Hcond.
    eapply Hlast; eauto. eapply cond_keeps_best; eauto.
  - intros s l s' l' ps l'' sf lf ps' Hbody Hcond IH.
    unfold P in *. simpl_locals.
    pose proof (cond_keeps_best _ _ _ _ Hcond) as Hb.
    destruct (body_record _ _ _ _ _ _ Hbody) as (R1 & R2 & R3 & R4).
    destruct IH as (I1 & I2 & I3 & I4).
    rewrite Hb in *.
    pose proof (best_after_ge ps (best l)) as Hge1.
    pose proof (best_after_ge ps' (best l')) as Hge2.
    split; [rewrite best_after_app, <- R1; exact I1|]. split.
    { intros pre p post Hps.
      destruct (body_probe _ _ _ _ _ _ Hbody)
        as (_ & _ & _ & [(_ & [=] & _) | (o & -> & _)]).
      destruct pre as [|p' pre].
      - cbn in Hps. inversion Hps; subst p.
        inversion R2; subst. assumption.
      - cbn in Hps. inversion Hps; subst p'.
        rewrite (I2 _ _ _ H1).
        change (mk_probe (cur l) (best l) o :: pre)
          with ([mk_probe (cur l) (best l) o] ++ pre).
        rewrite best_after_app, <- R1. reflexivity. }
    split.
    { intros Heq. rewrite I3 by lia. apply R3. lia. }
    intros Hlt.
    destruct (Z.eq_dec (best lf) (best l')) as [Heq | Hne].
    + (* the walk recorded the candidate of this pass *)
      rewrite (I3 Heq). rewrite Heq in *.
      destruct (R4 Hlt) as [-> ->].
      exists [], (mk_probe (cur l) (best l) (Some (best l'))), ps'.
      cbn. repeat split; try reflexivity.
      * unfold improved. cbn. apply Z.ltb_lt. exact Hlt.
      * intros q len [].
    + (* the walk recorded a later candidate *)
      destruct I4 as (pre & p & post & Hps' & Ho & Hi & Hm & Hpre); [lia|].
      exists (ps ++ pre), p, post.
      split; [rewrite Hps', app_assoc; reflexivity|].
      repeat split; try assumption.
      intros q len Hin Hq. apply in_app_or in Hin. destruct Hin as [Hin | Hin].
      * pose proof (best_after_ge_in ps (best l) q len Hin Hq). lia.
      * eapply Hpre; eauto.
Qed.

(** *** When the walk stops *)

(** A probe that is not the last one of a walk neither reached [nice_match]
    with a longer match nor failed to improve below [TRIGGER_LEVEL]. *)
Lemma walk_stops fuel s l sf lf ps :
  walk L body cond fuel s l = Some (sf, lf, ps) ->
  forall pre p post len,
    ps = pre ++ p :: post ->
    outcome p = Some len ->
    (best_before p < len /\ nice <= len)
    \/ (len <= best_before p /\ level s < TRIGGER_LEVEL) ->
    post = [].
Proof.
  revert fuel s l sf lf ps.
  pose (P := fun (s : deflate_state) (l : L)
                 (r : deflate_state * L * list probe) =>
    forall pre p post len,
      snd r = pre ++ p :: post ->
      outcome p = Some len ->
      (best_before p < len /\ nice <= len)
      \/ (len <= best_before p /\ level s < TRIGGER_LEVEL) ->
      post = []).
  enough (H : forall fuel s l r, walk L body cond fuel s l = Some r -> P s l r).
  { intros fuel s l sf lf ps Hrun. exact (H _ _ _ _ Hrun). }
  assert (Hlast : forall s l e s' l' ps l'',
             body s l = (e, s', l', ps) -> P s l (s', l'', ps)).
  { intros s l e s' l' ps l'' Hbody. unfold P. simpl_locals.
    intros pre p post len Hps _ _.
    destruct (body_probe _ _ _ _ _ _ Hbody)
      as (_ & _ & _ & [(-> & _) | (o & -> & _)]).
    - destruct pre; discriminate.
    - destruct pre as [|p' pre].
      + cbn in Hps. inversion Hps. reflexivity.
      + cbn in Hps. inversion Hps. destruct pre; discriminate. }
  apply (walk_ind P).
  - intros s l s' l' ps Hbody. eapply Hlast; eauto.
  - intros s l s' l' ps l'' Hbody _. eapply Hlast; eauto.
  - intros s l s' l' ps l'' sf lf ps' Hbody _ IH.
    unfold P in *. simpl_locals.
    intros pre p post len Hps Ho Hstop.
    pose proof (body_cases s l) as Hc. rewrite Hbody in Hc.
    inversion Hc; subst; simpl_locals.
    all: destruct pre as [|p' pre];
      [ cbn in Hps; inversion Hps; subst p; simpl_locals;
        try discriminate; inversion Ho; subst; lia
      | cbn in Hps; inversion Hps; subst p';
        eapply IH; eauto ].
Qed.

(** *** The outcome of a walk *)

Lemma walk_summarised MAX_DIST fuel s l sf lf ps :
  limit = chain_limit MAX_DIST s ->
  nice = effective_nice_match s ->
  chain l = initial_chain_length s ->
  best l = initial_best_len s ->
  walk L body cond fuel s l = Some (sf, lf, ps) ->
  walk_summary MAX_DIST TRIGGER_LEVEL s (cur l)
    (mk_outcome (clamp_to_lookahead sf (best lf)) sf (best lf) ps).
Proof.
  intros Hlimit Hnice Hchain Hbest Hrun.
  pose proof (walk_frame _ _ _ _ _ _ Hrun) as Hframe.
  destruct (walk_probes _ _ _ _ _ _ Hrun) as (P1 & P2 & P3 & P4 & P5).
  destruct (walk_record _ _ _ _ _ _ Hrun) as (R1 & R2 & R3 & R4).
  pose proof (walk_stops _ _ _ _ _ _ Hrun) as Hstops.
  rewrite Hlimit in P2. rewrite Hnice in Hstops.
  rewrite Hchain in P3. rewrite Hbest in R1, R2, R3, R4.
  constructor; simpl_locals; try assumption.
  unfold clamp_to_lookahead. rewrite Hframe. reflexivity.
Qed.

End WalkProperties.

(** ** The calls of std1 and of std2 *)

Section Calls.

Variable MAX_DIST : deflate_state -> Z.
Variable TRIGGER_LEVEL : Z.

(** *** std1 is an instance of the walk *)

Lemma std1_body_cases s nice l :
  walk_case std1_locals l1_cur_match l1_chain_length l1_best_len std1_len
    TRIGGER_LEVEL nice s l (std1_body TRIGGER_LEVEL s nice l).
Proof.
  unfold std1_body.
  destruct (l1_cur_match l >=? strstart s) eqn:Hfut.
  { apply case_future. lia. }
  destruct (std1_reject s l) eqn:Hrej.
  { apply case_rejected. lia. }
  cbv zeta.
  destruct (std1_len s (l1_cur_match l) >? l1_best_len l) eqn:Hgt.
  - destruct (std1_len s (l1_cur_match l) >=? nice) eqn:Hnice.
    + apply case_nice; first [reflexivity | lia].
    + apply case_better; first [reflexivity | lia].
  - destruct (level s <? TRIGGER_LEVEL) eqn:Hlvl.
    + apply case_trigger; lia.
    + apply case_no_gain; lia.
Qed.

(** The loop condition of line 155. *)
Lemma std1_condition_true s limit l :
  snd (std1_condition s limit l) = true ->
  limit < l1_cur_match (fst (std1_condition s limit l))
  /\ l1_chain_length (fst (std1_condition s limit l))
     = pre_decrement (l1_chain_length l)
  /\ l1_chain_length (fst (std1_condition s limit l)) <> 0.
Proof.
  unfold std1_condition.
  destruct (prev_at s (Z.land (l1_cur_match l) (w_mask s)) >? limit) eqn:Hlim;
    simpl_locals; intros Hc; [|discriminate].
  apply negb_true_iff, Z.eqb_neq in Hc. repeat split; (reflexivity || lia).
Qed.

Lemma std1_condition_best_len s limit l :
  l1_best_len (fst (std1_condition s limit l)) = l1_best_len l.
Proof.
  unfold std1_condition.
  destruct (prev_at s (Z.land (l1_cur_match l) (w_mask s)) >? limit); reflexivity.
Qed.

Lemma std1_len_range s c : 1 <= std1_len s c <= MAX_MATCH.
Proof. pose proof (std1_len_bounds s c). lia. Qed.

Lemma std1_loop_walk limit nice : forall fuel s l,
  std1_loop TRIGGER_LEVEL fuel s limit nice l
  = walk std1_locals (fun s l => std1_body TRIGGER_LEVEL s nice l)
      (fun s l => std1_condition s limit l) fuel s l.
Proof.
  induction fuel as [|fuel IH]; intros s l; [reflexivity|].
  cbn [std1_loop walk].
  destruct (std1_body TRIGGER_LEVEL s nice l) as [[[e s'] l'] ps].
  destruct e; [reflexivity|].
  destruct (std1_condition s' limit l') as [l'' go].
  destruct go; [|reflexivity].
  rewrite IH. reflexivity.
Qed.

(** The call of std1 returns, and its outcome is that of a walk. *)
Lemma std1_summary s cur_match :
  exists r,
    std1_longest_match MAX_DIST TRIGGER_LEVEL s cur_match = Some r
    /\ walk_summary MAX_DIST TRIGGER_LEVEL s cur_match r.
Proof.
  pose (nice := effective_nice_match s). pose (limit := chain_limit MAX_DIST s).
  pose proof (fun s0 l0 => std1_body_cases s0 nice l0) as Hbody.
  pose proof (fun s0 l0 => std1_condition_best_len s0 limit l0) as Hbest.
  pose proof (fun s0 l0 => std1_condition_true s0 limit l0) as Htrue.
  unfold std1_longest_match. rewrite std1_loop_walk.
  destruct (walk_total _ _ _ _ _ _ _ _ _ _ Hbody Htrue
              (Z.to_nat (walk_bound (initial_chain_length s))) s
              (std1_initial_locals s cur_match)) as [[[sf lf] ps] Hrun].
  { cbn [std1_initial_locals l1_chain_length].
    pose proof (pre_decrement_range (initial_chain_length s)).
    unfold walk_bound. lia. }
  fold nice limit. rewrite Hrun. eexists. split; [reflexivity|].
  exact (walk_summarised _ _ _ _ _ _ _ _ _ _ Hbody Hbest Htrue std1_len_range
           MAX_DIST _ s (std1_initial_locals s cur_match) sf lf ps
           eq_refl eq_refl eq_refl eq_refl Hrun).
Qed.

(** *** std2 is an instance of the walk *)

Lemma std2_body_cases s nice scan_start l :
  walk_case std2_locals l2_cur_match l2_chain_length l2_best_len std2_len
    TRIGGER_LEVEL nice s l (std2_body TRIGGER_LEVEL s nice scan_start l).
Proof.
  unfold std2_body.
  destruct (l2_cur_match l >=? strstart s) eqn:Hfut.
  { apply case_future. lia. }
  destruct (std2_reject s scan_start l) eqn:Hrej.
  { apply case_rejected. lia. }
  cbv zeta.
  destruct (std2_len s (l2_cur_match l) >? l2_best_len l) eqn:Hgt.
  - destruct (std2_len s (l2_cur_match l) >=? nice) eqn:Hnice.
    + apply case_nice; first [reflexivity | lia].
    + apply case_better; first [reflexivity | lia].
  - destruct (level s <? TRIGGER_LEVEL) eqn:Hlvl.
    + apply case_trigger; lia.
    + apply case_no_gain; lia.
Qed.

(** The loop condition of line 307. *)
Lemma std2_condition_true s limit l :
  snd (std2_condition s limit l) = true ->
  limit < l2_cur_match (fst (std2_condition s limit l))
  /\ l2_chain_length (fst (std2_condition s limit l))
     = pre_decrement (l2_chain_length l)
  /\ l2_chain_length (fst (std2_condition s limit l)) <> 0.
Proof.
  unfold std2_condition.
  destruct (pre_decrement (l2_chain_length l) =? 0) eqn:Hc;
    simpl_locals; intros Hgo; [discriminate|].
  apply Z.eqb_neq in Hc. repeat split; (reflexivity || lia).
Qed.

Lemma std2_condition_best_len s limit l :
  l2_best_len (fst (std2_condition s limit l)) = l2_best_len l.
Proof.
  unfold std2_condition.
  destruct (pre_decrement (l2_chain_length l) =? 0); reflexivity.
Qed.

Lemma std2_len_range s c : 1 <= std2_len s c <= MAX_MATCH.
Proof.
  rewrite std2_len_spec.
  pose proof (equal_run_bounds s 257 (strstart s + 1) (c + 1)).
  unfold MAX_MATCH. lia.
Qed.

Lemma std2_loop_walk limit nice scan_start : forall fuel s l,
  std2_loop TRIGGER_LEVEL fuel s limit nice scan_start l
  = walk std2_locals (fun s l => std2_body TRIGGER_LEVEL s nice scan_start l)
      (fun s l => std2_condition s limit l) fuel s l.
Proof.
  induction fuel as [|fuel IH]; intros s l; [reflexivity|].
  cbn [std2_loop walk].
  destruct (std2_body TRIGGER_LEVEL s nice scan_start l) as [[[e s'] l'] ps].
  destruct e; [reflexivity|].
  destruct (std2_condition s' limit l') as [l'' go].
  destruct go; [|reflexivity].
  rewrite IH. reflexivity.
Qed.

(** The call of std2 returns, and its outcome is that of a walk. *)
Lemma std2_summary s cur_match :
  exists r,
    std2_longest_match MAX_DIST TRIGGER_LEVEL s cur_match = Some r
    /\ walk_summary MAX_DIST TRIGGER_LEVEL s cur_match r.
Proof.
  pose (nice := effective_nice_match s). pose (limit := chain_limit MAX_DIST s).
  pose (scan_start := load16 s (strstart s)).
  pose proof (fun s0 l0 => std2_body_cases s0 nice scan_start l0) as Hbody.
  pose proof (fun s0 l0 => std2_condition_best_len s0 limit l0) as Hbest.
  pose proof (fun s0 l0 => std2_condition_true s0 limit l0) as Htrue.
  unfold std2_longest_match. rewrite std2_loop_walk.
  destruct (walk_total _ _ _ _ _ _ _ _ _ _ Hbody Htrue
              (Z.to_nat (walk_bound (initial_chain_length s))) s
              (std2_initial_locals s cur_match)) as [[[sf lf] ps] Hrun].
  { cbn [std2_initial_locals l2_chain_length].
    pose proof (pre_decrement_range (initial_chain_length s)).
    unfold walk_bound. lia. }
  fold nice limit scan_start. rewrite Hrun. eexists. split; [reflexivity|].
  exact (walk_summarised _ _ _ _ _ _ _ _ _ _ Hbody Hbest Htrue std2_len_range
           MAX_DIST _ s (std2_initial_locals s cur_match) sf lf ps
           eq_refl eq_refl eq_refl eq_refl Hrun).
Qed.

(** *** Properties of both calls *)

(** What follows from the summary of a walk holds of the calls of std1 and
    of std2. *)
Lemma in_std1_and_std2 s cur_match (Q : outcome_of_call -> Prop) :
  (forall r, walk_summary MAX_DIST TRIGGER_LEVEL s cur_match r -> Q r) ->
  std1_and_std2 MAX_DIST TRIGGER_LEVEL s cur_match Q.
Proof.
  intros HQ. split.
  - destruct (std1_summary s cur_match) as (r & Hr & W). eauto.
  - destruct (std2_summary s cur_match) as (r & Hr & W). eauto.
Qed.

Lemma best_after_le m ps : forall b,
  Forall (fun p => forall len, outcome p = Some len -> len <= m) ps ->
  best_after b ps <= Z.max b m.
Proof.
  induction ps as [|p ps IH]; intros b Hall; [cbn; lia|].
  rewrite best_after_cons. inversion Hall as [|? ? Hp Hps]; subst.
  specialize (IH (best_with b p) Hps). unfold best_with in *.
  destruct (outcome p) as [len|] eqn:Ho; [|exact IH].
  specialize (Hp len eq_refl). lia.
Qed.

(** [best_len] after the walk lies between its initial value and the
    greater of that value and [MAX_MATCH]. *)
Lemma summary_best_len s cur_match r :
  walk_summary MAX_DIST TRIGGER_LEVEL s cur_match r ->
  initial_best_len s <= final_best_len r
  /\ final_best_len r <= Z.max (initial_best_len s) MAX_MATCH.
Proof.
  intros W. rewrite (ws_best _ _ _ _ _ W). split.
  - apply best_after_ge.
  - apply best_after_le. eapply Forall_impl; [|exact (ws_len _ _ _ _ _ W)].
    cbv beta. intros p Hp len Ho. apply (Hp len Ho).
Qed.

(** C2.  In std1 and in std2, for a call whose [prev_length] is at most
    [MAX_MATCH], as it is when it is [MIN_MATCH - 1] or the value returned
    by an earlier call, the value returned exceeds neither [s->lookahead]
    nor [MAX_MATCH], however far the comparator ran. *)
Theorem returned_bounds s cur_match :
  prev_length s <= MAX_MATCH ->
  std1_and_std2 MAX_DIST TRIGGER_LEVEL s cur_match (fun r =>
    returned r <= lookahead s /\ returned r <= MAX_MATCH).
Proof.
  intros Hprev. apply in_std1_and_std2. intros r W.
  destruct (summary_best_len _ _ _ W) as [Hlo Hhi].
  rewrite (ws_returned _ _ _ _ _ W). unfold clamp_to_lookahead.
  unfold initial_best_len, MAX_MATCH in *.
  destruct (prev_length s =? 0);
    destruct (final_best_len r <=? lookahead s) eqn:E; lia.
Qed.

(** C3 (as amended).  In std1 and in std2, [best_len] never falls below
    [prev_length]; the value returned is [best_len] clamped to [lookahead],
    so it is at least the smaller of [prev_length] and [lookahead]. *)
Theorem returned_at_least s cur_match :
  std1_and_std2 MAX_DIST TRIGGER_LEVEL s cur_match (fun r =>
    prev_length s <= final_best_len r
    /\ returned r = Z.min (final_best_len r) (lookahead s)
    /\ Z.min (prev_length s) (lookahead s) <= returned r
    /\ (prev_length s <= lookahead s -> prev_length s <= returned r)).
Proof.
  apply in_std1_and_std2. intros r W.
  destruct (summary_best_len _ _ _ W) as [Hlo Hhi].
  pose proof (initial_best_len_ge s).
  rewrite (ws_returned _ _ _ _ _ W). unfold clamp_to_lookahead.
  destruct (final_best_len r <=? lookahead s) eqn:E; repeat split; lia.
Qed.

(** C5 (as amended).  The threshold is the smaller of [(unsigned)nice_match]
    and [lookahead]; in std1 and in std2, a candidate whose [len] exceeds
    [best_len] and reaches the threshold ends the walk: it is the last
    probe, and it is the match recorded. *)
Theorem nice_match_stop s cur_match :
  effective_nice_match s = Z.min (to_unsigned (nice_match s)) (lookahead s)
  /\ (0 <= nice_match s < UINT_RANGE ->
      effective_nice_match s = Z.min (nice_match s) (lookahead s))
  /\ std1_and_std2 MAX_DIST TRIGGER_LEVEL s cur_match (fun r =>
       forall pre p post len,
         examined r = pre ++ p :: post ->
         outcome p = Some len ->
         best_before p < len ->
         effective_nice_match s <= len ->
         post = []
         /\ match_start (final_state r) = cand p
         /\ final_best_len r = len).
Proof.
  assert (Hnice : effective_nice_match s
                  = Z.min (to_unsigned (nice_match s)) (lookahead s)).
  { unfold effective_nice_match.
    destruct (to_unsigned (nice_match s) >? lookahead s) eqn:E; lia. }
  split; [exact Hnice|]. split.
  { intros Hr. rewrite Hnice. unfold to_unsigned.
    rewrite Z.mod_small by exact Hr. reflexivity. }
  apply in_std1_and_std2. intros r W pre p post len Hps Ho Hlt Hge.
  assert (Hpost : post = []).
  { eapply (ws_stops _ _ _ _ _ W); eauto. }
  subst post. split; [reflexivity|].
  pose proof (ws_best _ _ _ _ _ W) as R1.
  pose proof (ws_best_before _ _ _ _ _ W _ _ _ Hps) as Hb.
  pose proof (best_after_ge pre (initial_best_len s)) as Hge0.
  assert (Hfinal : final_best_len r = len).
  { rewrite R1, Hps, best_after_app, <- Hb. cbn. unfold best_with.
    rewrite Ho. lia. }
  split; [|exact Hfinal].
  destruct (ws_recorded _ _ _ _ _ W)
    as (pre' & p' & post' & Hps' & Ho' & _ & Hm & _); [lia|].
  rewrite Hps in Hps'.
  destruct (snoc_split _ _ _ _ _ _ Hps') as [(_ & _ & <-) | Hin];
    [exact Hm|].
  pose proof (best_after_ge_in pre (initial_best_len s) p' _ Hin Ho'). lia.
Qed.

(** C6 (as amended).  In std1 and in std2, the candidate the call starts at
    is probed whenever it lies before [strstart], without a test against
    [limit]; every candidate reached through a link of the chain is probed
    only if it lies beyond [limit], so its distance is less than
    [MAX_DIST]. *)
Theorem distance_limit s cur_match :
  std1_and_std2 MAX_DIST TRIGGER_LEVEL s cur_match (fun r =>
    (cur_match < strstart s ->
     exists p rest, examined r = p :: rest /\ cand p = cur_match)
    /\ (forall p rest, examined r = p :: rest ->
          cand p = cur_match
          /\ Forall (fun q => chain_limit MAX_DIST s < cand q
                              /\ strstart s - cand q < MAX_DIST s) rest)
    /\ (strstart s - cur_match <= MAX_DIST s ->
        Forall (fun q => strstart s - cand q <= MAX_DIST s) (examined r))).
Proof.
  apply in_std1_and_std2. intros r W.
  pose proof (ws_before _ _ _ _ _ W) as P1.
  pose proof (ws_chain _ _ _ _ _ W) as P2.
  pose proof (ws_head _ _ _ _ _ W) as P4.
  assert (Hrest : forall p rest, examined r = p :: rest ->
            cand p = cur_match
            /\ Forall (fun q => chain_limit MAX_DIST s < cand q
                                /\ strstart s - cand q < MAX_DIST s) rest).
  { intros p rest Hps. destruct (P2 _ _ Hps) as [Hc Hr].
    split; [exact Hc|]. rewrite Hps in P1.
    inversion P1 as [|? ? _ P1']; subst.
    rewrite Forall_forall in *. intros q Hq.
    pose proof (Hr _ Hq) as Hq1. pose proof (P1' _ Hq) as Hq2.
    cbv beta in Hq1, Hq2. unfold chain_limit in *.
    destruct (strstart s >? MAX_DIST s) eqn:E; lia. }
  split; [|split; [exact Hrest|]].
  - intros Hlt. destruct (examined r) as [|p rest]; [exfalso; now apply P4|].
    exists p, rest. split; [reflexivity|]. apply (P2 _ _ eq_refl).
  - intros Hd. destruct (examined r) as [|p rest]; [constructor|].
    destruct (Hrest _ _ eq_refl) as [Hc Hr].
    constructor; [lia|].
    eapply Forall_impl; [|exact Hr]. cbv beta. intros q Hq. lia.
Qed.

(** The cut-off that C7 describes, in the variants that have it (lines
    146-154 and 298-306).  In std1 and in std2, when [s->level] is below
    [TRIGGER_LEVEL], a candidate that was extended and whose [len] does not
    exceed [best_len] is the last one probed. *)
Theorem low_level_walk_stops s cur_match :
  level s < TRIGGER_LEVEL ->
  std1_and_std2 MAX_DIST TRIGGER_LEVEL s cur_match (fun r =>
    forall pre p post len,
      examined r = pre ++ p :: post ->
      outcome p = Some len ->
      len <= best_before p ->
      post = []).
Proof.
  intros Hlvl. apply in_std1_and_std2.
  intros r W pre p post len Hps Ho Hle.
  eapply (ws_stops _ _ _ _ _ W); eauto.
Qed.

(** C8.  In std1 and in std2, the state after the call is the state before
    it with, at most, another [match_start]; [match_start] is assigned only
    for a [len] greater than the initial [best_len]; and without such a
    candidate the state is unchanged and the initial [best_len], clamped to
    [lookahead], is returned. *)
Theorem only_match_start_written s cur_match :
  std1_and_std2 MAX_DIST TRIGGER_LEVEL s cur_match (fun r =>
    final_state r = set_match_start s (match_start (final_state r))
    /\ window (final_state r) = window s
    /\ prev (final_state r) = prev s
    /\ (forall p, In p (examined r) -> improved p = true ->
          exists len, outcome p = Some len /\ initial_best_len s < len)
    /\ ((forall p, In p (examined r) -> improved p = false) ->
        final_state r = s
        /\ returned r = clamp_to_lookahead s (initial_best_len s))).
Proof.
  apply in_std1_and_std2. intros r W.
  pose proof (ws_frame _ _ _ _ _ W) as Hframe.
  pose proof (ws_best _ _ _ _ _ W) as R1.
  split; [exact Hframe|].
  split; [rewrite Hframe; reflexivity|].
  split; [rewrite Hframe; reflexivity|].
  split.
  - intros p Hin Himp. apply in_split in Hin. destruct Hin as (pre & post & Hps).
    pose proof (ws_best_before _ _ _ _ _ W _ _ _ Hps) as Hb.
    pose proof (best_after_ge pre (initial_best_len s)).
    unfold improved in Himp. destruct (outcome p) as [len|]; [|discriminate].
    apply Z.ltb_lt in Himp. exists len. split; [reflexivity | lia].
  - intros Hnone.
    pose proof (best_after_ge (examined r) (initial_best_len s)) as Hge.
    destruct (Z.eq_dec (final_best_len r) (initial_best_len s)) as [Heq | Hne].
    + rewrite (ws_returned _ _ _ _ _ W), (ws_unchanged _ _ _ _ _ W Heq), Heq.
      split; reflexivity.
    + destruct (ws_recorded _ _ _ _ _ W)
        as (pre & p & post & Hps & _ & Himp & _); [lia|].
      rewrite (Hnone p) in Himp; [discriminate|].
      rewrite Hps. apply in_or_app. right. left. reflexivity.
Qed.

(** C9 (as amended).  The calls of std1 and of std2 return.  The walk
    probes at most [1 + (chain_length - 1) mod 2^32] candidates, where
    [chain_length] is the budget of lines 68-70: that is the budget itself
    when it is at least 1, and then at most [max_chain_length].  No
    candidate is extended beyond [MAX_MATCH] bytes. *)
Theorem walk_bounded s cur_match :
  std1_and_std2 MAX_DIST TRIGGER_LEVEL s cur_match (fun r =>
    Z.of_nat (List.length (examined r))
    <= walk_bound (initial_chain_length s)
    /\ (1 <= initial_chain_length s < UINT_RANGE ->
        Z.of_nat (List.length (examined r)) <= initial_chain_length s
        /\ initial_chain_length s <= max_chain_length s)
    /\ Forall (fun p => forall len, outcome p = Some len ->
                                    1 <= len <= MAX_MATCH) (examined r)).
Proof.
  apply in_std1_and_std2. intros r W.
  pose proof (ws_count _ _ _ _ _ W) as P3.
  split; [exact P3|]. split.
  - intros Hc. split.
    + unfold walk_bound, pre_decrement in P3.
      rewrite Z.mod_small in P3 by lia. lia.
    + unfold initial_chain_length in *.
      destruct (initial_best_len s >=? good_match s); [|lia].
      destruct (Z_lt_le_dec (max_chain_length s) 0) as [Hneg | Hpos].
      * pose proof (Z.shiftr_neg (max_chain_length s) 2). lia.
      * now apply shiftr2_le.
  - exact (ws_len _ _ _ _ _ W).
Qed.

(** C10.  In std1 and in std2, [match_start] is only ever assigned the
    candidate of a probe with [len > best_len]; every probed candidate lies
    before [strstart]; and when the candidate the call starts at is within
    [MAX_DIST] of [strstart], every probed candidate is at or beyond [limit]
    and within [MAX_DIST]. *)
Theorem written_position_range s cur_match :
  std1_and_std2 MAX_DIST TRIGGER_LEVEL s cur_match (fun r =>
    (final_state r = s
     \/ exists p, In p (examined r) /\ improved p = true
                  /\ match_start (final_state r) = cand p)
    /\ Forall (fun p => cand p < strstart s) (examined r)
    /\ (0 <= cur_match -> strstart s - cur_match <= MAX_DIST s ->
        Forall (fun p => chain_limit MAX_DIST s <= cand p
                         /\ 1 <= strstart s - cand p <= MAX_DIST s)
          (examined r))).
Proof.
  apply in_std1_and_std2. intros r W.
  pose proof (ws_before _ _ _ _ _ W) as P1.
  pose proof (ws_chain _ _ _ _ _ W) as P2.
  split; [|split; [exact P1|]].
  - pose proof (ws_best _ _ _ _ _ W) as R1.
    pose proof (best_after_ge (examined r) (initial_best_len s)) as Hge.
    destruct (Z.eq_dec (final_best_len r) (initial_best_len s)) as [Heq | Hne].
    + left. exact (ws_unchanged _ _ _ _ _ W Heq).
    + right. destruct (ws_recorded _ _ _ _ _ W)
        as (pre & p & post & Hps & _ & Himp & Hm & _); [lia|].
      exists p. split; [|split; assumption].
      rewrite Hps. apply in_or_app. right. left. reflexivity.
  - intros Hpos Hdist. destruct (examined r) as [|p rest]; [constructor|].
    destruct (P2 _ _ eq_refl) as [Hc Hr].
    inversion P1 as [|? ? Hp P1']; subst.
    constructor.
    + unfold chain_limit. destruct (strstart s >? MAX_DIST s) eqn:E; lia.
    + rewrite Forall_forall in *. intros q Hq.
      pose proof (Hr _ Hq) as Hq1. pose proof (P1' _ Hq) as Hq2.
      cbv beta in Hq1, Hq2. unfold chain_limit in *.
      destruct (strstart s >? MAX_DIST s) eqn:E; lia.
Qed.

End Calls.

(** ** std1 against std2 *)

Section Agreement.

Variable MAX_DIST : deflate_state -> Z.
Variable TRIGGER_LEVEL : Z.

Lemma pair_value_eqb (a b c d : byte) :
  (byte_value a + 256 * byte_value b =? byte_value c + 256 * byte_value d)
  = Byte.eqb a c && Byte.eqb b d.
Proof.
  pose proof (byte_value_range a). pose proof (byte_value_range b).
  pose proof (byte_value_range c). pose proof (byte_value_range d).
  destruct (Byte.eqb a c) eqn:E0; destruct (Byte.eqb b d) eqn:E1; cbn [andb].
  - apply byte_eqb_eq in E0, E1. subst. apply Z.eqb_refl.
  - apply Byte.eqb_false in E1. apply Z.eqb_neq. intros H'.
    apply E1, byte_value_inj. lia.
  - apply Byte.eqb_false in E0. apply Z.eqb_neq. intros H'.
    apply E0, byte_value_inj. lia.
  - apply Byte.eqb_false in E0. apply Z.eqb_neq. intros H'.
    apply E0, byte_value_inj. lia.
Qed.

Lemma same_locals_reject s l1 l2 :
  same_locals l1 l2 ->
  std2_reject s (load16 s (strstart s)) l2 = std1_reject s l1.
Proof.
  intros (Hc & _ & Hb & He). unfold std2_reject, std1_reject.
  rewrite Hc, Hb, He. unfold load16. rewrite !pair_value_eqb.
  replace (l1_cur_match l1 + l1_best_len l1 - 1 + 1)
    with (l1_cur_match l1 + l1_best_len l1) by lia.
  replace (l1_cur_match l1 + l1_best_len l1 - 1)
    with (l1_cur_match l1 + (l1_best_len l1 - 1)) by lia.
  destruct (Byte.eqb (byte_at s (l1_cur_match l1 + (l1_best_len l1 - 1)))
              (l1_scan_end1 l1));
    destruct (Byte.eqb (byte_at s (l1_cur_match l1 + l1_best_len l1))
                (l1_scan_end l1));
    destruct (Byte.eqb (byte_at s (l1_cur_match l1)) (byte_at s (strstart s)));
    destruct (Byte.eqb (byte_at s (l1_cur_match l1 + 1))
                (byte_at s (strstart s + 1)));
    reflexivity.
Qed.

Lemma std1_reject_false s l :
  std1_reject s l = false ->
  byte_at s (l1_cur_match l) = byte_at s (strstart s)
  /\ byte_at s (l1_cur_match l + 1) = byte_at s (strstart s + 1).
Proof.
  unfold std1_reject. intros H.
  apply orb_false_iff in H. destruct H as [H H1].
  apply orb_false_iff in H. destruct H as [_ H0].
  apply negb_false_iff, byte_eqb_eq in H0, H1. auto.
Qed.

Lemma same_locals_condition s limit l1 l2 :
  same_locals l1 l2 ->
  snd (std2_condition s limit l2) = snd (std1_condition s limit l1)
  /\ l2_best_len (fst (std2_condition s limit l2))
     = l1_best_len (fst (std1_condition s limit l1))
  /\ (snd (std1_condition s limit l1) = true ->
      same_locals (fst (std1_condition s limit l1))
        (fst (std2_condition s limit l2))).
Proof.
  intros (Hc & Hch & Hb & He). unfold std2_condition, std1_condition.
  rewrite Hc, Hch.
  destruct (pre_decrement (l1_chain_length l1) =? 0) eqn:E0;
    destruct (prev_at s (Z.land (l1_cur_match l1) (w_mask s)) >? limit) eqn:E1;
    simpl_locals; cbn [negb];
    (split; [reflexivity|]); (split; [assumption|]);
    intros H; try discriminate H.
  repeat split; assumption.
Qed.

(** One pass of std2 does what the pass of std1 does, when the candidate
    keeps the promise of the hash chain. *)
Lemma same_locals_body s nice l1 l2 e s' l1' ps :
  same_locals l1 l2 ->
  std1_body TRIGGER_LEVEL s nice l1 = (e, s', l1', ps) ->
  forallb (third_byte_agrees s) ps = true ->
  exists l2',
    std2_body TRIGGER_LEVEL s nice (load16 s (strstart s)) l2 = (e, s', l2', ps)
    /\ same_locals l1' l2'.
Proof.
  intros Hsame Hbody Hthird.
  pose proof (same_locals_reject s l1 l2 Hsame) as Hrej.
  destruct Hsame as (Hc & Hch & Hb & He).
  unfold std2_body. unfold std1_body in Hbody.
  rewrite Hrej, Hc, Hb, Hch.
  destruct (l1_cur_match l1 >=? strstart s).
  { inversion Hbody; subst. eexists. split; [reflexivity|].
    repeat split; assumption. }
  destruct (std1_reject s l1) eqn:Hr.
  { inversion Hbody; subst. eexists. split; [reflexivity|].
    repeat split; assumption. }
  cbv zeta in *.
  assert (Hlen : std2_len s (l1_cur_match l1) = std1_len s (l1_cur_match l1)).
  { destruct (std1_reject_false _ _ Hr) as [H0 H1].
    apply std1_std2_len; [assumption | assumption |].
    assert (Hin : exists p, In p ps /\ cand p = l1_cur_match l1
                            /\ exists len, outcome p = Some len).
    { destruct (std1_len s (l1_cur_match l1) >? l1_best_len l1);
        [destruct (std1_len s (l1_cur_match l1) >=? nice)
        |destruct (level s <? TRIGGER_LEVEL)];
        inversion Hbody; subst; eexists; (split; [left; reflexivity|]);
        simpl_locals; eauto. }
    destruct Hin as (p & Hin & Hcand & len & Ho).
    rewrite forallb_forall in Hthird. specialize (Hthird p Hin).
    unfold third_byte_agrees in Hthird. rewrite Ho, Hcand in Hthird.
    now apply byte_eqb_eq. }
  rewrite Hlen.
  destruct (std1_len s (l1_cur_match l1) >? l1_best_len l1).
  - destruct (std1_len s (l1_cur_match l1) >=? nice).
    + inversion Hbody; subst. eexists. split; [reflexivity|].
      repeat split; assumption.
    + inversion Hbody; subst. eexists. split; [reflexivity|].
      repeat split; simpl_locals; try reflexivity.
      unfold load16, byte_value.
      replace (strstart s + std1_len s (l1_cur_match l1) - 1 + 1)
        with (strstart s + std1_len s (l1_cur_match l1)) by lia.
      replace (strstart s + std1_len s (l1_cur_match l1) - 1)
        with (strstart s + (std1_len s (l1_cur_match l1) - 1)) by lia.
      reflexivity.
  - destruct (level s <? TRIGGER_LEVEL).
    + inversion Hbody; subst. eexists. split; [reflexivity|].
      repeat split; assumption.
    + inversion Hbody; subst. eexists. split; [reflexivity|].
      repeat split; assumption.
Qed.

Lemma std1_body_frame s nice l e s' l' ps :
  std1_body TRIGGER_LEVEL s nice l = (e, s', l', ps) ->
  s' = s \/ s' = set_match_start s (l1_cur_match l).
Proof.
  intros Hbody. pose proof (std1_body_cases TRIGGER_LEVEL s nice l) as Hc.
  rewrite Hbody in Hc. inversion Hc; subst; auto.
Qed.

Lemma std1_longest_match_run s cur_match :
  exists sf lf ps,
    std1_loop TRIGGER_LEVEL (Z.to_nat (walk_bound (initial_chain_length s))) s
      (chain_limit MAX_DIST s) (effective_nice_match s)
      (std1_initial_locals s cur_match) = Some (sf, lf, ps)
    /\ std1_longest_match MAX_DIST TRIGGER_LEVEL s cur_match =
       Some (mk_outcome (clamp_to_lookahead sf (l1_best_len lf)) sf
               (l1_best_len lf) ps).
Proof.
  destruct (std1_summary MAX_DIST TRIGGER_LEVEL s cur_match) as (r & Hr & _).
  unfold std1_longest_match in *.
  destruct (std1_loop _ _ _ _ _ _) as [[[sf lf] ps]|]; [|discriminate].
  exists sf, lf, ps. split; reflexivity.
Qed.

Lemma same_locals_loop limit nice : forall fuel s l1 l2 sf lf1 ps,
  same_locals l1 l2 ->
  std1_loop TRIGGER_LEVEL fuel s limit nice l1 = Some (sf, lf1, ps) ->
  forallb (third_byte_agrees s) ps = true ->
  exists lf2,
    std2_loop TRIGGER_LEVEL fuel s limit nice (load16 s (strstart s)) l2
    = Some (sf, lf2, ps)
    /\ l2_best_len lf2 = l1_best_len lf1.
Proof.
  induction fuel as [|fuel IH]; intros s l1 l2 sf lf1 ps Hsame Hrun Hthird;
    cbn [std1_loop] in Hrun; [discriminate|].
  cbn [std2_loop].
  destruct (std1_body TRIGGER_LEVEL s nice l1) as [[[e s'] l1'] ps0] eqn:Hbody.
  assert (Hps0 : exists ps', ps = ps0 ++ ps').
  { destruct e.
    - injection Hrun as _ _ <-. exists []. now rewrite app_nil_r.
    - destruct (std1_condition s' limit l1') as [l1'' go].
      destruct go.
      + destruct (std1_loop TRIGGER_LEVEL fuel s' limit nice l1'')
          as [[[sf' lf'] ps']|]; [|discriminate].
        injection Hrun as _ _ <-. eauto.
      + injection Hrun as _ _ <-. exists []. now rewrite app_nil_r. }
  assert (Hthird0 : forallb (third_byte_agrees s) ps0 = true).
  { destruct Hps0 as [ps' ->]. rewrite forallb_app in Hthird.
    apply andb_true_iff in Hthird. apply Hthird. }
  clear Hps0.
  destruct (same_locals_body _ _ _ _ _ _ _ _ Hsame Hbody Hthird0)
    as (l2' & Hbody2 & Hsame').
  rewrite Hbody2.
  destruct e.
  - injection Hrun as <- <- <-. eexists. split; [reflexivity|].
    apply Hsame'.
  - destruct (same_locals_condition s' limit l1' l2' Hsame')
      as (Hgo & Hbest & Hnext).
    destruct (std1_condition s' limit l1') as [l1'' go1].
    destruct (std2_condition s' limit l2') as [l2'' go2].
    simpl_locals. subst go2.
    destruct go1.
    + destruct (std1_loop TRIGGER_LEVEL fuel s' limit nice l1'')
        as [[[sf' lf'] ps'']|] eqn:Hrec; [|discriminate].
      injection Hrun as <- <- <-.
      rewrite forallb_app in Hthird. apply andb_true_iff in Hthird.
      destruct Hthird as [_ Hthird'].
      assert (Hs' : load16 s' (strstart s') = load16 s (strstart s)
                    /\ forallb (third_byte_agrees s') ps'' = true).
      { destruct (std1_body_frame _ _ _ _ _ _ _ Hbody) as [-> | ->];
          split; (reflexivity || exact Hthird'). }
      destruct Hs' as [Hload Hthird''].
      destruct (IH s' l1'' l2'' sf' lf' ps'' (Hnext eq_refl) Hrec Hthird'')
        as (lf2 & Hrun2 & Hbest2).
      rewrite Hload in Hrun2. rewrite Hrun2.
      eexists. split; [reflexivity | exact Hbest2].
    + injection Hrun as <- <- <-. eexists. split; [reflexivity|].
      exact Hbest.
Qed.

(** std1 and std2 return the same length, leave the same state and probe
    the same candidates whenever every candidate that passed the quick check
    of std1 agrees with the current string on the third byte, which is what
    the hash chain promises. *)
Lemma std1_agrees_with_std2 s cur_match :
  exists r,
    std1_longest_match MAX_DIST TRIGGER_LEVEL s cur_match = Some r
    /\ (forallb (third_byte_agrees s) (examined r) = true ->
        std2_longest_match MAX_DIST TRIGGER_LEVEL s cur_match = Some r).
Proof.
  destruct (std1_longest_match_run s cur_match)
    as (sf & lf & ps & Hrun & ->).
  eexists. split; [reflexivity|]. simpl_locals. intros Hthird.
  assert (Hinit : same_locals (std1_initial_locals s cur_match)
                    (std2_initial_locals s cur_match)).
  { unfold same_locals, std1_initial_locals, std2_initial_locals.
    simpl_locals. repeat split.
    unfold load16, byte_value.
    replace (strstart s + initial_best_len s - 1 + 1)
      with (strstart s + initial_best_len s) by lia.
    replace (strstart s + initial_best_len s - 1)
      with (strstart s + (initial_best_len s - 1)) by lia.
    reflexivity. }
  destruct (same_locals_loop _ _ _ _ _ _ _ _ _ Hinit Hrun Hthird)
    as (lf2 & Hrun2 & Hbest).
  unfold std2_longest_match. rewrite Hrun2, Hbest. reflexivity.
Qed.

End Agreement.

(** ** The lengths that the walk reports *)

Lemma equal_run_differ s n : forall a b i,
  0 <= i -> byte_at s (a + i) <> byte_at s (b + i) -> equal_run s n a b <= i.
Proof.
  intros a b i Hi Hne.
  destruct (Z_lt_le_dec i (equal_run s n a b)) as [Hlt | Hle]; [|exact Hle].
  exfalso. apply Hne. apply (equal_run_below s n). lia.
Qed.

Lemma match_length_bounds s c : 0 <= match_length s c <= MAX_MATCH.
Proof. apply (equal_run_bounds s 258). Qed.

(** The bytes, and so the lengths of the matches, are those of the state
    before an assignment to [match_start]. *)
Lemma equal_run_frame s m n : forall a b,
  equal_run (set_match_start s m) n a b = equal_run s n a b.
Proof.
  induction n as [|n IH]; intros a b; [reflexivity|].
  cbn [equal_run]. rewrite IH. reflexivity.
Qed.

Lemma match_length_frame s m c :
  match_length (set_match_start s m) c = match_length s c.
Proof. apply equal_run_frame. Qed.

(** A candidate that agrees with the current string on [k] leading bytes has
    a match of [k] bytes and what follows. *)
Lemma match_length_after s c (k : nat) :
  (k <= 258)%nat ->
  (forall i, 0 <= i < Z.of_nat k -> byte_at s (strstart s + i) = byte_at s (c + i)) ->
  match_length s c
  = Z.of_nat k + equal_run s (258 - k) (strstart s + Z.of_nat k) (c + Z.of_nat k).
Proof.
  intros Hk Heq. unfold match_length.
  replace 258%nat with (k + (258 - k))%nat at 1 by lia.
  rewrite equal_run_split.
  assert (Hrun : forall k a b,
             (forall i, 0 <= i < Z.of_nat k -> byte_at s (a + i) = byte_at s (b + i)) ->
             equal_run s k a b = Z.of_nat k).
  { clear. induction k as [|k IH]; intros a b Heq; [reflexivity|].
    cbn [equal_run].
    pose proof (Heq 0 ltac:(lia)) as H0. rewrite !Z.add_0_r in H0.
    rewrite H0, byte_eqb_refl, IH; [lia|].
    intros i Hi. specialize (Heq (1 + i) ltac:(lia)).
    rewrite !Z.add_assoc in Heq. exact Heq. }
  rewrite (Hrun k _ _ Heq), Z.eqb_refl. reflexivity.
Qed.

(** *** The quick checks *)

Lemma std1_reject_true s l :
  std1_scan_end_kept s l ->
  std1_reject s l = true ->
  match_length s (l1_cur_match l) <= l1_best_len l.
Proof.
  intros (Hb & He1 & He) Hrej. unfold std1_reject in Hrej.
  rewrite He1, He in Hrej. unfold match_length.
  apply orb_true_iff in Hrej. destruct Hrej as [Hrej | H1].
  apply orb_true_iff in Hrej. destruct Hrej as [Hrej | H0].
  apply orb_true_iff in Hrej. destruct Hrej as [Hend | Hend1].
  - apply negb_true_iff, Byte.eqb_false in Hend.
    apply equal_run_differ; [lia|]. congruence.
  - apply negb_true_iff, Byte.eqb_false in Hend1.
    pose proof (equal_run_differ s 258 (strstart s) (l1_cur_match l)
                  (l1_best_len l - 1)) as Hd.
    assert (equal_run s 258 (strstart s) (l1_cur_match l) <= l1_best_len l - 1);
      [|lia].
    apply Hd; [lia|]. congruence.
  - apply negb_true_iff, Byte.eqb_false in H0.
    pose proof (equal_run_differ s 258 (strstart s) (l1_cur_match l) 0) as Hd.
    rewrite !Z.add_0_r in Hd.
    assert (equal_run s 258 (strstart s) (l1_cur_match l) <= 0); [|lia].
    apply Hd; [lia|]. congruence.
  - apply negb_true_iff, Byte.eqb_false in H1.
    pose proof (equal_run_differ s 258 (strstart s) (l1_cur_match l) 1) as Hd.
    assert (equal_run s 258 (strstart s) (l1_cur_match l) <= 1); [|lia].
    apply Hd; [lia|]. congruence.
Qed.

Lemma std2_reject_true scan_start s l :
  std2_scan_end_kept scan_start s l ->
  std2_reject s scan_start l = true ->
  match_length s (l2_cur_match l) <= l2_best_len l.
Proof.
  intros (<- & Hb & He) Hrej. unfold std2_reject in Hrej.
  rewrite He, !load16_eqb in Hrej. unfold match_length.
  set (c := l2_cur_match l) in *. set (b := l2_best_len l) in *.
  assert (Hd : forall i, 0 <= i ->
             Byte.eqb (byte_at s (c + i)) (byte_at s (strstart s + i)) = false ->
             equal_run s 258 (strstart s) c <= i).
  { intros i Hi Hne. apply Byte.eqb_false in Hne.
    apply equal_run_differ; [lia|]. congruence. }
  replace (c + b - 1 + 1) with (c + b) in Hrej by lia.
  replace (strstart s + b - 1 + 1) with (strstart s + b) in Hrej by lia.
  replace (c + b - 1) with (c + (b - 1)) in Hrej by lia.
  replace (strstart s + b - 1) with (strstart s + (b - 1)) in Hrej by lia.
  pose proof (Hd (b - 1)) as D1. pose proof (Hd b) as D2.
  pose proof (Hd 0) as D3. pose proof (Hd 1) as D4.
  rewrite !Z.add_0_r in D3.
  destruct (Byte.eqb (byte_at s (c + (b - 1))) (byte_at s (strstart s + (b - 1))));
    [|specialize (D1 ltac:(lia) eq_refl); lia].
  destruct (Byte.eqb (byte_at s (c + b)) (byte_at s (strstart s + b)));
    [|specialize (D2 ltac:(lia) eq_refl); lia].
  destruct (Byte.eqb (byte_at s c) (byte_at s (strstart s)));
    [|specialize (D3 ltac:(lia) eq_refl); lia].
  destruct (Byte.eqb (byte_at s (c + 1)) (byte_at s (strstart s + 1)));
    [|specialize (D4 ltac:(lia) eq_refl); lia].
  discriminate.
Qed.

Lemma std2_reject_false s l :
  std2_reject s (load16 s (strstart s)) l = false ->
  byte_at s (strstart s) = byte_at s (l2_cur_match l)
  /\ byte_at s (strstart s + 1) = byte_at s (l2_cur_match l + 1).
Proof.
  unfold std2_reject. intros Hrej.
  destruct (negb (load16 s (l2_cur_match l + l2_best_len l - 1) =? l2_scan_end l));
    [discriminate|].
  apply negb_false_iff in Hrej. rewrite load16_eqb in Hrej.
  apply andb_true_iff in Hrej. destruct Hrej as [H0 H1].
  apply byte_eqb_eq in H0, H1. auto.
Qed.

(** *** The lengths computed *)

(** std2 compares every byte from the second on. *)
Lemma std2_len_exact s c :
  byte_at s (strstart s) = byte_at s c ->
  std2_len s c = match_length s c.
Proof.
  intros H0. rewrite std2_len_spec.
  rewrite (match_length_after s c 1) by
    (lia || (intros i Hi; replace i with 0 by lia; rewrite !Z.add_0_r; exact H0)).
  reflexivity.
Qed.

(** std1 compares every byte from the fourth on. *)
Lemma std1_len_exact s c :
  byte_at s (strstart s) = byte_at s c ->
  byte_at s (strstart s + 1) = byte_at s (c + 1) ->
  if Byte.eqb (byte_at s (c + 2)) (byte_at s (strstart s + 2))
  then std1_len s c = match_length s c
  else match_length s c = 2.
Proof.
  intros H0 H1.
  assert (H01 : forall i, 0 <= i < 2 ->
            byte_at s (strstart s + i) = byte_at s (c + i)).
  { intros i Hi. assert (Hc : i = 0 \/ i = 1) by lia.
    destruct Hc as [-> | ->]; [rewrite !Z.add_0_r|]; assumption. }
  destruct (Byte.eqb (byte_at s (c + 2)) (byte_at s (strstart s + 2))) eqn:H2.
  - apply byte_eqb_eq in H2. rewrite std1_len_spec.
    rewrite (match_length_after s c 3); [reflexivity | lia |].
    intros i Hi. destruct (Z.eq_dec i 2) as [-> | Hne]; [congruence|].
    apply H01. lia.
  - apply Byte.eqb_false in H2.
    rewrite (match_length_after s c 2) by (lia || exact H01).
    change (258 - 2)%nat with (S 255). cbn [equal_run].
    change (Z.of_nat 2) with 2.
    destruct (Byte.eqb (byte_at s (strstart s + 2)) (byte_at s (c + 2))) eqn:E;
      [|reflexivity].
    apply byte_eqb_eq in E. congruence.
Qed.

(** *** An invariant of the locals along the walk *)

Section WalkInvariant.

Variable L : Type.
Variable body : deflate_state -> L -> body_end * deflate_state * L * list probe.
Variable cond : deflate_state -> L -> L * bool.
Variable kept : deflate_state -> L -> Prop.
Variable good : deflate_state -> probe -> Prop.

Hypothesis body_keeps :
  forall s l e s' l' ps,
    kept s l -> body s l = (e, s', l', ps) ->
    Forall (good s) ps
    /\ (e = ToCondition -> kept s' l')
    /\ exists m, s' = set_match_start s m.
Hypothesis cond_keeps : forall s l, kept s l -> kept s (fst (cond s l)).
Hypothesis good_frame : forall s m p, good (set_match_start s m) p -> good s p.

(** Where the locals start as [kept] requires, every probe is [good]. *)
Lemma walk_invariant fuel s l sf lf ps :
  kept s l ->
  walk L body cond fuel s l = Some (sf, lf, ps) ->
  Forall (good s) ps.
Proof.
  intros Hkept Hrun.
  enough (H : forall fuel s l r,
             walk L body cond fuel s l = Some r ->
             kept s l -> Forall (good s) (snd r)).
  { exact (H _ _ _ _ Hrun Hkept). }
  clear fuel s l sf lf ps Hkept Hrun.
  apply (walk_ind L body cond
           (fun s l r => kept s l -> Forall (good s) (snd r))).
  - intros s l s' l' ps0 Hbody Hk. simpl_locals.
    apply (body_keeps _ _ _ _ _ _ Hk Hbody).
  - intros s l s' l' ps0 l'' Hbody _ Hk. simpl_locals.
    apply (body_keeps _ _ _ _ _ _ Hk Hbody).
  - intros s l s' l' ps0 l'' sf0 lf0 ps' Hbody Hcond IH Hk. simpl_locals.
    destruct (body_keeps _ _ _ _ _ _ Hk Hbody) as (Hgood & Hk' & m & ->).
    apply Forall_app. split; [exact Hgood|].
    eapply Forall_impl; [intros p; apply good_frame|].
    apply IH. pose proof (cond_keeps _ _ (Hk' eq_refl)) as Hc.
    rewrite Hcond in Hc. exact Hc.
Qed.

End WalkInvariant.

Lemma byte_at_frame s m p : byte_at (set_match_start s m) p = byte_at s p.
Proof. reflexivity. Qed.

Lemma reported_exactly_frame s m p :
  reported_exactly (set_match_start s m) p -> reported_exactly s p.
Proof.
  unfold reported_exactly. intros H len Ho. rewrite <- (match_length_frame s m).
  now apply H.
Qed.

Lemma reported_beyond_third_byte_frame s m p :
  reported_beyond_third_byte (set_match_start s m) p ->
  reported_beyond_third_byte s p.
Proof.
  unfold reported_beyond_third_byte. intros H len Ho.
  specialize (H len Ho). rewrite !byte_at_frame, match_length_frame in H.
  exact H.
Qed.

Lemma no_longer_than_recorded_frame s m p :
  no_longer_than_recorded (set_match_start s m) p ->
  no_longer_than_recorded s p.
Proof.
  unfold no_longer_than_recorded. now rewrite match_length_frame.
Qed.

Lemma same_state s : exists m, s = set_match_start s m.
Proof. exists (match_start s). now rewrite set_match_start_same. Qed.

Section TrueLengths.

Variable MAX_DIST : deflate_state -> Z.
Variable TRIGGER_LEVEL : Z.

(** *** The passes of std2 *)

Lemma std2_body_reports scan_start nice s l e s' l' ps :
  load16 s (strstart s) = scan_start ->
  std2_body TRIGGER_LEVEL s nice scan_start l = (e, s', l', ps) ->
  Forall (reported_exactly s) ps
  /\ (e = ToCondition -> load16 s' (strstart s') = scan_start)
  /\ exists m, s' = set_match_start s m.
Proof.
  intros Hstart Hbody. unfold std2_body in Hbody. subst scan_start.
  destruct (l2_cur_match l >=? strstart s).
  { injection Hbody as <- <- <- <-.
    split; [constructor|]. split; [discriminate | apply same_state]. }
  destruct (std2_reject s (load16 s (strstart s)) l) eqn:Hrej.
  { injection Hbody as <- <- <- <-.
    split; [|split; [auto | apply same_state]].
    constructor; [|constructor]. intros len [=]. }
  cbv zeta in Hbody.
  destruct (std2_reject_false _ _ Hrej) as [H0 _].
  assert (Hprobe : Forall (reported_exactly s)
            [mk_probe (l2_cur_match l) (l2_best_len l)
               (Some (std2_len s (l2_cur_match l)))]).
  { constructor; [|constructor]. intros len [= <-].
    now apply std2_len_exact. }
  destruct (std2_len s (l2_cur_match l) >? l2_best_len l);
    [destruct (std2_len s (l2_cur_match l) >=? nice)
    |destruct (level s <? TRIGGER_LEVEL)];
    injection Hbody as <- <- <- <-;
    (split; [exact Hprobe|]); (split; [auto | eauto using same_state]).
Qed.

Lemma std2_body_keeps scan_start nice s l e s' l' ps :
  std2_scan_end_kept scan_start s l ->
  std2_body TRIGGER_LEVEL s nice scan_start l = (e, s', l', ps) ->
  Forall (no_longer_than_recorded s) ps
  /\ (e = ToCondition -> std2_scan_end_kept scan_start s' l')
  /\ exists m, s' = set_match_start s m.
Proof.
  intros Hkept Hbody. pose proof Hkept as (Hstart & Hb & He).
  unfold std2_body in Hbody.
  destruct (l2_cur_match l >=? strstart s).
  { injection Hbody as <- <- <- <-.
    split; [constructor|]. split; [discriminate | apply same_state]. }
  destruct (std2_reject s scan_start l) eqn:Hrej.
  { injection Hbody as <- <- <- <-.
    split; [|split; [auto | apply same_state]].
    constructor; [|constructor].
    unfold no_longer_than_recorded, best_with. simpl_locals.
    now apply (std2_reject_true scan_start). }
  cbv zeta in Hbody. rewrite <- Hstart in Hrej.
  destruct (std2_reject_false _ _ Hrej) as [H0 _].
  pose proof (std2_len_exact s (l2_cur_match l) H0) as Hlen.
  pose proof (std2_len_range s (l2_cur_match l)) as Hrange.
  assert (Hprobe : Forall (no_longer_than_recorded s)
            [mk_probe (l2_cur_match l) (l2_best_len l)
               (Some (std2_len s (l2_cur_match l)))]).
  { constructor; [|constructor].
    unfold no_longer_than_recorded, best_with. simpl_locals. lia. }
  destruct (std2_len s (l2_cur_match l) >? l2_best_len l);
    [destruct (std2_len s (l2_cur_match l) >=? nice)
    |destruct (level s <? TRIGGER_LEVEL)];
    injection Hbody as <- <- <- <-;
    (split; [exact Hprobe|]);
    (split; [|eauto using same_state]);
    try discriminate; try (intros _; exact Hkept).
  intros _. unfold std2_scan_end_kept. simpl_locals.
  split; [exact Hstart|]. split; [lia | reflexivity].
Qed.

Lemma std2_condition_keeps scan_start limit s l :
  std2_scan_end_kept scan_start s l ->
  std2_scan_end_kept scan_start s (fst (std2_condition s limit l)).
Proof.
  intros Hkept. unfold std2_condition.
  destruct (pre_decrement (l2_chain_length l) =? 0); exact Hkept.
Qed.

Lemma initial_best_len_positive s : 0 <= prev_length s -> 1 <= initial_best_len s.
Proof.
  intros Hprev. unfold initial_best_len.
  destruct (prev_length s =? 0) eqn:E; lia.
Qed.

(** The walk of std2, with what its probes say. *)
Lemma std2_walk s cur_match :
  exists r,
    std2_longest_match MAX_DIST TRIGGER_LEVEL s cur_match = Some r
    /\ walk_summary MAX_DIST TRIGGER_LEVEL s cur_match r
    /\ Forall (reported_exactly s) (examined r)
    /\ (0 <= prev_length s ->
        Forall (no_longer_than_recorded s) (examined r)).
Proof.
  pose (nice := effective_nice_match s). pose (limit := chain_limit MAX_DIST s).
  pose (scan_start := load16 s (strstart s)).
  pose proof (fun s0 l0 => std2_body_cases TRIGGER_LEVEL s0 nice scan_start l0)
    as Hbody.
  pose proof (fun s0 l0 => std2_condition_best_len s0 limit l0) as Hbest.
  pose proof (fun s0 l0 => std2_condition_true s0 limit l0) as Htrue.
  unfold std2_longest_match. rewrite std2_loop_walk.
  destruct (walk_total _ _ _ _ _ _ _ _ _ _ Hbody Htrue
              (Z.to_nat (walk_bound (initial_chain_length s))) s
              (std2_initial_locals s cur_match)) as [[[sf lf] ps] Hrun].
  { cbn [std2_initial_locals l2_chain_length].
    pose proof (pre_decrement_range (initial_chain_length s)).
    unfold walk_bound. lia. }
  fold nice limit scan_start. rewrite Hrun. eexists. split; [reflexivity|].
  split; [|split].
  - exact (walk_summarised _ _ _ _ _ _ _ _ _ _ Hbody Hbest Htrue
             std2_len_range
             MAX_DIST _ s (std2_initial_locals s cur_match) sf lf ps
             eq_refl eq_refl eq_refl eq_refl Hrun).
  - simpl_locals.
    refine (walk_invariant std2_locals _ _
              (fun s0 _ => load16 s0 (strstart s0) = scan_start)
              reported_exactly _ _ _ _ s _ sf lf ps _ Hrun).
    + intros s0 l0 e s' l' ps0 Hk Hb. eapply std2_body_reports; eauto.
    + intros s0 l0 Hk. exact Hk.
    + apply reported_exactly_frame.
    + reflexivity.
  - intros Hprev. simpl_locals.
    refine (walk_invariant std2_locals _ _
              (std2_scan_end_kept scan_start)
              no_longer_than_recorded _ _ _ _ s _ sf lf ps _ Hrun).
    + intros s0 l0 e s' l' ps0 Hk Hb. eapply std2_body_keeps; eauto.
    + intros s0 l0 Hk. now apply std2_condition_keeps.
    + apply no_longer_than_recorded_frame.
    + unfold std2_scan_end_kept, std2_initial_locals. simpl_locals.
      split; [reflexivity|]. split; [|reflexivity].
      now apply initial_best_len_positive.
Qed.

(** *** The passes of std1 *)

Lemma std1_extended_probe s c best :
  byte_at s c = byte_at s (strstart s) ->
  byte_at s (c + 1) = byte_at s (strstart s + 1) ->
  reported_beyond_third_byte s (mk_probe c best (Some (std1_len s c)))
  /\ no_longer_than_recorded s (mk_probe c best (Some (std1_len s c))).
Proof.
  intros H0 H1.
  pose proof (std1_len_exact s c (eq_sym H0) (eq_sym H1)) as Hlen.
  pose proof (std1_len_bounds s c) as Hb.
  split.
  - intros len [= <-]. simpl_locals. split; [lia | exact Hlen].
  - unfold no_longer_than_recorded, best_with. simpl_locals.
    destruct (Byte.eqb (byte_at s (c + 2)) (byte_at s (strstart s + 2))); lia.
Qed.

Lemma std1_body_reports nice s l e s' l' ps :
  std1_body TRIGGER_LEVEL s nice l = (e, s', l', ps) ->
  Forall (reported_beyond_third_byte s) ps
  /\ exists m, s' = set_match_start s m.
Proof.
  intros Hbody. unfold std1_body in Hbody.
  destruct (l1_cur_match l >=? strstart s).
  { injection Hbody as <- <- <- <-. split; [constructor | apply same_state]. }
  destruct (std1_reject s l) eqn:Hrej.
  { injection Hbody as <- <- <- <-. split; [|apply same_state].
    constructor; [|constructor]. intros len [=]. }
  cbv zeta in Hbody.
  destruct (std1_reject_false _ _ Hrej) as [H0 H1].
  destruct (std1_extended_probe s (l1_cur_match l) (l1_best_len l) H0 H1) as [Hprobe _].
  destruct (std1_len s (l1_cur_match l) >? l1_best_len l);
    [destruct (std1_len s (l1_cur_match l) >=? nice)
    |destruct (level s <? TRIGGER_LEVEL)];
    injection Hbody as <- <- <- <-;
    (split; [constructor; [exact Hprobe | constructor]
            |eauto using same_state]).
Qed.

Lemma std1_body_keeps nice s l e s' l' ps :
  std1_scan_end_kept s l ->
  std1_body TRIGGER_LEVEL s nice l = (e, s', l', ps) ->
  Forall (no_longer_than_recorded s) ps
  /\ (e = ToCondition -> std1_scan_end_kept s' l')
  /\ exists m, s' = set_match_start s m.
Proof.
  intros Hkept Hbody. unfold std1_body in Hbody.
  destruct (l1_cur_match l >=? strstart s).
  { injection Hbody as <- <- <- <-.
    split; [constructor|]. split; [discriminate | apply same_state]. }
  destruct (std1_reject s l) eqn:Hrej.
  { injection Hbody as <- <- <- <-.
    split; [|split; [auto | apply same_state]].
    constructor; [|constructor].
    unfold no_longer_than_recorded, best_with. simpl_locals.
    now apply std1_reject_true. }
  cbv zeta in Hbody.
  destruct (std1_reject_false _ _ Hrej) as [H0 H1].
  destruct (std1_extended_probe s (l1_cur_match l) (l1_best_len l) H0 H1) as [_ Hprobe].
  pose proof (std1_len_bounds s (l1_cur_match l)) as Hb.
  destruct (std1_len s (l1_cur_match l) >? l1_best_len l);
    [destruct (std1_len s (l1_cur_match l) >=? nice)
    |destruct (level s <? TRIGGER_LEVEL)];
    injection Hbody as <- <- <- <-;
    (split; [constructor; [exact Hprobe | constructor]|]);
    (split; [|eauto using same_state]);
    try discriminate; try (intros _; exact Hkept).
  intros _. unfold std1_scan_end_kept. simpl_locals.
  split; [lia|]. split; reflexivity.
Qed.

Lemma std1_condition_keeps limit s l :
  std1_scan_end_kept s l ->
  std1_scan_end_kept s (fst (std1_condition s limit l)).
Proof.
  intros Hkept. unfold std1_condition.
  destruct (prev_at s (Z.land (l1_cur_match l) (w_mask s)) >? limit);
    exact Hkept.
Qed.

(** The walk of std1, with what its probes say. *)
Lemma std1_walk s cur_match :
  exists r,
    std1_longest_match MAX_DIST TRIGGER_LEVEL s cur_match = Some r
    /\ walk_summary MAX_DIST TRIGGER_LEVEL s cur_match r
    /\ Forall (reported_beyond_third_byte s) (examined r)
    /\ (0 <= prev_length s ->
        Forall (no_longer_than_recorded s) (examined r)).
Proof.
  pose (nice := effective_nice_match s). pose (limit := chain_limit MAX_DIST s).
  pose proof (fun s0 l0 => std1_body_cases TRIGGER_LEVEL s0 nice l0) as Hbody.
  pose proof (fun s0 l0 => std1_condition_best_len s0 limit l0) as Hbest.
  pose proof (fun s0 l0 => std1_condition_true s0 limit l0) as Htrue.
  unfold std1_longest_match. rewrite std1_loop_walk.
  destruct (walk_total _ _ _ _ _ _ _ _ _ _ Hbody Htrue
              (Z.to_nat (walk_bound (initial_chain_length s))) s
              (std1_initial_locals s cur_match)) as [[[sf lf] ps] Hrun].
  { cbn [std1_initial_locals l1_chain_length].
    pose proof (pre_decrement_range (initial_chain_length s)).
    unfold walk_bound. lia. }
  fold nice limit. rewrite Hrun. eexists. split; [reflexivity|].
  split; [|split].
  - exact (walk_summarised _ _ _ _ _ _ _ _ _ _ Hbody Hbest Htrue
             std1_len_range
             MAX_DIST _ s (std1_initial_locals s cur_match) sf lf ps
             eq_refl eq_refl eq_refl eq_refl Hrun).
  - simpl_locals.
    refine (walk_invariant std1_locals _ _ (fun _ _ => True)
              reported_beyond_third_byte _ _ _ _ s _ sf lf ps I Hrun).
    + intros s0 l0 e s' l' ps0 _ Hb.
      destruct (std1_body_reports _ _ _ _ _ _ _ Hb) as [Hr Hs']. auto.
    + auto.
    + apply reported_beyond_third_byte_frame.
  - intros Hprev. simpl_locals.
    refine (walk_invariant std1_locals _ _ std1_scan_end_kept
              no_longer_than_recorded _ _ _ _ s _ sf lf ps _ Hrun).
    + intros s0 l0 e s' l' ps0 Hk Hb. eapply std1_body_keeps; eauto.
    + intros s0 l0 Hk. now apply std1_condition_keeps.
    + apply no_longer_than_recorded_frame.
    + unfold std1_scan_end_kept, std1_initial_locals. simpl_locals.
      split; [now apply initial_best_len_positive|]. split; reflexivity.
Qed.

(** *** The match recorded *)

Lemma summary_no_longer s cur_match r :
  walk_summary MAX_DIST TRIGGER_LEVEL s cur_match r ->
  Forall (no_longer_than_recorded s) (examined r) ->
  Forall (fun p => match_length s (cand p) <= final_best_len r) (examined r).
Proof.
  intros W Hall. rewrite Forall_forall in *. intros p Hin.
  specialize (Hall p Hin). unfold no_longer_than_recorded in Hall.
  apply in_split in Hin. destruct Hin as (pre & post & Hps).
  rewrite (ws_best_before _ _ _ _ _ W _ _ _ Hps) in Hall.
  rewrite (ws_best _ _ _ _ _ W), Hps, best_after_app, best_after_cons.
  pose proof (best_after_ge post
                (best_with (best_after (initial_best_len s) pre) p)).
  lia.
Qed.

(** The bytes of a match of [n] bytes at [c]. *)
Lemma match_length_bytes s c n :
  n <= match_length s c ->
  forall i, 0 <= i < n -> byte_at s (c + i) = byte_at s (strstart s + i).
Proof.
  intros Hn i Hi. symmetry. apply (equal_run_below s 258).
  unfold match_length in Hn. lia.
Qed.

Lemma returned_le_best_len s cur_match r :
  walk_summary MAX_DIST TRIGGER_LEVEL s cur_match r ->
  returned r <= final_best_len r.
Proof.
  intros W. rewrite (ws_returned _ _ _ _ _ W). unfold clamp_to_lookahead.
  destruct (final_best_len r <=? lookahead s) eqn:E; lia.
Qed.

(** In std1 and in std2, no candidate that the walk examined has a longer
    match with the current string than the [best_len] that the walk ends
    with: the quick check rejects only candidates that cannot improve on
    [best_len]. *)
Theorem examined_candidates_no_longer s cur_match :
  0 <= prev_length s ->
  std1_and_std2 MAX_DIST TRIGGER_LEVEL s cur_match (fun r =>
    Forall (fun p => match_length s (cand p) <= final_best_len r)
      (examined r)).
Proof.
  intros Hprev. split.
  - destruct (std1_walk s cur_match) as (r & Hr & W & _ & Hall).
    exists r. split; [exact Hr|]. eapply summary_no_longer; eauto.
  - destruct (std2_walk s cur_match) as (r & Hr & W & _ & Hall).
    exists r. split; [exact Hr|]. eapply summary_no_longer; eauto.
Qed.

(** std2 reports the lengths of matches: the [len] of every candidate it
    extends is the number of leading bytes, of the first 258, on which the
    candidate agrees with the current string; and when the call improves on
    the initial [best_len], the string at [match_start] has a match of
    exactly the final [best_len] bytes, so that it agrees with the current
    string on as many bytes as the call returns. *)
Theorem std2_reports_match_lengths s cur_match :
  exists r,
    std2_longest_match MAX_DIST TRIGGER_LEVEL s cur_match = Some r
    /\ (forall p len, In p (examined r) -> outcome p = Some len ->
          len = match_length s (cand p))
    /\ (initial_best_len s < final_best_len r ->
        match_length s (match_start (final_state r)) = final_best_len r
        /\ forall i, 0 <= i < returned r ->
             byte_at s (match_start (final_state r) + i)
             = byte_at s (strstart s + i)).
Proof.
  destruct (std2_walk s cur_match) as (r & Hr & W & Hrep & _).
  exists r. split; [exact Hr|]. rewrite Forall_forall in Hrep.
  split; [intros p len Hin Ho; now apply (Hrep p Hin)|].
  intros Hlt.
  destruct (ws_recorded _ _ _ _ _ W Hlt)
    as (pre & p & post & Hps & Ho & _ & Hm & _).
  assert (Hin : In p (examined r))
    by (rewrite Hps; apply in_or_app; right; left; reflexivity).
  pose proof (Hrep p Hin _ Ho) as Hlen. rewrite Hm.
  split; [now symmetry|].
  apply match_length_bytes. rewrite <- Hlen.
  eapply returned_le_best_len; eauto.
Qed.

(** std1 reports the lengths of matches where the hash chain keeps its
    promise.  Every candidate it extends agrees with the current string on
    the first two bytes; its [len] is at least 3 and is the length of the
    match when the third byte agrees too, while the match has only two bytes
    when it does not.  The same holds of the match recorded. *)
Theorem std1_reports_beyond_third_byte s cur_match :
  exists r,
    std1_longest_match MAX_DIST TRIGGER_LEVEL s cur_match = Some r
    /\ (forall p len, In p (examined r) -> outcome p = Some len ->
          3 <= len
          /\ if Byte.eqb (byte_at s (cand p + 2)) (byte_at s (strstart s + 2))
             then len = match_length s (cand p)
             else match_length s (cand p) = 2)
    /\ (initial_best_len s < final_best_len r ->
        3 <= final_best_len r
        /\ if Byte.eqb (byte_at s (match_start (final_state r) + 2))
                (byte_at s (strstart s + 2))
           then match_length s (match_start (final_state r)) = final_best_len r
                /\ forall i, 0 <= i < returned r ->
                     byte_at s (match_start (final_state r) + i)
                     = byte_at s (strstart s + i)
           else match_length s (match_start (final_state r)) = 2).
Proof.
  destruct (std1_walk s cur_match) as (r & Hr & W & Hrep & _).
  exists r. split; [exact Hr|]. rewrite Forall_forall in Hrep.
  split; [intros p len Hin Ho; now apply (Hrep p Hin)|].
  intros Hlt.
  destruct (ws_recorded _ _ _ _ _ W Hlt)
    as (pre & p & post & Hps & Ho & _ & Hm & _).
  assert (Hin : In p (examined r))
    by (rewrite Hps; apply in_or_app; right; left; reflexivity).
  destruct (Hrep p Hin _ Ho) as [H3 Hlen]. rewrite Hm.
  split; [exact H3|].
  destruct (Byte.eqb (byte_at s (cand p + 2)) (byte_at s (strstart s + 2)));
    [|exact Hlen].
  split; [now symmetry|].
  apply match_length_bytes. rewrite <- Hlen.
  eapply returned_le_best_len; eauto.
Qed.

End TrueLengths.

(** ** The walk of std3 *)

Arguments std3_len : simpl never.
Arguments std3_reject : simpl never.
Arguments load_le : simpl never.

Ltac simpl_locals3 :=
  cbn [fst snd
       l3_cur_match l3_chain_length l3_best_len l3_scan_end
       window prev w_mask strstart lookahead prev_length match_start
       max_chain_length good_match nice_match level set_match_start
       cand best_before outcome
       returned final_state final_best_len examined] in *.

(** *** A walk whose every pass probes its candidate *)

Section FlatWalk.

Variable L : Type.
Variables cur chain best : L -> Z.
Variable len_of : deflate_state -> Z -> Z.
Variable body : deflate_state -> L -> body_end * deflate_state * L * list probe.
Variable cond : deflate_state -> L -> L * bool.
Variables nice limit : Z.

(** What the proofs need to know of the body and of the condition. *)
Hypothesis pass_probe :
  forall s l e s' l' ps,
    body s l = (e, s', l', ps) ->
    chain l' = chain l
    /\ cur l' = cur l
    /\ (s' = s \/ s' = set_match_start s (cur l))
    /\ exists o, ps = [mk_probe (cur l) (best l) o]
                 /\ forall len, o = Some len -> len = len_of s (cur l).
Hypothesis pass_record :
  forall s l e s' l' ps,
    body s l = (e, s', l', ps) ->
    best l' = best_after (best l) ps
    /\ (best l' = best l -> s' = s)
    /\ (best l < best l' ->
        ps = [mk_probe (cur l) (best l) (Some (best l'))]
        /\ s' = set_match_start s (cur l)).
Hypothesis pass_goes_on :
  forall s l s' l' c b len,
    body s l = (ToCondition, s', l', [mk_probe c b (Some len)]) ->
    ~ (b < len /\ nice <= len).
Hypothesis cond_best : forall s l, best (fst (cond s l)) = best l.
Hypothesis cond_true :
  forall s l, snd (cond s l) = true ->
    limit < cur (fst (cond s l))
    /\ chain (fst (cond s l)) = pre_decrement (chain l)
    /\ chain (fst (cond s l)) <> 0.
Hypothesis len_frame :
  forall s m c, len_of (set_match_start s m) c = len_of s c.

Lemma flat_cond_continues s l l' :
  cond s l = (l', true) ->
  limit < cur l' /\ chain l' = pre_decrement (chain l) /\ chain l' <> 0.
Proof.
  intros Hcond. pose proof (cond_true s l) as H.
  rewrite Hcond in H. exact (H eq_refl).
Qed.

Lemma flat_cond_keeps_best s l l' go : cond s l = (l', go) -> best l' = best l.
Proof.
  intros Hcond. pose proof (cond_best s l) as H.
  rewrite Hcond in H. exact H.
Qed.

Lemma one_probe_split (p0 p : probe) pre post :
  [p0] = pre ++ p :: post -> pre = [] /\ p = p0 /\ post = [].
Proof.
  intros H. destruct pre as [|a pre]; cbn in H.
  - inversion H. auto.
  - inversion H. destruct pre; discriminate.
Qed.

(** Only [match_start] is assigned. *)
Lemma flat_frame fuel s l sf lf ps :
  walk L body cond fuel s l = Some (sf, lf, ps) ->
  sf = set_match_start s (match_start sf).
Proof.
  revert fuel s l sf lf ps.
  enough (H : forall fuel s l r,
             walk L body cond fuel s l = Some r ->
             fst (fst r) = set_match_start s (match_start (fst (fst r)))).
  { intros fuel s l sf lf ps Hrun. exact (H _ _ _ _ Hrun). }
  apply (walk_ind L body cond
           (fun s _ r =>
              fst (fst r) = set_match_start s (match_start (fst (fst r))))).
  - intros s l s' l' ps Hbody.
    destruct (pass_probe _ _ _ _ _ _ Hbody) as (_ & _ & [-> | ->] & _);
      simpl_locals; now rewrite ?set_match_start_same.
  - intros s l s' l' ps l'' Hbody _.
    destruct (pass_probe _ _ _ _ _ _ Hbody) as (_ & _ & [-> | ->] & _);
      simpl_locals; now rewrite ?set_match_start_same.
  - intros s l s' l' ps l'' sf lf ps' Hbody _ IH.
    destruct (pass_probe _ _ _ _ _ _ Hbody) as (_ & _ & [-> | ->] & _);
      simpl_locals; exact IH.
Qed.

(** The probes of the walk: the first is the candidate the walk starts at,
    whatever its position, and the others lie beyond [limit]; their number
    is within the budget; every [len] is the one the comparator computes. *)
Lemma flat_probes fuel s l sf lf ps :
  walk L body cond fuel s l = Some (sf, lf, ps) ->
  (exists p rest, ps = p :: rest /\ cand p = cur l
                  /\ Forall (fun q => limit < cand q) rest)
  /\ Z.of_nat (List.length ps) <= walk_bound (chain l)
  /\ Forall (fun p => forall len, outcome p = Some len ->
                                  len = len_of s (cand p)) ps.
Proof.
  revert fuel s l sf lf ps.
  pose (P := fun (s : deflate_state) (l : L)
                 (r : deflate_state * L * list probe) =>
    (exists p rest, snd r = p :: rest /\ cand p = cur l
                    /\ Forall (fun q => limit < cand q) rest)
    /\ Z.of_nat (List.length (snd r)) <= walk_bound (chain l)
    /\ Forall (fun p => forall len, outcome p = Some len ->
                                    len = len_of s (cand p)) (snd r)).
  enough (H : forall fuel s l r, walk L body cond fuel s l = Some r -> P s l r).
  { intros fuel s l sf lf ps Hrun. exact (H _ _ _ _ Hrun). }
  assert (Hlast : forall s l e s' l' ps l'',
             body s l = (e, s', l', ps) -> P s l (s', l'', ps)).
  { intros s l e s' l' ps l'' Hbody. unfold P. simpl_locals.
    destruct (pass_probe _ _ _ _ _ _ Hbody) as (_ & _ & _ & o & -> & Hlen).
    pose proof (pre_decrement_range (chain l)) as Hr.
    split; [eexists _, []; repeat split; constructor|].
    split; [unfold walk_bound; cbn [List.length]; lia|].
    constructor; [exact Hlen | constructor]. }
  apply (walk_ind L body cond P).
  - intros s l s' l' ps Hbody. eapply Hlast; eauto.
  - intros s l s' l' ps l'' Hbody _. eapply Hlast; eauto.
  - intros s l s' l' ps l'' sf lf ps' Hbody Hcond IH.
    unfold P in *. simpl_locals.
    destruct IH as ((q & rest & -> & Hq & Hrest) & I3 & I5).
    destruct (flat_cond_continues _ _ _ Hcond) as (Hlim & Hchain & Hnz).
    destruct (pass_probe _ _ _ _ _ _ Hbody)
      as (Hc' & _ & Hs' & o & -> & Hlen).
    split.
    { eexists _, (q :: rest). split; [reflexivity|]. split; [reflexivity|].
      constructor; [lia | exact Hrest]. }
    split.
    { rewrite Hchain, walk_bound_step in I3 by (rewrite <- Hchain; assumption).
      rewrite Hc' in I3. cbn [List.length app] in *. lia. }
    cbn [app]. constructor; [exact Hlen|].
    eapply Forall_impl; [|exact I5]. cbv beta. intros p Hp len Ho.
    rewrite (Hp len Ho).
    destruct Hs' as [-> | ->]; [reflexivity | apply len_frame].
Qed.

(** [best_len] along the walk, and the candidate recorded. *)
Lemma flat_record fuel s l sf lf ps :
  walk L body cond fuel s l = Some (sf, lf, ps) ->
  best lf = best_after (best l) ps
  /\ (forall pre p post, ps = pre ++ p :: post ->
        best_before p = best_after (best l) pre)
  /\ (best lf = best l -> sf = s)
  /\ (best l < best lf ->
      exists pre p post,
        ps = pre ++ p :: post
        /\ outcome p = Some (best lf)
        /\ improved p = true
        /\ match_start sf = cand p
        /\ forall q len, In q pre -> outcome q = Some len -> len < best lf).
Proof.
  revert fuel s l sf lf ps.
  pose (P := fun (s : deflate_state) (l : L)
                 (r : deflate_state * L * list probe) =>
    best (snd (fst r)) = best_after (best l) (snd r)
    /\ (forall pre p post, snd r = pre ++ p :: post ->
          best_before p = best_after (best l) pre)
    /\ (best (snd (fst r)) = best l -> fst (fst r) = s)
    /\ (best l < best (snd (fst r)) ->
        exists pre p post,
          snd r = pre ++ p :: post
          /\ outcome p = Some (best (snd (fst r)))
          /\ improved p = true
          /\ match_start (fst (fst r)) = cand p
          /\ forall q len, In q pre -> outcome q = Some len ->
                           len < best (snd (fst r)))).
  enough (H : forall fuel s l r, walk L body cond fuel s l = Some r -> P s l r).
  { intros fuel s l sf lf ps Hrun. exact (H _ _ _ _ Hrun). }
  assert (Hlast : forall s l e s' l' ps l'',
             body s l = (e, s', l', ps) ->
             best l'' = best l' ->
             P s l (s', l'', ps)).
  { intros s l e s' l' ps l'' Hbody Hbest. unfold P. simpl_locals.
    destruct (pass_record _ _ _ _ _ _ Hbody) as (R1 & R3 & R4).
    destruct (pass_probe _ _ _ _ _ _ Hbody) as (_ & _ & _ & o & Hps0 & _).
    rewrite Hbest.
    split; [exact R1|]. split.
    { intros pre p post Hps. rewrite Hps0 in Hps.
      destruct (one_probe_split _ _ _ _ Hps) as (-> & -> & _). reflexivity. }
    split; [exact R3|].
    intros Hlt. destruct (R4 Hlt) as [-> ->].
    exists [], (mk_probe (cur l) (best l) (Some (best l'))), [].
    cbn. repeat split; try reflexivity.
    - unfold improved. cbn. apply Z.ltb_lt. exact Hlt.
    - intros q len []. }
  apply (walk_ind L body cond P).
  - intros s l s' l' ps Hbody. eapply Hlast; eauto.
  - intros s l s' l' ps l'' Hbody Hcond.
    eapply Hlast; eauto. eapply flat_cond_keeps_best; eauto.
  - intros s l s' l' ps l'' sf lf ps' Hbody Hcond IH.
    unfold P in *. simpl_locals.
    pose proof (flat_cond_keeps_best _ _ _ _ Hcond) as Hb.
    destruct (pass_record _ _ _ _ _ _ Hbody) as (R1 & R3 & R4).
    destruct (pass_probe _ _ _ _ _ _ Hbody) as (_ & _ & _ & o & Hps0 & _).
    destruct IH as (I1 & I2 & I3 & I4).
    rewrite Hb in *.
    pose proof (best_after_ge ps (best l)) as Hge1.
    pose proof (best_after_ge ps' (best l')) as Hge2.
    split; [rewrite best_after_app, <- R1; exact I1|]. split.
    { intros pre p post Hps. rewrite Hps0 in Hps.
      destruct pre as [|p' pre].
      - cbn in Hps. inversion Hps; subst p. reflexivity.
      - cbn in Hps. inversion Hps as [[Hp' Hrest]].
        rewrite (I2 _ _ _ Hrest).
        change (mk_probe (cur l) (best l) o :: pre)
          with ([mk_probe (cur l) (best l) o] ++ pre).
        rewrite best_after_app, <- Hps0, <- R1. reflexivity. }
    split.
    { intros Heq. rewrite I3 by lia. apply R3. lia. }
    intros Hlt.
    destruct (Z.eq_dec (best lf) (best l')) as [Heq | Hne].
    + rewrite (I3 Heq). rewrite Heq in *.
      destruct (R4 Hlt) as [-> ->].
      exists [], (mk_probe (cur l) (best l) (Some (best l'))), ps'.
      cbn. repeat split; try reflexivity.
      * unfold improved. cbn. apply Z.ltb_lt. exact Hlt.
      * intros q len [].
    + destruct I4 as (pre & p & post & Hps' & Ho & Hi & Hm & Hpre); [lia|].
      exists (ps ++ pre), p, post.
      split; [rewrite Hps', app_assoc; reflexivity|].
      repeat split; try assumption.
      intros q len Hin Hq. apply in_app_or in Hin. destruct Hin as [Hin | Hin].
      * pose proof (best_after_ge_in ps (best l) q len Hin Hq). lia.
      * eapply Hpre; eauto.
Qed.

(** A candidate with a longer match that reaches [nice] is the last one
    probed. *)
Lemma flat_stops fuel s l sf lf ps :
  walk L body cond fuel s l = Some (sf, lf, ps) ->
  forall pre p post len,
    ps = pre ++ p :: post ->
    outcome p = Some len ->
    best_before p < len -> nice <= len ->
    post = [].
Proof.
  revert fuel s l sf lf ps.
  pose (P := fun (s : deflate_state) (l : L)
                 (r : deflate_state * L * list probe) =>
    forall pre p post len,
      snd r = pre ++ p :: post ->
      outcome p = Some len ->
      best_before p < len -> nice <= len ->
      post = []).
  enough (H : forall fuel s l r, walk L body cond fuel s l = Some r -> P s l r).
  { intros fuel s l sf lf ps Hrun. exact (H _ _ _ _ Hrun). }
  assert (Hlast : forall s l e s' l' ps l'',
             body s l = (e, s', l', ps) -> P s l (s', l'', ps)).
  { intros s l e s' l' ps l'' Hbody. unfold P. simpl_locals.
    intros pre p post len Hps _ _ _.
    destruct (pass_probe _ _ _ _ _ _ Hbody) as (_ & _ & _ & o & Hps0 & _).
    rewrite Hps0 in Hps. now destruct (one_probe_split _ _ _ _ Hps). }
  apply (walk_ind L body cond P).
  - intros s l s' l' ps Hbody. eapply Hlast; eauto.
  - intros s l s' l' ps l'' Hbody _. eapply Hlast; eauto.
  - intros s l s' l' ps l'' sf lf ps' Hbody _ IH.
    unfold P in *. simpl_locals.
    intros pre p post len Hps Ho Hlt Hnice.
    destruct (pass_probe _ _ _ _ _ _ Hbody) as (_ & _ & _ & o & Hps0 & _).
    subst ps.
    destruct pre as [|p' pre].
    + cbn in Hps. inversion Hps; subst p. simpl_locals. subst o.
      exfalso. apply (pass_goes_on _ _ _ _ _ _ _ Hbody). auto.
    + cbn in Hps. inversion Hps as [[Hp' Hrest]]. eapply IH; eauto.
Qed.

End FlatWalk.

Lemma equal_run_same s n : forall a, equal_run s n a a = Z.of_nat n.
Proof.
  induction n as [|n IH]; intros a; [reflexivity|].
  cbn [equal_run]. rewrite byte_eqb_refl, IH. lia.
Qed.

Section Std3Walk.

(** What follows holds for either target [t] of std3. *)
Variable MAX_DIST : deflate_state -> Z.
Variable t : std3_target.

(** *** std3 is the walk over [std3_body] *)

Lemma std3_skip_walk limit nice scan_start s : forall fuel l lf cont ps,
  std3_skip fuel s limit scan_start l = Some (lf, cont, ps) ->
  if cont then
    std3_reject s scan_start lf = false
    /\ forall n sf lf' ps',
         walk std3_locals (fun s l => std3_body t s nice scan_start l)
           (fun s l => std3_condition s limit l) n s lf = Some (sf, lf', ps') ->
         exists n',
           walk std3_locals (fun s l => std3_body t s nice scan_start l)
             (fun s l => std3_condition s limit l) n' s l
           = Some (sf, lf', ps ++ ps')
  else
    exists n,
      walk std3_locals (fun s l => std3_body t s nice scan_start l)
        (fun s l => std3_condition s limit l) n s l = Some (s, lf, ps).
Proof.
  induction fuel as [|fuel IH]; intros l lf cont ps Hskip;
    cbn [std3_skip] in Hskip; [discriminate|].
  destruct (std3_reject s scan_start l) eqn:Hrej.
  - cbv zeta in Hskip.
    assert (Hbody : std3_body t s nice scan_start l
                    = (ToCondition, s, l,
                       [mk_probe (l3_cur_match l) (l3_best_len l) None])).
    { unfold std3_body. rewrite Hrej. reflexivity. }
    destruct (prev_at s (Z.land (l3_cur_match l) (w_mask s)) >? limit) eqn:Hlim.
    + destruct (negb (pre_decrement (l3_chain_length l) =? 0)) eqn:Hc.
      * destruct (std3_skip fuel s limit scan_start _)
          as [[[lf0 cont0] ps0]|] eqn:Hrec; [|discriminate].
        injection Hskip as <- <- <-.
        specialize (IH _ _ _ _ Hrec).
        assert (Hcond : std3_condition s limit l
                        = (mk_std3_locals
                             (prev_at s (Z.land (l3_cur_match l) (w_mask s)))
                             (pre_decrement (l3_chain_length l))
                             (l3_best_len l) (l3_scan_end l), true)).
        { unfold std3_condition. rewrite Hlim, Hc. reflexivity. }
        destruct cont0.
        -- destruct IH as [Hrej' IH]. split; [exact Hrej'|].
           intros n sf lf' ps' Hrun.
           destruct (IH _ _ _ _ Hrun) as [n' Hrun'].
           exists (S n'). cbn [walk]. rewrite Hbody, Hcond, Hrun'.
           reflexivity.
        -- destruct IH as [n Hrun]. exists (S n).
           cbn [walk]. rewrite Hbody, Hcond, Hrun. reflexivity.
      * injection Hskip as <- <- <-. exists 1%nat.
        cbn [walk]. rewrite Hbody. unfold std3_condition.
        rewrite Hlim, Hc. reflexivity.
    + injection Hskip as <- <- <-. exists 1%nat.
      cbn [walk]. rewrite Hbody. unfold std3_condition.
      rewrite Hlim. reflexivity.
  - injection Hskip as <- <- <-. split; [exact Hrej|].
    intros n sf lf' ps' Hrun. exists n. exact Hrun.
Qed.

Lemma std3_loop_walk limit nice scan_start : forall fuel s l r,
  std3_loop t fuel s limit nice scan_start l = Some r ->
  exists n,
    walk std3_locals (fun s l => std3_body t s nice scan_start l)
      (fun s l => std3_condition s limit l) n s l = Some r.
Proof.
  induction fuel as [|fuel IH]; intros s l r Hrun; [discriminate|].
  cbn [std3_loop] in Hrun.
  destruct (std3_skip (S fuel) s limit scan_start l)
    as [[[l1 cont] ps]|] eqn:Hskip; [|discriminate].
  pose proof (std3_skip_walk limit nice scan_start s _ _ _ _ _ Hskip) as Hw.
  destruct cont.
  - destruct Hw as [Hrej Hw]. cbv zeta in Hrun.
    assert (Hbody : std3_body t s nice scan_start l1 =
              let len := std3_len t s (l3_cur_match l1) in
              let p := mk_probe (l3_cur_match l1) (l3_best_len l1) (Some len) in
              if len >? l3_best_len l1 then
                let s' := set_match_start s (l3_cur_match l1) in
                if len >=? nice then
                  (Break, s',
                   mk_std3_locals (l3_cur_match l1) (l3_chain_length l1) len
                     (l3_scan_end l1), [p])
                else
                  (ToCondition, s',
                   mk_std3_locals (l3_cur_match l1) (l3_chain_length l1) len
                     (load_le s 4 (strstart s + len - 3)), [p])
              else (ToCondition, s, l1, [p])).
    { unfold std3_body. rewrite Hrej. reflexivity. }
    cbv zeta in Hbody.
    destruct (std3_len t s (l3_cur_match l1) >? l3_best_len l1).
    + destruct (std3_len t s (l3_cur_match l1) >=? nice).
      * injection Hrun as <-. apply (Hw 1%nat).
        cbn [walk]. rewrite Hbody. reflexivity.
      * destruct (std3_condition _ limit _) as [l3 go] eqn:Hcond.
        destruct go.
        -- destruct (std3_loop t fuel _ limit nice scan_start l3)
             as [[[s'' lf] ps']|] eqn:Hrec; [|discriminate].
           injection Hrun as <-.
           destruct (IH _ _ _ Hrec) as [n Hn].
           apply (Hw (S n)). cbn [walk]. rewrite Hbody, Hcond, Hn.
           reflexivity.
        -- injection Hrun as <-. apply (Hw 1%nat).
           cbn [walk]. rewrite Hbody, Hcond. reflexivity.
    + destruct (std3_condition s limit l1) as [l3 go] eqn:Hcond.
      destruct go.
      * destruct (std3_loop t fuel s limit nice scan_start l3)
          as [[[s'' lf] ps']|] eqn:Hrec; [|discriminate].
        injection Hrun as <-.
        destruct (IH _ _ _ Hrec) as [n Hn].
        apply (Hw (S n)). cbn [walk]. rewrite Hbody, Hcond, Hn.
        reflexivity.
      * injection Hrun as <-. apply (Hw 1%nat).
        cbn [walk]. rewrite Hbody, Hcond. reflexivity.
  - destruct Hw as [n Hn]. injection Hrun as <-. eauto.
Qed.

(** *** The call returns *)

Lemma std3_skip_total limit scan_start s : forall fuel l,
  walk_bound (l3_chain_length l) <= Z.of_nat fuel ->
  exists lf cont ps,
    std3_skip fuel s limit scan_start l = Some (lf, cont, ps)
    /\ (cont = true ->
        walk_bound (l3_chain_length lf) <= walk_bound (l3_chain_length l)).
Proof.
  induction fuel as [|fuel IH]; intros l Hfuel.
  - pose proof (pre_decrement_range (l3_chain_length l)).
    unfold walk_bound in Hfuel. lia.
  - cbn [std3_skip].
    destruct (std3_reject s scan_start l).
    + cbv zeta.
      destruct (prev_at s (Z.land (l3_cur_match l) (w_mask s)) >? limit).
      * destruct (negb (pre_decrement (l3_chain_length l) =? 0)) eqn:Hc.
        -- apply negb_true_iff, Z.eqb_neq in Hc.
           pose proof (walk_bound_step _ Hc) as Hstep.
           destruct (IH (mk_std3_locals
                           (prev_at s (Z.land (l3_cur_match l) (w_mask s)))
                           (pre_decrement (l3_chain_length l))
                           (l3_best_len l) (l3_scan_end l)))
             as (lf & cont & ps & Hrec & Hb).
           { simpl_locals3. lia. }
           rewrite Hrec. eexists _, _, _. split; [reflexivity|].
           intros Hcont. specialize (Hb Hcont). simpl_locals3. lia.
        -- eexists _, _, _. split; [reflexivity | discriminate].
      * eexists _, _, _. split; [reflexivity | discriminate].
    + eexists _, _, _. split; [reflexivity|]. intros _. lia.
Qed.

Lemma std3_loop_total limit nice scan_start : forall fuel s l,
  walk_bound (l3_chain_length l) <= Z.of_nat fuel ->
  exists r, std3_loop t fuel s limit nice scan_start l = Some r.
Proof.
  induction fuel as [|fuel IH]; intros s l Hfuel.
  - pose proof (pre_decrement_range (l3_chain_length l)).
    unfold walk_bound in Hfuel. lia.
  - cbn [std3_loop].
    destruct (std3_skip_total limit scan_start s (S fuel) l Hfuel)
      as (l1 & cont & ps & Hskip & Hb).
    rewrite Hskip. destruct cont; [|eauto].
    specialize (Hb eq_refl). cbv zeta.
    assert (Hnext : forall s' l2,
               l3_chain_length l2 = l3_chain_length l1 ->
               exists r,
                 match std3_condition s' limit l2 with
                 | (l3, true) =>
                     match std3_loop t fuel s' limit nice scan_start l3 with
                     | Some (s'', lf, ps') =>
                         Some (s'', lf,
                               ps ++ mk_probe (l3_cur_match l1) (l3_best_len l1)
                                       (Some (std3_len t s (l3_cur_match l1)))
                                     :: ps')
                     | None => None
                     end
                 | (l3, false) =>
                     Some (s', l3,
                           ps ++ [mk_probe (l3_cur_match l1) (l3_best_len l1)
                                    (Some (std3_len t s (l3_cur_match l1)))])
                 end = Some r).
    { intros s' l2 Hchain. unfold std3_condition.
      destruct (prev_at s' (Z.land (l3_cur_match l2) (w_mask s')) >? limit);
        [|eauto].
      destruct (negb (pre_decrement (l3_chain_length l2) =? 0)) eqn:Hc;
        [|eauto].
      apply negb_true_iff, Z.eqb_neq in Hc.
      pose proof (walk_bound_step _ Hc) as Hstep.
      destruct (IH s' (mk_std3_locals
                         (prev_at s' (Z.land (l3_cur_match l2) (w_mask s')))
                         (pre_decrement (l3_chain_length l2))
                         (l3_best_len l2) (l3_scan_end l2)))
        as [[[s'' lf] ps'] Hrec].
      { simpl_locals3. rewrite Hchain in *. lia. }
      rewrite Hrec. eauto. }
    destruct (std3_len t s (l3_cur_match l1) >? l3_best_len l1).
    + destruct (std3_len t s (l3_cur_match l1) >=? nice); [eauto|].
      apply Hnext. reflexivity.
    + apply Hnext. reflexivity.
Qed.

(** *** What one pass of std3 does *)

Lemma std3_len_range s c : 4 <= std3_len t s c <= MAX_MATCH.
Proof.
  pose proof (std3_len_short t s c) as Hshort.
  rewrite std3_len_spec in Hshort.
  pose proof (equal_run_bounds s 254 (strstart s + 4) (c + 4)).
  unfold MAX_MATCH. lia.
Qed.

Lemma load_le_frame s m n : forall p,
  load_le (set_match_start s m) n p = load_le s n p.
Proof.
  induction n as [|n IH]; intros p; [reflexivity|].
  change (load_le (set_match_start s m) (S n) p)
    with (byte_value (byte_at s p)
          + 256 * load_le (set_match_start s m) n (p + 1)).
  rewrite IH. reflexivity.
Qed.

Lemma std3_extend_frame s m strend : forall r scan mtch,
  std3_extend t (set_match_start s m) r strend scan mtch
  = std3_extend t s r strend scan mtch.
Proof.
  induction r as [|r IH]; intros scan mtch; [reflexivity|].
  rewrite !std3_extend_unfold, !load_le_frame, IH. reflexivity.
Qed.

Lemma std3_len_frame s m c :
  std3_len t (set_match_start s m) c = std3_len t s c.
Proof.
  unfold std3_len. rewrite std3_extend_frame. reflexivity.
Qed.

Lemma std3_pass_probe nice scan_start s l e s' l' ps :
  std3_body t s nice scan_start l = (e, s', l', ps) ->
  l3_chain_length l' = l3_chain_length l
  /\ l3_cur_match l' = l3_cur_match l
  /\ (s' = s \/ s' = set_match_start s (l3_cur_match l))
  /\ exists o, ps = [mk_probe (l3_cur_match l) (l3_best_len l) o]
               /\ forall len, o = Some len -> len = std3_len t s (l3_cur_match l).
Proof.
  unfold std3_body. intros Hbody.
  destruct (std3_reject s scan_start l).
  { injection Hbody as <- <- <- <-. repeat split; auto.
    eexists. split; [reflexivity|]. intros len [=]. }
  cbv zeta in Hbody.
  destruct (std3_len t s (l3_cur_match l) >? l3_best_len l);
    [destruct (std3_len t s (l3_cur_match l) >=? nice)|];
    injection Hbody as <- <- <- <-; repeat split; auto;
    eexists; (split; [reflexivity|]); intros len [= <-]; reflexivity.
Qed.

Lemma std3_pass_record nice scan_start s l e s' l' ps :
  std3_body t s nice scan_start l = (e, s', l', ps) ->
  l3_best_len l' = best_after (l3_best_len l) ps
  /\ (l3_best_len l' = l3_best_len l -> s' = s)
  /\ (l3_best_len l < l3_best_len l' ->
      ps = [mk_probe (l3_cur_match l) (l3_best_len l) (Some (l3_best_len l'))]
      /\ s' = set_match_start s (l3_cur_match l)).
Proof.
  unfold std3_body. intros Hbody.
  destruct (std3_reject s scan_start l).
  { injection Hbody as <- <- <- <-. unfold best_after, best_with.
    cbn [fold_left outcome]. repeat split; (reflexivity || lia). }
  cbv zeta in Hbody.
  destruct (std3_len t s (l3_cur_match l) >? l3_best_len l) eqn:Hgt;
    [destruct (std3_len t s (l3_cur_match l) >=? nice)|];
    injection Hbody as <- <- <- <-; unfold best_after, best_with;
    cbn [fold_left outcome]; simpl_locals3;
    (split; [lia|]); (split; [intros; first [reflexivity | lia]|]);
    intros; first [lia | split; reflexivity].
Qed.

Lemma std3_pass_goes_on nice scan_start s l s' l' c b len :
  std3_body t s nice scan_start l
  = (ToCondition, s', l', [mk_probe c b (Some len)]) ->
  ~ (b < len /\ nice <= len).
Proof.
  unfold std3_body. intros Hbody.
  destruct (std3_reject s scan_start l); [discriminate|].
  cbv zeta in Hbody.
  destruct (std3_len t s (l3_cur_match l) >? l3_best_len l) eqn:Hgt;
    [destruct (std3_len t s (l3_cur_match l) >=? nice) eqn:Hnice|];
    inversion Hbody; subst; lia.
Qed.

Lemma std3_condition_true s limit l :
  snd (std3_condition s limit l) = true ->
  limit < l3_cur_match (fst (std3_condition s limit l))
  /\ l3_chain_length (fst (std3_condition s limit l))
     = pre_decrement (l3_chain_length l)
  /\ l3_chain_length (fst (std3_condition s limit l)) <> 0.
Proof.
  unfold std3_condition.
  destruct (prev_at s (Z.land (l3_cur_match l) (w_mask s)) >? limit) eqn:Hlim;
    simpl_locals3; intros Hc; [|discriminate].
  apply negb_true_iff, Z.eqb_neq in Hc. repeat split; (reflexivity || lia).
Qed.

Lemma std3_condition_best_len s limit l :
  l3_best_len (fst (std3_condition s limit l)) = l3_best_len l.
Proof.
  unfold std3_condition.
  destruct (prev_at s (Z.land (l3_cur_match l) (w_mask s)) >? limit); reflexivity.
Qed.

(** *** The quick check of std3 *)

(** Two 32-bit loads are equal exactly when the four bytes are. *)
Lemma load_le_equal s (n : nat) p q :
  load_le s n p = load_le s n q <-> equal_run s n p q = Z.of_nat n.
Proof.
  destruct (load_le_xor s n p q) as [Heq Hne].
  pose proof (equal_run_bounds s n p q) as Hb.
  split.
  - intros Hload.
    destruct (Z.eq_dec (equal_run s n p q) (Z.of_nat n)) as [E | E]; [exact E|].
    destruct Hne as [Hpos _]; [lia|].
    rewrite Hload, Z.lxor_nilpotent in Hpos. lia.
  - intros Hrun. apply Z.lxor_eq. now apply Heq.
Qed.

Lemma load_le_bytes s (n : nat) p q :
  load_le s n p = load_le s n q ->
  forall i, 0 <= i < Z.of_nat n -> byte_at s (p + i) = byte_at s (q + i).
Proof.
  intros Hload i Hi. apply (equal_run_below s n).
  apply load_le_equal in Hload. lia.
Qed.

Lemma load_le_differ s (n : nat) p q :
  load_le s n p <> load_le s n q ->
  exists i, 0 <= i < Z.of_nat n /\ byte_at s (p + i) <> byte_at s (q + i).
Proof.
  intros Hload. pose proof (equal_run_bounds s n p q) as Hb.
  exists (equal_run s n p q).
  assert (Hlt : equal_run s n p q < Z.of_nat n).
  { destruct (Z.eq_dec (equal_run s n p q) (Z.of_nat n)) as [E | E]; [|lia].
    exfalso. apply Hload. now apply load_le_equal. }
  split; [lia|]. now apply equal_run_stop.
Qed.

(** With the builtin of 64 bits std3 compares every byte from the fifth
    on. *)
Lemma std3_len_exact s c :
  load_le s 4 c = load_le s 4 (strstart s) ->
  std3_len gnuc_lp64 s c = match_length s c.
Proof.
  intros Hload. rewrite std3_len_spec.
  rewrite (match_length_after s c 4); [reflexivity | lia |].
  intros i Hi. symmetry. now apply (load_le_bytes s 4).
Qed.

(** For either target, [len] is at most the length of the match and short
    of it by no more than [std3_shortfall]. *)
Lemma std3_len_close s c :
  load_le s 4 c = load_le s 4 (strstart s) ->
  std3_len t s c <= match_length s c <= std3_len t s c + std3_shortfall t.
Proof.
  intros Hload. rewrite <- (std3_len_exact s c Hload).
  pose proof (std3_len_short t s c). lia.
Qed.

(** The current string against itself: no two words differ, and [len] is
    [MAX_MATCH] whatever [__builtin_ctzl] is. *)
Lemma std3_extend_self s strend : forall r scan,
  std3_extend t s r strend scan scan
  = std3_extend gnuc_lp64 s r strend scan scan.
Proof.
  induction r as [|r IH]; intros scan; [reflexivity|].
  rewrite !std3_extend_unfold, Z.lxor_nilpotent. cbn [Z.eqb negb].
  rewrite IH. reflexivity.
Qed.

Lemma std3_len_self s : std3_len t s (strstart s) = MAX_MATCH.
Proof.
  assert (H64 : std3_len gnuc_lp64 s (strstart s) = MAX_MATCH).
  { rewrite std3_len_exact by reflexivity.
    unfold match_length. apply (equal_run_same s 258). }
  unfold std3_len in *. rewrite std3_extend_self. exact H64.
Qed.

Lemma std3_checked_frame s m p :
  std3_checked t (set_match_start s m) p -> std3_checked t s p.
Proof.
  unfold std3_checked.
  destruct (outcome p); rewrite ?match_length_frame, ?std3_len_frame; auto.
Qed.

Lemma std3_body_keeps scan_start nice s l e s' l' ps :
  std3_scan_end_kept scan_start s l ->
  std3_body t s nice scan_start l = (e, s', l', ps) ->
  Forall (std3_checked t s) ps
  /\ (e = ToCondition -> std3_scan_end_kept scan_start s' l')
  /\ exists m, s' = set_match_start s m.
Proof.
  intros Hkept Hbody. pose proof Hkept as (Hstart & Hend).
  unfold std3_body in Hbody.
  destruct (std3_reject s scan_start l) eqn:Hrej.
  { injection Hbody as <- <- <- <-.
    split; [|split; [auto | apply same_state]].
    constructor; [|constructor]. unfold std3_checked. simpl_locals3.
    unfold std3_reject in Hrej. rewrite Hend, <- Hstart in Hrej.
    apply orb_true_iff in Hrej.
    destruct Hrej as [H | H]; apply negb_true_iff, Z.eqb_neq in H; auto. }
  cbv zeta in Hbody.
  unfold std3_reject in Hrej. rewrite Hend, <- Hstart in Hrej.
  apply orb_false_iff in Hrej. destruct Hrej as [He H0].
  apply negb_false_iff, Z.eqb_eq in He, H0.
  pose proof (std3_len_close s (l3_cur_match l) H0) as Hlen.
  assert (Hprobe : Forall (std3_checked t s)
            [mk_probe (l3_cur_match l) (l3_best_len l)
               (Some (std3_len t s (l3_cur_match l)))]).
  { constructor; [|constructor]. unfold std3_checked. simpl_locals3. auto. }
  destruct (std3_len t s (l3_cur_match l) >? l3_best_len l);
    [destruct (std3_len t s (l3_cur_match l) >=? nice)|];
    injection Hbody as <- <- <- <-;
    (split; [exact Hprobe|]);
    (split; [|eauto using same_state]);
    try discriminate; try (intros _; exact Hkept).
  intros _. unfold std3_scan_end_kept. simpl_locals3.
  split; [exact Hstart | reflexivity].
Qed.

Lemma std3_condition_keeps scan_start limit s l :
  std3_scan_end_kept scan_start s l ->
  std3_scan_end_kept scan_start s (fst (std3_condition s limit l)).
Proof.
  intros Hkept. unfold std3_condition.
  destruct (prev_at s (Z.land (l3_cur_match l) (w_mask s)) >? limit);
    exact Hkept.
Qed.

(** *** The call *)

(** The call of std3 returns, and its outcome is that of the walk over
    [std3_body]. *)
Lemma std3_run s cur_match :
  exists n sf lf ps r,
    walk std3_locals
      (fun s0 l => std3_body t s0 (std3_nice_match s) (load_le s 4 (strstart s)) l)
      (fun s0 l => std3_condition s0 (chain_limit MAX_DIST s) l)
      n s (std3_initial_locals s cur_match) = Some (sf, lf, ps)
    /\ r = mk_outcome
             (if to_unsigned (l3_best_len lf) <=? lookahead sf
              then to_unsigned (l3_best_len lf) else lookahead sf)
             sf (l3_best_len lf) ps
    /\ std3_longest_match MAX_DIST t s cur_match = Some r
    /\ std3_summary MAX_DIST t s cur_match r.
Proof.
  pose (nice := std3_nice_match s). pose (limit := chain_limit MAX_DIST s).
  pose (scan_start := load_le s 4 (strstart s)).
  destruct (std3_loop_total limit nice scan_start
              (Z.to_nat (walk_bound (std3_chain_length s))) s
              (std3_initial_locals s cur_match)) as [[[sf lf] ps] Hloop].
  { cbn [std3_initial_locals l3_chain_length].
    pose proof (pre_decrement_range (std3_chain_length s)).
    unfold walk_bound. lia. }
  destruct (std3_loop_walk _ _ _ _ _ _ _ Hloop) as [n Hrun].
  exists n, sf, lf, ps.
  exists (mk_outcome
            (if to_unsigned (l3_best_len lf) <=? lookahead sf
             then to_unsigned (l3_best_len lf) else lookahead sf)
            sf (l3_best_len lf) ps).
  split; [exact Hrun|]. split; [reflexivity|].
  split.
  { unfold std3_longest_match. cbv zeta.
    change (std3_loop t _ s (chain_limit MAX_DIST s) _ _ _)
      with (std3_loop t (Z.to_nat (walk_bound (std3_chain_length s))) s limit
              nice scan_start (std3_initial_locals s cur_match)).
    rewrite Hloop. reflexivity. }
  pose proof (fun s0 l0 e s' l' ps0 =>
                std3_pass_probe nice scan_start s0 l0 e s' l' ps0) as Hprobe.
  pose proof (fun s0 l0 e s' l' ps0 =>
                std3_pass_record nice scan_start s0 l0 e s' l' ps0) as Hrecord.
  pose proof (fun s0 l0 s' l' c b len =>
                std3_pass_goes_on nice scan_start s0 l0 s' l' c b len) as Hgoes.
  pose proof (fun s0 l0 => std3_condition_best_len s0 limit l0) as Hbest.
  pose proof (fun s0 l0 => std3_condition_true s0 limit l0) as Htrue.
  pose proof (flat_frame std3_locals l3_cur_match l3_chain_length l3_best_len
                (std3_len t) _ _ Hprobe _ _ _ _ _ _ Hrun) as Hframe.
  destruct (flat_probes std3_locals l3_cur_match l3_chain_length l3_best_len
              (std3_len t) _ _ limit Hprobe Htrue std3_len_frame _ _ _ _ _ _ Hrun)
    as (P1 & P2 & P3).
  destruct (flat_record std3_locals l3_cur_match l3_chain_length l3_best_len
              (std3_len t) _ _ Hprobe Hrecord Hbest _ _ _ _ _ _ Hrun)
    as (R1 & R2 & R3 & R4).
  pose proof (flat_stops std3_locals l3_cur_match l3_chain_length l3_best_len
                (std3_len t) _ _ nice Hprobe Hgoes _ _ _ _ _ _ Hrun) as Hstops.
  assert (Hchecked : Forall (std3_checked t s) ps).
  { refine (walk_invariant std3_locals _ _ (std3_scan_end_kept scan_start)
              (std3_checked t) _ _ _ _ s _ sf lf ps _ Hrun).
    - intros s0 l0 e s' l' ps0 Hk Hb. eapply std3_body_keeps; eauto.
    - intros s0 l0 Hk. now apply std3_condition_keeps.
    - apply std3_checked_frame.
    - split; reflexivity. }
  cbn [std3_initial_locals l3_cur_match l3_chain_length l3_best_len] in *.
  constructor; simpl_locals3; try assumption.
  rewrite Hframe. reflexivity.
Qed.

Lemma std3_call s cur_match :
  exists r,
    std3_longest_match MAX_DIST t s cur_match = Some r
    /\ std3_summary MAX_DIST t s cur_match r.
Proof.
  destruct (std3_run s cur_match) as (n & sf & lf & ps & r & _ & _ & Hr & W).
  eauto.
Qed.

(** *** Properties of the call of std3 *)

Lemma to_unsigned_small x : 0 <= x < UINT_RANGE -> to_unsigned x = x.
Proof. intros Hx. unfold to_unsigned. now apply Z.mod_small. Qed.

Lemma to_int_small x : 0 <= x < 2 ^ 31 -> to_int x = x.
Proof.
  intros Hx. unfold to_int, UINT_RANGE.
  rewrite Z.mod_small by lia. lia.
Qed.

Lemma std3_checked_len s p len :
  std3_checked t s p -> outcome p = Some len ->
  len = std3_len t s (cand p)
  /\ len <= match_length s (cand p) <= len + std3_shortfall t
  /\ 4 <= len <= MAX_MATCH.
Proof.
  unfold std3_checked. intros Hc Ho. rewrite Ho in Hc.
  destruct Hc as (_ & _ & Hlen & Hclose).
  pose proof (std3_len_range s (cand p)) as Hr.
  split; [exact Hlen|]. split; [exact Hclose | lia].
Qed.

Lemma std3_summary_best_len s cur_match r :
  std3_summary MAX_DIST t s cur_match r ->
  to_int (prev_length s) <= final_best_len r
  /\ final_best_len r <= Z.max (to_int (prev_length s)) MAX_MATCH.
Proof.
  intros W. rewrite (w3_best _ _ _ _ _ W). split.
  - apply best_after_ge.
  - apply best_after_le. eapply Forall_impl; [|exact (w3_checked _ _ _ _ _ W)].
    cbv beta. intros p Hp len Ho.
    apply (std3_checked_len _ _ _ Hp Ho).
Qed.

(** The call of std3 returns for every state and candidate.  It probes at
    most [1 + (chain_length - 1) mod 2^32] candidates, which is the budget
    [chain_length] of lines 340 and 365-367 when that is at least 1; it
    extends no candidate beyond [MAX_MATCH] bytes nor reports less than 4;
    and the value returned never exceeds [s->lookahead]. *)
Theorem std3_returns_within_budget s cur_match :
  exists r,
    std3_longest_match MAX_DIST t s cur_match = Some r
    /\ Z.of_nat (List.length (examined r)) <= walk_bound (std3_chain_length s)
    /\ (1 <= std3_chain_length s < UINT_RANGE ->
        Z.of_nat (List.length (examined r)) <= std3_chain_length s
        /\ std3_chain_length s <= max_chain_length s)
    /\ Forall (fun p => forall len, outcome p = Some len ->
                                    4 <= len <= MAX_MATCH) (examined r)
    /\ returned r <= lookahead s.
Proof.
  destruct (std3_call s cur_match) as (r & Hr & W).
  exists r. split; [exact Hr|].
  pose proof (w3_count _ _ _ _ _ W) as P3.
  split; [exact P3|]. split; [|split].
  - intros Hc. split.
    + unfold walk_bound, pre_decrement in P3.
      rewrite Z.mod_small in P3 by lia. lia.
    + unfold std3_chain_length in *.
      destruct (prev_length s >=? good_match s); [|lia].
      destruct (Z_lt_le_dec (max_chain_length s) 0) as [Hneg | Hpos].
      * pose proof (Z.shiftr_neg (max_chain_length s) 2). lia.
      * now apply shiftr2_le.
  - eapply Forall_impl; [|exact (w3_checked _ _ _ _ _ W)].
    cbv beta. intros p Hp len Ho. apply (std3_checked_len _ _ _ Hp Ho).
  - rewrite (w3_returned _ _ _ _ _ W).
    destruct (to_unsigned (final_best_len r) <=? lookahead s) eqn:E; lia.
Qed.

(** std3 assigns nothing but [s->match_start], and that only for a [len]
    greater than the initial [best_len], which is [(int)s->prev_length];
    when no candidate improves on it, the state is as before the call. *)
Theorem std3_only_match_start_written s cur_match :
  exists r,
    std3_longest_match MAX_DIST t s cur_match = Some r
    /\ final_state r = set_match_start s (match_start (final_state r))
    /\ window (final_state r) = window s
    /\ prev (final_state r) = prev s
    /\ (forall p, In p (examined r) -> improved p = true ->
          exists len, outcome p = Some len /\ to_int (prev_length s) < len)
    /\ ((forall p, In p (examined r) -> improved p = false) ->
        final_state r = s /\ final_best_len r = to_int (prev_length s)).
Proof.
  destruct (std3_call s cur_match) as (r & Hr & W).
  exists r. split; [exact Hr|].
  pose proof (w3_frame _ _ _ _ _ W) as Hframe.
  split; [exact Hframe|].
  split; [rewrite Hframe; reflexivity|].
  split; [rewrite Hframe; reflexivity|].
  split.
  - intros p Hin Himp. apply in_split in Hin. destruct Hin as (pre & post & Hps).
    pose proof (w3_best_before _ _ _ _ _ W _ _ _ Hps) as Hb.
    pose proof (best_after_ge pre (to_int (prev_length s))).
    unfold improved in Himp. destruct (outcome p) as [len|]; [|discriminate].
    apply Z.ltb_lt in Himp. exists len. split; [reflexivity | lia].
  - intros Hnone.
    destruct (std3_summary_best_len _ _ _ W) as [Hge _].
    destruct (Z.eq_dec (final_best_len r) (to_int (prev_length s)))
      as [Heq | Hne].
    + split; [exact (w3_unchanged _ _ _ _ _ W Heq) | exact Heq].
    + destruct (w3_recorded _ _ _ _ _ W)
        as (pre & p & post & Hps & _ & Himp & _); [lia|].
      rewrite (Hnone p) in Himp; [discriminate|].
      rewrite Hps. apply in_or_app. right. left. reflexivity.
Qed.

(** std3 reports matches of four bytes at least, and no match longer than
    it is.  The [len] of every candidate it extends is at most the number
    of leading bytes, of the first 258, on which the candidate agrees with
    the current string, and short of that number by no more than
    [std3_shortfall]: it is that number with the builtin of 64 bits, and
    can be up to 3 less with the [__builtin_ctzl] of lines 323-328.  When
    the call improves on the initial [best_len], the same holds of the final
    [best_len] and the match at [match_start], which agrees with the
    current string on as many bytes as the call returns. *)
Theorem std3_reports_match_lengths s cur_match :
  exists r,
    std3_longest_match MAX_DIST t s cur_match = Some r
    /\ (forall p len, In p (examined r) -> outcome p = Some len ->
          4 <= len
          /\ len <= match_length s (cand p) <= len + std3_shortfall t)
    /\ (to_int (prev_length s) < final_best_len r ->
        4 <= final_best_len r
        /\ final_best_len r <= match_length s (match_start (final_state r))
           <= final_best_len r + std3_shortfall t
        /\ forall i, 0 <= i < returned r ->
             byte_at s (match_start (final_state r) + i)
             = byte_at s (strstart s + i)).
Proof.
  destruct (std3_call s cur_match) as (r & Hr & W).
  exists r. split; [exact Hr|].
  pose proof (w3_checked _ _ _ _ _ W) as Hall. rewrite Forall_forall in Hall.
  split.
  { intros p len Hin Ho.
    destruct (std3_checked_len _ _ _ (Hall p Hin) Ho) as (_ & Hclose & Hrange).
    split; [lia | exact Hclose]. }
  intros Hlt.
  destruct (w3_recorded _ _ _ _ _ W Hlt)
    as (pre & p & post & Hps & Ho & _ & Hm & _).
  assert (Hin : In p (examined r))
    by (rewrite Hps; apply in_or_app; right; left; reflexivity).
  destruct (std3_checked_len _ _ _ (Hall p Hin) Ho) as (_ & Hclose & Hrange).
  rewrite Hm. split; [lia|]. split; [exact Hclose|].
  apply match_length_bytes.
  rewrite (w3_returned _ _ _ _ _ W).
  rewrite to_unsigned_small by (unfold UINT_RANGE, MAX_MATCH in *; lia).
  destruct (final_best_len r <=? lookahead s) eqn:E; lia.
Qed.

(** The quick check of std3 (line 390) rejects a candidate only if it
    differs from the current string on a byte at one of the offsets
    [best_len - 3 .. best_len] or [0 .. 3].  With [best_len] below 3 the
    first range begins before the two strings. *)
Theorem std3_rejects_on_a_differing_byte s cur_match :
  exists r,
    std3_longest_match MAX_DIST t s cur_match = Some r
    /\ forall p, In p (examined r) -> outcome p = None ->
         exists i,
           (best_before p - 3 <= i <= best_before p \/ 0 <= i <= 3)
           /\ byte_at s (cand p + i) <> byte_at s (strstart s + i).
Proof.
  destruct (std3_call s cur_match) as (r & Hr & W).
  exists r. split; [exact Hr|].
  pose proof (w3_checked _ _ _ _ _ W) as Hall. rewrite Forall_forall in Hall.
  intros p Hin Ho. specialize (Hall p Hin). unfold std3_checked in Hall.
  rewrite Ho in Hall.
  destruct Hall as [Hend | Hstart].
  - destruct (load_le_differ s 4 _ _ Hend) as (j & Hj & Hne).
    exists (best_before p - 3 + j). split; [left; lia|].
    replace (cand p + (best_before p - 3 + j))
      with (cand p + best_before p - 3 + j) by lia.
    replace (strstart s + (best_before p - 3 + j))
      with (strstart s + best_before p - 3 + j) by lia.
    exact Hne.
  - destruct (load_le_differ s 4 _ _ Hstart) as (j & Hj & Hne).
    exists j. split; [right; lia | exact Hne].
Qed.

(** When [prev_length] is 3 or more, no candidate that std3 examined has
    a match with the current string that is longer than the [best_len] the
    walk ends with by more than [std3_shortfall]: none has a longer match
    with the builtin of 64 bits, and with the [__builtin_ctzl] of lines
    323-328 a match can exceed the final [best_len] by up to 3 bytes. *)
Theorem std3_examined_candidates_no_longer s cur_match :
  3 <= prev_length s < 2 ^ 31 ->
  exists r,
    std3_longest_match MAX_DIST t s cur_match = Some r
    /\ Forall (fun p => match_length s (cand p)
                        <= final_best_len r + std3_shortfall t)
         (examined r).
Proof.
  intros Hprev.
  destruct (std3_call s cur_match) as (r & Hr & W).
  exists r. split; [exact Hr|].
  pose proof (w3_checked _ _ _ _ _ W) as Hall.
  assert (Hshort : 0 <= std3_shortfall t) by (destruct t; cbn; lia).
  rewrite Forall_forall in *. intros p Hin.
  specialize (Hall p Hin).
  apply in_split in Hin. destruct Hin as (pre & post & Hps).
  pose proof (w3_best_before _ _ _ _ _ W _ _ _ Hps) as Hb.
  pose proof (best_after_ge pre (to_int (prev_length s))) as Hpre.
  rewrite to_int_small in Hpre, Hb by lia.
  assert (Hfinal : best_with (best_before p) p <= final_best_len r).
  { rewrite (w3_best _ _ _ _ _ W), Hps, best_after_app, best_after_cons.
    rewrite to_int_small by lia. rewrite <- Hb. apply best_after_ge. }
  unfold std3_checked in Hall. unfold best_with in Hfinal.
  destruct (outcome p) as [len|].
  - destruct Hall as (_ & _ & _ & Hclose). lia.
  - assert (Hd : forall i, 0 <= i <= best_before p ->
               byte_at s (cand p + i) <> byte_at s (strstart s + i) ->
               match_length s (cand p) <= best_before p).
    { intros i Hi Hne. unfold match_length.
      pose proof (equal_run_differ s 258 (strstart s) (cand p) i) as Hd.
      assert (equal_run s 258 (strstart s) (cand p) <= i); [|lia].
      apply Hd; [lia | congruence]. }
    assert (match_length s (cand p) <= best_before p); [|lia].
    destruct Hall as [Hend | Hstart].
    + destruct (load_le_differ s 4 _ _ Hend) as (j & Hj & Hne).
      apply (Hd (best_before p - 3 + j)); [lia|].
      replace (cand p + (best_before p - 3 + j))
        with (cand p + best_before p - 3 + j) by lia.
      replace (strstart s + (best_before p - 3 + j))
        with (strstart s + best_before p - 3 + j) by lia.
      exact Hne.
    + destruct (load_le_differ s 4 _ _ Hstart) as (j & Hj & Hne).
      apply (Hd j); [lia | exact Hne].
Qed.

(** The policy of the walk of std3.  [best_len] ends as the greatest [len]
    probed or as its initial value; [match_start] is then the first
    candidate, in chain order, that reached it, and a later candidate with
    the same [len] is not recorded; a candidate whose [len] exceeds
    [best_len] and reaches [nice_match] (line 430) is the last one
    probed. *)
Theorem std3_first_longest_wins s cur_match :
  exists r,
    std3_longest_match MAX_DIST t s cur_match = Some r
    /\ final_best_len r = best_after (to_int (prev_length s)) (examined r)
    /\ (to_int (prev_length s) < final_best_len r ->
        exists pre p post,
          examined r = pre ++ p :: post
          /\ outcome p = Some (final_best_len r)
          /\ match_start (final_state r) = cand p
          /\ forall q len, In q pre -> outcome q = Some len ->
                           len < final_best_len r)
    /\ (forall pre p mid q post len,
          examined r = pre ++ p :: mid ++ q :: post ->
          outcome p = Some len -> outcome q = Some len ->
          improved q = false)
    /\ (forall pre p post len,
          examined r = pre ++ p :: post ->
          outcome p = Some len ->
          best_before p < len -> std3_nice_match s <= len ->
          post = []
          /\ match_start (final_state r) = cand p
          /\ final_best_len r = len).
Proof.
  destruct (std3_call s cur_match) as (r & Hr & W).
  exists r. split; [exact Hr|].
  pose proof (w3_best _ _ _ _ _ W) as R1.
  split; [exact R1|]. split; [|split].
  - intros Hlt.
    destruct (w3_recorded _ _ _ _ _ W Hlt)
      as (pre & p & post & Hps & Ho & _ & Hm & Hpre).
    exists pre, p, post. auto.
  - intros pre p mid q post len Hps Hp Hq.
    rewrite app_comm_cons, app_assoc in Hps.
    pose proof (w3_best_before _ _ _ _ _ W _ _ _ Hps) as Hb.
    pose proof (best_after_ge_in (pre ++ p :: mid) (to_int (prev_length s))
                  p len) as Hge.
    unfold improved. rewrite Hq. apply Z.ltb_ge. rewrite Hb.
    apply Hge; [|exact Hp]. apply in_or_app. right. left. reflexivity.
  - intros pre p post len Hps Ho Hlt Hge.
    assert (Hpost : post = []) by (eapply (w3_stops _ _ _ _ _ W); eauto).
    subst post. split; [reflexivity|].
    pose proof (w3_best_before _ _ _ _ _ W _ _ _ Hps) as Hb.
    pose proof (best_after_ge pre (to_int (prev_length s))) as Hge0.
    assert (Hfinal : final_best_len r = len).
    { rewrite R1, Hps, best_after_app, <- Hb. cbn. unfold best_with.
      rewrite Ho. lia. }
    split; [|exact Hfinal].
    destruct (w3_recorded _ _ _ _ _ W)
      as (pre' & p' & post' & Hps' & Ho' & _ & Hm & _); [lia|].
    rewrite Hps in Hps'.
    destruct (snoc_split _ _ _ _ _ _ Hps') as [(_ & _ & <-) | Hin];
      [exact Hm|].
    pose proof (best_after_ge_in pre (to_int (prev_length s)) p' _ Hin Ho').
    lia.
Qed.

(** std3 does not test [cur_match] against [strstart] (line 377 is an
    [Assert]) nor the candidate the call starts at against [limit]: that
    candidate is always probed, and the candidates reached through the
    chain lie beyond [limit].  Called with [cur_match = strstart] and a
    [prev_length] below 258, it records the current string as its own match:
    [match_start] is [strstart] and [best_len] is 258. *)
Theorem std3_probes_the_head_unchecked s cur_match :
  exists r,
    std3_longest_match MAX_DIST t s cur_match = Some r
    /\ (exists p rest,
          examined r = p :: rest /\ cand p = cur_match
          /\ Forall (fun q => chain_limit MAX_DIST s < cand q) rest)
    /\ (cur_match = strstart s -> to_int (prev_length s) < MAX_MATCH ->
        match_start (final_state r) = strstart s
        /\ final_best_len r = MAX_MATCH
        /\ returned r = Z.min MAX_MATCH (lookahead s)).
Proof.
  destruct (std3_call s cur_match) as (r & Hr & W).
  exists r. split; [exact Hr|].
  pose proof (w3_chain _ _ _ _ _ W) as Hchain.
  split; [exact Hchain|].
  intros -> Hprev.
  destruct Hchain as (p & rest & Hps & Hcand & _).
  pose proof (w3_checked _ _ _ _ _ W) as Hall. rewrite Hps in Hall.
  inversion Hall as [|? ? Hp _]; subst.
  pose proof (w3_best_before _ _ _ _ _ W [] p rest Hps) as Hb.
  change (best_after (to_int (prev_length s)) []) with (to_int (prev_length s))
    in Hb.
  assert (Ho : outcome p = Some MAX_MATCH).
  { unfold std3_checked in Hp. rewrite Hcand in Hp.
    destruct (outcome p) as [len|].
    - destruct Hp as (_ & _ & -> & _). now rewrite std3_len_self.
    - destruct Hp as [H | H]; exfalso; apply H; reflexivity. }
  destruct (std3_summary_best_len _ _ _ W) as [_ Hhi].
  pose proof (best_after_ge_in (examined r) (to_int (prev_length s)) p _
                ltac:(rewrite Hps; left; reflexivity) Ho) as Hlo.
  rewrite <- (w3_best _ _ _ _ _ W) in Hlo.
  assert (Hfinal : final_best_len r = MAX_MATCH) by lia.
  split; [|split; [exact Hfinal|]].
  - destruct (w3_recorded _ _ _ _ _ W)
      as (pre & p' & post & Hps' & Ho' & _ & Hm & Hpre); [lia|].
    rewrite Hps in Hps'. destruct pre as [|q pre].
    + cbn in Hps'. inversion Hps'; subst p'. now rewrite Hm.
    + cbn in Hps'. inversion Hps'; subst q.
      specialize (Hpre p _ ltac:(left; reflexivity) Ho). lia.
  - rewrite (w3_returned _ _ _ _ _ W), Hfinal.
    rewrite to_unsigned_small by (unfold UINT_RANGE, MAX_MATCH; lia).
    destruct (MAX_MATCH <=? lookahead s) eqn:E; lia.
Qed.

End Std3Walk.

(** ** std3 against std2 *)

(** The loop does not depend on the fuel it is given beyond what it
    needs. *)
Lemma walk_deterministic (L : Type)
  (body : deflate_state -> L -> body_end * deflate_state * L * list probe)
  (cond : deflate_state -> L -> L * bool) :
  forall n m s l r r',
    walk L body cond n s l = Some r ->
    walk L body cond m s l = Some r' ->
    r = r'.
Proof.
  induction n as [|n IH]; intros m s l r r' Hn Hm; [discriminate|].
  destruct m as [|m]; [discriminate|].
  cbn [walk] in Hn, Hm.
  destruct (body s l) as [[[e s'] l'] ps].
  destruct e; [congruence|].
  destruct (cond s' l') as [l'' go].
  destruct go; [|congruence].
  destruct (walk L body cond n s' l'') as [[[s1 lf1] ps1]|] eqn:H1;
    [|discriminate].
  destruct (walk L body cond m s' l'') as [[[s2 lf2] ps2]|] eqn:H2;
    [|discriminate].
  pose proof (IH _ _ _ _ _ H1 H2) as Heq. congruence.
Qed.

(** The entries of a chain table that are all below a position. *)
Lemma prev_at_below s b :
  0 < b -> forallb (fun v => v <? b) (prev s) = true ->
  forall i, prev_at s i < b.
Proof.
  intros Hb Hall i. unfold prev_at. destruct (i <? 0); [lia|].
  destruct (nth_in_or_default (Z.to_nat i) (prev s) 0) as [Hin | ->]; [|lia].
  rewrite forallb_forall in Hall. specialize (Hall _ Hin). lia.
Qed.

Section Std3Std2.

Variable MAX_DIST : deflate_state -> Z.
Variable TRIGGER_LEVEL : Z.

(** A candidate that the quick check of std3 lets through passes the one
    of std2. *)
Lemma std3_check_implies_std2 scan2 scan3 s l2 l3 :
  same_walk l2 l3 ->
  std2_scan_end_kept scan2 s l2 ->
  std3_scan_end_kept scan3 s l3 ->
  3 <= l3_best_len l3 ->
  std3_reject s scan3 l3 = false ->
  std2_reject s scan2 l2 = false
  /\ std3_len gnuc_lp64 s (l3_cur_match l3) = match_length s (l3_cur_match l3)
  /\ std2_len s (l2_cur_match l2) = match_length s (l3_cur_match l3).
Proof.
  intros (Hc & _ & Hb) (Hs2 & _ & He2) (Hs3 & He3) H3 Hrej.
  unfold std3_reject in Hrej. rewrite He3, <- Hs3 in Hrej.
  apply orb_false_iff in Hrej. destruct Hrej as [Hend Hstart].
  apply negb_false_iff, Z.eqb_eq in Hend, Hstart.
  pose proof (load_le_bytes s 4 _ _ Hend) as Bend.
  pose proof (load_le_bytes s 4 _ _ Hstart) as Bstart.
  change (Z.of_nat 4) with 4 in Bend, Bstart.
  split; [|split].
  - unfold std2_reject. rewrite He2, <- Hs2, Hc, Hb, !load16_eqb.
    pose proof (Bend 2 ltac:(lia)) as E2. pose proof (Bend 3 ltac:(lia)) as E3.
    pose proof (Bstart 0 ltac:(lia)) as E0.
    pose proof (Bstart 1 ltac:(lia)) as E1.
    rewrite !Z.add_0_r in E0.
    replace (l3_cur_match l3 + l3_best_len l3 - 3 + 2)
      with (l3_cur_match l3 + l3_best_len l3 - 1) in E2 by lia.
    replace (strstart s + l3_best_len l3 - 3 + 2)
      with (strstart s + l3_best_len l3 - 1) in E2 by lia.
    replace (l3_cur_match l3 + l3_best_len l3 - 3 + 3)
      with (l3_cur_match l3 + l3_best_len l3 - 1 + 1) in E3 by lia.
    replace (strstart s + l3_best_len l3 - 3 + 3)
      with (strstart s + l3_best_len l3 - 1 + 1) in E3 by lia.
    rewrite E0, E1, E2, E3, !byte_eqb_refl. reflexivity.
  - now apply std3_len_exact.
  - rewrite Hc. apply std2_len_exact.
    specialize (Bstart 0 ltac:(lia)). rewrite !Z.add_0_r in Bstart.
    now symmetry.
Qed.

(** A candidate that the quick check of std3 rejects could not have
    improved on a [best_len] of 3 or more. *)
Lemma std3_rejected_no_longer scan3 s l3 :
  std3_scan_end_kept scan3 s l3 ->
  3 <= l3_best_len l3 ->
  std3_reject s scan3 l3 = true ->
  match_length s (l3_cur_match l3) <= l3_best_len l3.
Proof.
  intros (Hs3 & He3) H3 Hrej.
  unfold std3_reject in Hrej. rewrite He3, <- Hs3 in Hrej.
  assert (Hd : forall i, 0 <= i <= l3_best_len l3 ->
             byte_at s (l3_cur_match l3 + i) <> byte_at s (strstart s + i) ->
             match_length s (l3_cur_match l3) <= l3_best_len l3).
  { intros i Hi Hne. unfold match_length.
    pose proof (equal_run_differ s 258 (strstart s) (l3_cur_match l3) i) as Hd.
    assert (equal_run s 258 (strstart s) (l3_cur_match l3) <= i); [|lia].
    apply Hd; [lia | congruence]. }
  apply orb_true_iff in Hrej.
  destruct Hrej as [H | H]; apply negb_true_iff, Z.eqb_neq in H;
    destruct (load_le_differ s 4 _ _ H) as (j & Hj & Hne);
    change (Z.of_nat 4) with 4 in Hj.
  - apply (Hd (l3_best_len l3 - 3 + j)); [lia|].
    replace (l3_cur_match l3 + (l3_best_len l3 - 3 + j))
      with (l3_cur_match l3 + l3_best_len l3 - 3 + j) by lia.
    replace (strstart s + (l3_best_len l3 - 3 + j))
      with (strstart s + l3_best_len l3 - 3 + j) by lia.
    exact Hne.
  - apply (Hd j); [lia | exact Hne].
Qed.

(** One pass of std2 does what the pass of std3 does, where [best_len] is
    3 or more, the candidate lies before [strstart] and the level does not
    cut the walk of std2 short; only a candidate that std3 rejects may be
    extended by std2, to no effect. *)
Lemma std3_std2_pass nice scan2 scan3 s l2 l3 e s' l3' ps3 :
  TRIGGER_LEVEL <= level s ->
  same_walk l2 l3 ->
  std2_scan_end_kept scan2 s l2 ->
  std3_scan_end_kept scan3 s l3 ->
  3 <= l3_best_len l3 ->
  l3_cur_match l3 < strstart s ->
  std3_body gnuc_lp64 s nice scan3 l3 = (e, s', l3', ps3) ->
  exists l2' ps2,
    std2_body TRIGGER_LEVEL s nice scan2 l2 = (e, s', l2', ps2)
    /\ same_walk l2' l3'
    /\ map cand ps2 = map cand ps3
    /\ 3 <= l3_best_len l3'.
Proof.
  intros Hlevel Hsame Hk2 Hk3 H3 Hcur Hbody.
  pose proof Hsame as (Hc & Hch & Hb).
  unfold std2_body. unfold std3_body in Hbody.
  replace (l2_cur_match l2 >=? strstart s) with false by lia.
  replace (level s <? TRIGGER_LEVEL) with false by lia.
  destruct (std3_reject s scan3 l3) eqn:Hrej3.
  - injection Hbody as <- <- <- <-.
    pose proof (std3_rejected_no_longer _ _ _ Hk3 H3 Hrej3) as Hshort.
    destruct (std2_reject s scan2 l2) eqn:Hrej2.
    + eexists _, _. split; [reflexivity|]. cbn [map cand].
      rewrite Hc. auto.
    + cbv zeta.
      assert (Hlen : std2_len s (l2_cur_match l2)
                     = match_length s (l3_cur_match l3)).
      { rewrite Hc. apply std2_len_exact.
        destruct Hk2 as (Hs2 & _). rewrite <- Hs2 in Hrej2.
        destruct (std2_reject_false _ _ Hrej2) as [H0 _].
        now rewrite <- Hc. }
      replace (std2_len s (l2_cur_match l2) >? l2_best_len l2) with false
        by lia.
      eexists _, _. split; [reflexivity|]. cbn [map cand].
      rewrite Hc. auto.
  - destruct (std3_check_implies_std2 _ _ _ _ _ Hsame Hk2 Hk3 H3 Hrej3)
      as (Hrej2 & Hlen3 & Hlen2).
    rewrite Hrej2. cbv zeta in *. rewrite Hlen2. rewrite Hlen3 in Hbody.
    rewrite Hb, Hc, Hch.
    destruct (match_length s (l3_cur_match l3) >? l3_best_len l3) eqn:Hgt.
    + destruct (match_length s (l3_cur_match l3) >=? nice);
        injection Hbody as <- <- <- <-;
        (eexists _, _; split; [reflexivity|]);
        unfold same_walk; simpl_locals3; repeat split; lia.
    + injection Hbody as <- <- <- <-.
      eexists _, _. split; [reflexivity|]. cbn [map cand]. auto.
Qed.

Lemma std3_std2_condition limit s l2 l3 :
  same_walk l2 l3 ->
  snd (std2_condition s limit l2) = snd (std3_condition s limit l3)
  /\ l2_best_len (fst (std2_condition s limit l2))
     = l3_best_len (fst (std3_condition s limit l3))
  /\ (snd (std3_condition s limit l3) = true ->
      same_walk (fst (std2_condition s limit l2))
        (fst (std3_condition s limit l3))
      /\ l3_cur_match (fst (std3_condition s limit l3))
         = prev_at s (Z.land (l3_cur_match l3) (w_mask s))).
Proof.
  intros (Hc & Hch & Hb). unfold std2_condition, std3_condition.
  rewrite Hc, Hch.
  destruct (pre_decrement (l3_chain_length l3) =? 0) eqn:E0;
    destruct (prev_at s (Z.land (l3_cur_match l3) (w_mask s)) >? limit) eqn:E1;
    simpl_locals3; cbn [negb];
    (split; [reflexivity|]); (split; [assumption|]);
    intros H; try discriminate H.
  unfold same_walk. simpl_locals3. auto.
Qed.

Lemma prev_at_frame s m i : prev_at (set_match_start s m) i = prev_at s i.
Proof. reflexivity. Qed.

(** The walk of std2 makes the assignments of the walk of std3 and visits
    the same candidates. *)
Lemma std3_std2_walk limit nice scan2 scan3 : forall n s l2 l3 sf lf3 ps3,
  TRIGGER_LEVEL <= level s ->
  (forall i, prev_at s i < strstart s) ->
  same_walk l2 l3 ->
  std2_scan_end_kept scan2 s l2 ->
  std3_scan_end_kept scan3 s l3 ->
  3 <= l3_best_len l3 ->
  l3_cur_match l3 < strstart s ->
  walk std3_locals (fun s l => std3_body gnuc_lp64 s nice scan3 l)
    (fun s l => std3_condition s limit l) n s l3 = Some (sf, lf3, ps3) ->
  exists lf2 ps2,
    walk std2_locals (fun s l => std2_body TRIGGER_LEVEL s nice scan2 l)
      (fun s l => std2_condition s limit l) n s l2 = Some (sf, lf2, ps2)
    /\ l2_best_len lf2 = l3_best_len lf3
    /\ map cand ps2 = map cand ps3.
Proof.
  induction n as [|n IH];
    intros s l2 l3 sf lf3 ps3 Hlevel Hprev Hsame Hk2 Hk3 H3 Hcur Hrun;
    [discriminate|].
  cbn [walk] in *.
  destruct (std3_body gnuc_lp64 s nice scan3 l3) as [[[e s'] l3'] ps] eqn:Hbody3.
  destruct (std3_std2_pass _ _ _ _ _ _ _ _ _ _ Hlevel Hsame Hk2 Hk3 H3 Hcur
              Hbody3) as (l2' & ps2 & Hbody2 & Hsame' & Hcands & H3').
  rewrite Hbody2.
  destruct e.
  - injection Hrun as <- <- <-. eexists _, _. split; [reflexivity|].
    split; [apply Hsame' | exact Hcands].
  - destruct (std2_body_keeps _ _ _ _ _ _ _ _ _ Hk2 Hbody2)
      as (_ & Hk2' & m & Hs').
    destruct (std3_body_keeps _ _ _ _ _ _ _ _ _ Hk3 Hbody3) as (_ & Hk3' & _).
    specialize (Hk2' eq_refl). specialize (Hk3' eq_refl).
    destruct (std3_std2_condition limit s' l2' l3' Hsame')
      as (Hgo & Hbest & Hnext).
    pose proof (std2_condition_keeps scan2 limit s' l2' Hk2') as Hk2''.
    pose proof (std3_condition_keeps scan3 limit s' l3' Hk3') as Hk3''.
    pose proof (std3_condition_best_len s' limit l3') as Hb3.
    destruct (std3_condition s' limit l3') as [l3'' go3].
    destruct (std2_condition s' limit l2') as [l2'' go2].
    simpl_locals3. subst go2.
    destruct go3.
    + destruct (walk std3_locals _ _ n s' l3'') as [[[sf' lf'] ps']|] eqn:Hrec;
        [|discriminate].
      injection Hrun as <- <- <-.
      destruct (Hnext eq_refl) as [Hsame'' Hcur''].
      destruct (IH s' l2'' l3'' sf' lf' ps') as (lf2 & ps2' & Hrun2 & Hb2 & Hc2);
        try assumption.
      * rewrite Hs'. exact Hlevel.
      * intros i. rewrite Hs'. apply Hprev.
      * lia.
      * rewrite Hcur'', Hs'. apply Hprev.
      * rewrite Hrun2. eexists _, _. split; [reflexivity|].
        split; [exact Hb2|]. rewrite !map_app. congruence.
    + injection Hrun as <- <- <-. eexists _, _. split; [reflexivity|].
      split; [exact Hbest | exact Hcands].
Qed.

Lemma std3_std2_call s cur_match :
  3 <= prev_length s < 2 ^ 31 ->
  0 <= nice_match s < 2 ^ 31 ->
  0 <= lookahead s ->
  TRIGGER_LEVEL <= level s ->
  cur_match < strstart s ->
  (forall i, prev_at s i < strstart s) ->
  exists r2 r3,
    std2_longest_match MAX_DIST TRIGGER_LEVEL s cur_match = Some r2
    /\ std3_longest_match MAX_DIST gnuc_lp64 s cur_match = Some r3
    /\ returned r3 = returned r2
    /\ final_state r3 = final_state r2
    /\ final_best_len r3 = final_best_len r2
    /\ map cand (examined r3) = map cand (examined r2).
Proof.
  intros Hprev Hnice Hlook Hlevel Hcur Hchain.
  destruct (std3_run MAX_DIST gnuc_lp64 s cur_match)
    as (n & sf & lf3 & ps3 & r3 & Hrun3 & Hr3 & Hcall3 & W).
  assert (Hbest0 : initial_best_len s = prev_length s).
  { unfold initial_best_len. destruct (prev_length s =? 0) eqn:E; lia. }
  assert (Hint : to_int (prev_length s) = prev_length s)
    by (apply to_int_small; lia).
  assert (Hnice3 : std3_nice_match s = effective_nice_match s).
  { unfold std3_nice_match, effective_nice_match.
    rewrite to_unsigned_small by (unfold UINT_RANGE; lia).
    destruct (nice_match s >? lookahead s) eqn:E; [|reflexivity].
    apply to_int_small. lia. }
  rewrite Hnice3 in Hrun3.
  destruct (std3_std2_walk (chain_limit MAX_DIST s) (effective_nice_match s)
              (load16 s (strstart s)) (load_le s 4 (strstart s))
              n s (std2_initial_locals s cur_match)
              (std3_initial_locals s cur_match) sf lf3 ps3)
    as (lf2 & ps2 & Hrun2 & Hbest & Hcands); try assumption.
  { unfold same_walk, std2_initial_locals, std3_initial_locals.
    simpl_locals3. rewrite Hbest0, Hint.
    split; [reflexivity|]. split; [|reflexivity].
    unfold initial_chain_length, std3_chain_length. now rewrite Hbest0. }
  { unfold std2_scan_end_kept, std2_initial_locals. simpl_locals.
    split; [reflexivity|]. split; [lia | reflexivity]. }
  { split; reflexivity. }
  { cbn [std3_initial_locals l3_best_len]. lia. }
  exists (mk_outcome (clamp_to_lookahead sf (l2_best_len lf2)) sf
            (l2_best_len lf2) ps2), r3.
  split.
  { unfold std2_longest_match. rewrite std2_loop_walk.
    pose proof (fun s0 l0 => std2_body_cases TRIGGER_LEVEL s0
                               (effective_nice_match s)
                               (load16 s (strstart s)) l0) as Hbody.
    pose proof (fun s0 l0 => std2_condition_true s0
                               (chain_limit MAX_DIST s) l0) as Htrue.
    destruct (walk_total _ _ _ _ _ _ _ _ _ _ Hbody Htrue
                (Z.to_nat (walk_bound (initial_chain_length s))) s
                (std2_initial_locals s cur_match)) as [[[sf' lf'] ps'] Hfull].
    { cbn [std2_initial_locals l2_chain_length].
      pose proof (pre_decrement_range (initial_chain_length s)).
      unfold walk_bound. lia. }
    rewrite Hfull.
    pose proof (walk_deterministic _ _ _ _ _ _ _ _ _ Hrun2 Hfull) as Heq.
    injection Heq as <- <- <-. reflexivity. }
  split; [exact Hcall3|].
  destruct (std3_summary_best_len _ _ _ _ _ W) as [Hlo Hhi].
  subst r3. simpl_locals3.
  rewrite Hbest. split; [|auto].
  rewrite to_unsigned_small
    by (unfold UINT_RANGE, MAX_MATCH in *; lia).
  reflexivity.
Qed.

(** Where std2 and std3 start from the same [best_len] of 3 or more, the
    level does not cut the walk of std2 short and the chain leads to
    positions before [strstart] only, std3 with the builtin of 64 bits
    returns what std2 returns, leaves the state that std2 leaves and visits
    the candidates that std2 visits. *)
Theorem std3_agrees_with_std2 s cur_match :
  3 <= prev_length s < 2 ^ 31 ->
  0 <= nice_match s < 2 ^ 31 ->
  0 <= lookahead s ->
  TRIGGER_LEVEL <= level s ->
  cur_match < strstart s ->
  (forall i, prev_at s i < strstart s) ->
  exists r2 r3,
    std2_longest_match MAX_DIST TRIGGER_LEVEL s cur_match = Some r2
    /\ std3_longest_match MAX_DIST gnuc_lp64 s cur_match = Some r3
    /\ returned r3 = returned r2
    /\ final_state r3 = final_state r2
    /\ final_best_len r3 = final_best_len r2
    /\ map cand (examined r3) = map cand (examined r2).
Proof. exact (std3_std2_call s cur_match). Qed.

(** C1 (as amended).  std1 and std2 return the same length, leave the same
    state and probe the same candidates whenever every candidate that
    passed the quick check of std1 agrees with the current string on the
    third byte, which is what the hash chain promises.  std3 is written for
    matches of four bytes or more (line 355): where [prev_length] is 3 or
    more, so that no shorter match can improve on it, the level does not
    cut the walk short and the chain leads to positions before [strstart]
    only, std3 with the builtin of 64 bits returns that same length, leaves
    the same state and visits the same candidates. *)
Theorem variants_agree s cur_match :
  exists r,
    std1_longest_match MAX_DIST TRIGGER_LEVEL s cur_match = Some r
    /\ (forallb (third_byte_agrees s) (examined r) = true ->
        std2_longest_match MAX_DIST TRIGGER_LEVEL s cur_match = Some r
        /\ (3 <= prev_length s < 2 ^ 31 ->
            0 <= nice_match s < 2 ^ 31 ->
            0 <= lookahead s ->
            TRIGGER_LEVEL <= level s ->
            cur_match < strstart s ->
            (forall i, prev_at s i < strstart s) ->
            exists r3,
              std3_longest_match MAX_DIST gnuc_lp64 s cur_match = Some r3
              /\ returned r3 = returned r
              /\ final_state r3 = final_state r
              /\ final_best_len r3 = final_best_len r
              /\ map cand (examined r3) = map cand (examined r))).
Proof.
  destruct (std1_agrees_with_std2 MAX_DIST TRIGGER_LEVEL s cur_match)
    as (r & H1 & H2).
  exists r. split; [exact H1|]. intros Hthird.
  specialize (H2 Hthird). split; [exact H2|].
  intros Hprev Hnice Hlook Hlevel Hcur Hchain.
  destruct (std3_std2_call s cur_match Hprev Hnice Hlook Hlevel Hcur Hchain)
    as (r2 & r3 & E2 & E3 & Hr & Hs & Hb & Hc).
  rewrite H2 in E2. injection E2 as <-.
  exists r3. auto.
Qed.

End Std3Std2.

(** ** std33 against std2 *)

Arguments std33_len : simpl never.
Arguments std33_reject : simpl never.

Section Std33Std2.

Variable MAX_DIST : deflate_state -> Z.
Variable TRIGGER_LEVEL : Z.

(** *** The comparator and the quick check *)

Lemma std33_extend_eq s strend : forall r scan mtch,
  std33_extend s r strend scan mtch
  = std3_extend gnuc_lp64 s r strend scan mtch.
Proof.
  induction r as [|r IH]; intros scan mtch; [reflexivity|].
  cbn [std33_extend std3_extend ctzl_of]. rewrite IH. reflexivity.
Qed.

(** std33 compares every byte from the third on. *)
Lemma std33_len_spec s c :
  std33_len s c = 2 + equal_run s 256 (strstart s + 2) (c + 2).
Proof.
  unfold std33_len. rewrite std33_extend_eq.
  pose proof (std3_extend_spec s 32 256 (strstart s + 2) (c + 2)) as H.
  replace (strstart s + 2 + Z.of_nat 256) with (strstart s + MAX_MATCH) in H
    by (unfold MAX_MATCH; lia).
  specialize (H ltac:(lia)).
  destruct (std3_extend gnuc_lp64 s 32 (strstart s + MAX_MATCH)
              (strstart s + 2) (c + 2)
            >? strstart s + MAX_MATCH) eqn:E; unfold MAX_MATCH in *; lia.
Qed.

Lemma std33_len_exact s c :
  byte_at s (strstart s) = byte_at s c ->
  byte_at s (strstart s + 1) = byte_at s (c + 1) ->
  std33_len s c = match_length s c.
Proof.
  intros H0 H1. rewrite std33_len_spec.
  rewrite (match_length_after s c 2); [reflexivity | lia |].
  intros i Hi. assert (Hc : i = 0 \/ i = 1) by lia.
  destruct Hc as [-> | ->]; [rewrite !Z.add_0_r|]; assumption.
Qed.

Lemma std33_reject_eq s scan_start l :
  std33_reject s scan_start l = std2_reject s scan_start l.
Proof.
  unfold std33_reject, std2_reject.
  destruct (negb (load16 s (l2_cur_match l + l2_best_len l - 1) =? l2_scan_end l));
    reflexivity.
Qed.

Lemma std33_condition_agrees s limit l :
  snd (std33_condition s limit l) = snd (std2_condition s limit l)
  /\ l2_best_len (fst (std33_condition s limit l))
     = l2_best_len (fst (std2_condition s limit l))
  /\ (snd (std33_condition s limit l) = true ->
      fst (std33_condition s limit l) = fst (std2_condition s limit l)).
Proof.
  unfold std33_condition, std2_condition.
  destruct (pre_decrement (l2_chain_length l) =? 0) eqn:E0;
    destruct (prev_at s (Z.land (l2_cur_match l) (w_mask s)) >? limit) eqn:E1;
    simpl_locals; cbn [negb]; repeat split; intros; try reflexivity;
    discriminate.
Qed.

(** *** The call returns *)

Lemma std33_skip_total limit scan_start s : forall fuel l,
  walk_bound (l2_chain_length l) <= Z.of_nat fuel ->
  exists lf cont ps,
    std33_skip fuel s limit scan_start l = Some (lf, cont, ps)
    /\ (cont = true ->
        walk_bound (l2_chain_length lf) <= walk_bound (l2_chain_length l)).
Proof.
  induction fuel as [|fuel IH]; intros l Hfuel.
  - pose proof (pre_decrement_range (l2_chain_length l)).
    unfold walk_bound in Hfuel. lia.
  - cbn [std33_skip].
    destruct (std33_reject s scan_start l).
    + cbv zeta.
      destruct (prev_at s (Z.land (l2_cur_match l) (w_mask s)) >? limit).
      * destruct (negb (pre_decrement (l2_chain_length l) =? 0)) eqn:Hc.
        -- apply negb_true_iff, Z.eqb_neq in Hc.
           pose proof (walk_bound_step _ Hc) as Hstep.
           destruct (IH (mk_std2_locals
                           (prev_at s (Z.land (l2_cur_match l) (w_mask s)))
                           (pre_decrement (l2_chain_length l))
                           (l2_best_len l) (l2_scan_end l)))
             as (lf & cont & ps & Hrec & Hb).
           { simpl_locals. lia. }
           rewrite Hrec. eexists _, _, _. split; [reflexivity|].
           intros Hcont. specialize (Hb Hcont). simpl_locals. lia.
        -- eexists _, _, _. split; [reflexivity | discriminate].
      * eexists _, _, _. split; [reflexivity | discriminate].
    + eexists _, _, _. split; [reflexivity|]. intros _. lia.
Qed.

Lemma std33_loop_total limit nice scan_start : forall fuel s l,
  walk_bound (l2_chain_length l) <= Z.of_nat fuel ->
  exists r, std33_loop TRIGGER_LEVEL fuel s limit nice scan_start l = Some r.
Proof.
  induction fuel as [|fuel IH]; intros s l Hfuel.
  - pose proof (pre_decrement_range (l2_chain_length l)).
    unfold walk_bound in Hfuel. lia.
  - cbn [std33_loop].
    destruct (l2_cur_match l >=? strstart s); [eauto|].
    destruct (std33_skip_total limit scan_start s (S fuel) l Hfuel)
      as (l1 & cont & ps & Hskip & Hb).
    rewrite Hskip. destruct cont; [|eauto].
    specialize (Hb eq_refl). cbv zeta.
    assert (Hnext : forall s' l2,
               l2_chain_length l2 = l2_chain_length l1 ->
               exists r,
                 match std33_condition s' limit l2 with
                 | (l3, true) =>
                     match std33_loop TRIGGER_LEVEL fuel s' limit nice
                             scan_start l3 with
                     | Some (s'', lf, ps') =>
                         Some (s'', lf,
                               ps ++ mk_probe (l2_cur_match l1) (l2_best_len l1)
                                       (Some (std33_len s (l2_cur_match l1)))
                                     :: ps')
                     | None => None
                     end
                 | (l3, false) =>
                     Some (s', l3,
                           ps ++ [mk_probe (l2_cur_match l1) (l2_best_len l1)
                                    (Some (std33_len s (l2_cur_match l1)))])
                 end = Some r).
    { intros s' l2 Hchain. unfold std33_condition.
      destruct (prev_at s' (Z.land (l2_cur_match l2) (w_mask s')) >? limit);
        [|eauto].
      destruct (negb (pre_decrement (l2_chain_length l2) =? 0)) eqn:Hc;
        [|eauto].
      apply negb_true_iff, Z.eqb_neq in Hc.
      pose proof (walk_bound_step _ Hc) as Hstep.
      destruct (IH s' (mk_std2_locals
                         (prev_at s' (Z.land (l2_cur_match l2) (w_mask s')))
                         (pre_decrement (l2_chain_length l2))
                         (l2_best_len l2) (l2_scan_end l2)))
        as [[[s'' lf] ps'] Hrec].
      { simpl_locals. rewrite Hchain in *. lia. }
      rewrite Hrec. eauto. }
    destruct (std33_len s (l2_cur_match l1) >? l2_best_len l1).
    + destruct (std33_len s (l2_cur_match l1) >=? nice); [eauto|].
      apply Hnext. reflexivity.
    + destruct (level s <? TRIGGER_LEVEL); [eauto|].
      apply Hnext. reflexivity.
Qed.

(** *** std33 is a walk over the body of std2 *)

(** Where the chain leads to positions before [strstart] only, the inner
    loop of std33, which does not test the position of the candidates it
    moves to, passes through the body of std2 for each of them. *)
Lemma std33_skip_walk limit nice scan_start s :
  (forall i, prev_at s i < strstart s) ->
  forall fuel l lf cont ps,
    l2_cur_match l < strstart s ->
    std33_skip fuel s limit scan_start l = Some (lf, cont, ps) ->
    if cont then
      std33_reject s scan_start lf = false
      /\ l2_cur_match lf < strstart s
      /\ forall n sf lf' ps',
           walk std2_locals
             (fun s l => std2_body TRIGGER_LEVEL s nice scan_start l)
             (fun s l => std33_condition s limit l) n s lf
           = Some (sf, lf', ps') ->
           exists n',
             walk std2_locals
               (fun s l => std2_body TRIGGER_LEVEL s nice scan_start l)
               (fun s l => std33_condition s limit l) n' s l
             = Some (sf, lf', ps ++ ps')
    else
      exists n,
        walk std2_locals
          (fun s l => std2_body TRIGGER_LEVEL s nice scan_start l)
          (fun s l => std33_condition s limit l) n s l = Some (s, lf, ps).
Proof.
  intros Hprev.
  induction fuel as [|fuel IH]; intros l lf cont ps Hcur Hskip;
    cbn [std33_skip] in Hskip; [discriminate|].
  destruct (std33_reject s scan_start l) eqn:Hrej.
  - cbv zeta in Hskip.
    assert (Hbody : std2_body TRIGGER_LEVEL s nice scan_start l
                    = (ToCondition, s, l,
                       [mk_probe (l2_cur_match l) (l2_best_len l) None])).
    { unfold std2_body. rewrite <- std33_reject_eq, Hrej.
      replace (l2_cur_match l >=? strstart s) with false by lia.
      reflexivity. }
    destruct (prev_at s (Z.land (l2_cur_match l) (w_mask s)) >? limit) eqn:Hlim.
    + destruct (negb (pre_decrement (l2_chain_length l) =? 0)) eqn:Hc.
      * destruct (std33_skip fuel s limit scan_start _)
          as [[[lf0 cont0] ps0]|] eqn:Hrec; [|discriminate].
        injection Hskip as <- <- <-.
        specialize (fun H => IH _ _ _ _ H Hrec). simpl_locals.
        specialize (IH (Hprev _)).
        assert (Hcond : std33_condition s limit l
                        = (mk_std2_locals
                             (prev_at s (Z.land (l2_cur_match l) (w_mask s)))
                             (pre_decrement (l2_chain_length l))
                             (l2_best_len l) (l2_scan_end l), true)).
        { unfold std33_condition. rewrite Hlim, Hc. reflexivity. }
        destruct cont0.
        -- destruct IH as (Hrej' & Hcur' & IH).
           split; [exact Hrej'|]. split; [exact Hcur'|].
           intros n sf lf' ps' Hrun.
           destruct (IH _ _ _ _ Hrun) as [n' Hrun'].
           exists (S n'). cbn [walk]. rewrite Hbody, Hcond, Hrun'.
           reflexivity.
        -- destruct IH as [n Hrun]. exists (S n).
           cbn [walk]. rewrite Hbody, Hcond, Hrun. reflexivity.
      * injection Hskip as <- <- <-. exists 1%nat.
        cbn [walk]. rewrite Hbody. unfold std33_condition.
        rewrite Hlim, Hc. reflexivity.
    + injection Hskip as <- <- <-. exists 1%nat.
      cbn [walk]. rewrite Hbody. unfold std33_condition.
      rewrite Hlim. reflexivity.
  - injection Hskip as <- <- <-. split; [exact Hrej|]. split; [exact Hcur|].
    intros n sf lf' ps' Hrun. exists n. exact Hrun.
Qed.

Lemma std33_loop_walk limit nice scan_start : forall fuel s l r,
  (forall i, prev_at s i < strstart s) ->
  load16 s (strstart s) = scan_start ->
  std33_loop TRIGGER_LEVEL fuel s limit nice scan_start l = Some r ->
  exists n,
    walk std2_locals (fun s l => std2_body TRIGGER_LEVEL s nice scan_start l)
      (fun s l => std33_condition s limit l) n s l = Some r.
Proof.
  induction fuel as [|fuel IH]; intros s l r Hprev Hstart Hrun;
    [discriminate|].
  cbn [std33_loop] in Hrun.
  destruct (l2_cur_match l >=? strstart s) eqn:Hfut.
  { injection Hrun as <-. exists 1%nat. cbn [walk].
    unfold std2_body. rewrite Hfut. reflexivity. }
  destruct (std33_skip (S fuel) s limit scan_start l)
    as [[[l1 cont] ps]|] eqn:Hskip; [|discriminate].
  assert (Hcur : l2_cur_match l < strstart s) by lia.
  pose proof (std33_skip_walk limit nice scan_start s Hprev _ _ _ _ _
                Hcur Hskip) as Hw.
  destruct cont.
  - destruct Hw as (Hrej & Hcur1 & Hw). cbv zeta in Hrun.
    assert (Hlen : std2_len s (l2_cur_match l1) = std33_len s (l2_cur_match l1)).
    { rewrite std33_reject_eq, <- Hstart in Hrej.
      destruct (std2_reject_false _ _ Hrej) as [H0 H1].
      rewrite std2_len_exact, std33_len_exact by assumption. reflexivity. }
    assert (Hbody : std2_body TRIGGER_LEVEL s nice scan_start l1 =
              let len := std33_len s (l2_cur_match l1) in
              let p := mk_probe (l2_cur_match l1) (l2_best_len l1) (Some len) in
              if len >? l2_best_len l1 then
                let s' := set_match_start s (l2_cur_match l1) in
                if len >=? nice then
                  (Break, s',
                   mk_std2_locals (l2_cur_match l1) (l2_chain_length l1) len
                     (l2_scan_end l1), [p])
                else
                  (ToCondition, s',
                   mk_std2_locals (l2_cur_match l1) (l2_chain_length l1) len
                     (load16 s (strstart s + len - 1)), [p])
              else if level s <? TRIGGER_LEVEL then (Break, s, l1, [p])
              else (ToCondition, s, l1, [p])).
    { unfold std2_body. rewrite <- std33_reject_eq, Hrej, Hlen.
      replace (l2_cur_match l1 >=? strstart s) with false by lia.
      reflexivity. }
    cbv zeta in Hbody.
    assert (Hnext : forall s' l2 r,
               (exists m, s' = set_match_start s m) ->
               std2_body TRIGGER_LEVEL s nice scan_start l1
               = (ToCondition, s', l2,
                  [mk_probe (l2_cur_match l1) (l2_best_len l1)
                     (Some (std33_len s (l2_cur_match l1)))]) ->
               match std33_condition s' limit l2 with
               | (l3, true) =>
                   match std33_loop TRIGGER_LEVEL fuel s' limit nice
                           scan_start l3 with
                   | Some (s'', lf, ps') =>
                       Some (s'', lf,
                             ps ++ mk_probe (l2_cur_match l1) (l2_best_len l1)
                                     (Some (std33_len s (l2_cur_match l1)))
                                   :: ps')
                   | None => None
                   end
               | (l3, false) =>
                   Some (s', l3,
                         ps ++ [mk_probe (l2_cur_match l1) (l2_best_len l1)
                                  (Some (std33_len s (l2_cur_match l1)))])
               end = Some r ->
               exists n,
                 walk std2_locals
                   (fun s l => std2_body TRIGGER_LEVEL s nice scan_start l)
                   (fun s l => std33_condition s limit l) n s l = Some r).
    { intros s' l2 r0 [m Hs'] Hb Hr.
      destruct (std33_condition s' limit l2) as [l3 go] eqn:Hcond.
      destruct go.
      - destruct (std33_loop TRIGGER_LEVEL fuel s' limit nice scan_start l3)
          as [[[s'' lf] ps']|] eqn:Hrec; [|discriminate].
        injection Hr as <-.
        assert (Hp : forall i, prev_at s' i < strstart s')
          by (rewrite Hs'; exact Hprev).
        assert (Hst : load16 s' (strstart s') = scan_start)
          by (rewrite Hs'; exact Hstart).
        destruct (IH _ _ _ Hp Hst Hrec) as [n Hn].
        apply (Hw (S n)). cbn [walk]. rewrite Hb, Hcond, Hn. reflexivity.
      - injection Hr as <-. apply (Hw 1%nat).
        cbn [walk]. rewrite Hb, Hcond. reflexivity. }
    destruct (std33_len s (l2_cur_match l1) >? l2_best_len l1).
    + destruct (std33_len s (l2_cur_match l1) >=? nice).
      * injection Hrun as <-. apply (Hw 1%nat).
        cbn [walk]. rewrite Hbody. reflexivity.
      * eapply Hnext; [|exact Hbody | exact Hrun]. eauto.
    + destruct (level s <? TRIGGER_LEVEL).
      * injection Hrun as <-. apply (Hw 1%nat).
        cbn [walk]. rewrite Hbody. reflexivity.
      * eapply Hnext; [|exact Hbody | exact Hrun]. apply same_state.
  - destruct Hw as [n Hn]. injection Hrun as <-. eauto.
Qed.

(** The two orders of the tests of the loop condition (lines 307 and 629)
    give the same walk. *)
Lemma condition_order_walk limit nice scan_start : forall n s l sf lf ps,
  walk std2_locals (fun s l => std2_body TRIGGER_LEVEL s nice scan_start l)
    (fun s l => std33_condition s limit l) n s l = Some (sf, lf, ps) ->
  exists lf',
    walk std2_locals (fun s l => std2_body TRIGGER_LEVEL s nice scan_start l)
      (fun s l => std2_condition s limit l) n s l = Some (sf, lf', ps)
    /\ l2_best_len lf' = l2_best_len lf.
Proof.
  induction n as [|n IH]; intros s l sf lf ps Hrun; [discriminate|].
  cbn [walk] in *.
  destruct (std2_body TRIGGER_LEVEL s nice scan_start l)
    as [[[e s'] l'] ps0].
  destruct e.
  - injection Hrun as <- <- <-. eauto.
  - destruct (std33_condition_agrees s' limit l') as (Hgo & Hbest & Hsame).
    destruct (std33_condition s' limit l') as [l33 go33].
    destruct (std2_condition s' limit l') as [l2 go2].
    simpl_locals. subst go2.
    destruct go33.
    + rewrite <- (Hsame eq_refl).
      destruct (walk std2_locals _ _ n s' l33) as [[[s'' lf0] ps']|] eqn:Hrec;
        [|discriminate].
      injection Hrun as <- <- <-.
      destruct (IH _ _ _ _ _ Hrec) as (lf' & Hrun' & Hb).
      rewrite Hrun'. eauto.
    + injection Hrun as <- <- <-. eauto.
Qed.

(** Where [prev_length] is at least 1 and the chain leads to positions
    before [strstart] only, std33 does what std2 does: the two calls return
    the same value, leave the same state and probe the same candidates with
    the same results. *)
Theorem std33_agrees_with_std2 s cur_match :
  1 <= prev_length s ->
  (forall i, prev_at s i < strstart s) ->
  exists r,
    std33_longest_match MAX_DIST TRIGGER_LEVEL s cur_match = Some r
    /\ std2_longest_match MAX_DIST TRIGGER_LEVEL s cur_match = Some r.
Proof.
  intros Hprev Hchain.
  assert (Hbest0 : initial_best_len s = prev_length s).
  { unfold initial_best_len. destruct (prev_length s =? 0) eqn:E; lia. }
  assert (Hbudget : (if prev_length s >=? good_match s
                     then Z.shiftr (max_chain_length s) 2
                     else max_chain_length s) = initial_chain_length s).
  { unfold initial_chain_length. now rewrite Hbest0. }
  unfold std33_longest_match, std2_longest_match. cbv zeta.
  rewrite Hbudget.
  change (mk_std2_locals cur_match (initial_chain_length s) (initial_best_len s)
            (load16 s (strstart s + initial_best_len s - 1)))
    with (std2_initial_locals s cur_match).
  destruct (std33_loop_total (chain_limit MAX_DIST s) (effective_nice_match s)
              (load16 s (strstart s))
              (Z.to_nat (walk_bound (initial_chain_length s))) s
              (std2_initial_locals s cur_match)) as [[[sf lf] ps] Hloop].
  { cbn [std2_initial_locals l2_chain_length].
    pose proof (pre_decrement_range (initial_chain_length s)).
    unfold walk_bound. lia. }
  rewrite Hloop.
  destruct (std33_loop_walk _ _ _ _ _ _ _ Hchain eq_refl Hloop) as [n Hrun33].
  destruct (condition_order_walk _ _ _ _ _ _ _ _ _ Hrun33)
    as (lf' & Hrun2 & Hbest).
  rewrite std2_loop_walk.
  pose proof (fun s0 l0 => std2_body_cases TRIGGER_LEVEL s0
                             (effective_nice_match s)
                             (load16 s (strstart s)) l0) as Hbody.
  pose proof (fun s0 l0 => std2_condition_true s0
                             (chain_limit MAX_DIST s) l0) as Htrue.
  destruct (walk_total _ _ _ _ _ _ _ _ _ _ Hbody Htrue
              (Z.to_nat (walk_bound (initial_chain_length s))) s
              (std2_initial_locals s cur_match)) as [[[sf' lf''] ps'] Hfull].
  { cbn [std2_initial_locals l2_chain_length].
    pose proof (pre_decrement_range (initial_chain_length s)).
    unfold walk_bound. lia. }
  rewrite Hfull.
  pose proof (walk_deterministic _ _ _ _ _ _ _ _ _ Hrun2 Hfull) as Heq.
  injection Heq as <- <- <-.
  eexists. split; [reflexivity|]. rewrite Hbest. reflexivity.
Qed.

End Std33Std2.

(** ** The extent of a walk *)

Section WalkExtent.

Variable L : Type.
Variables cur chain best : L -> Z.
Variable body : deflate_state -> L -> body_end * deflate_state * L * list probe.
Variable cond : deflate_state -> L -> L * bool.
Variables trigger nice limit : Z.
Variable future : deflate_state -> Z -> Prop.

(** What the proofs need to know of the body and of the condition;
    [future s c] is the test of the position [c] that makes the body break
    without a probe. *)
Hypothesis future_frame :
  forall s m c, future (set_match_start s m) c -> future s c.
Hypothesis body_pass :
  forall s l e s' l' ps,
    body s l = (e, s', l', ps) ->
    cur l' = cur l
    /\ chain l' = chain l
    /\ (exists m, s' = set_match_start s m)
    /\ ((ps = [] /\ e = Break /\ future s (cur l))
        \/ (exists o,
              ps = [mk_probe (cur l) (best l) o]
              /\ (e = Break ->
                  exists len,
                    o = Some len
                    /\ ((best l < len /\ nice <= len)
                        \/ (len <= best l /\ level s < trigger))))).
Hypothesis cond_next :
  forall s l, snd (cond s l) = true ->
    cur (fst (cond s l)) = prev_at s (Z.land (cur l) (w_mask s))
    /\ chain (fst (cond s l)) = pre_decrement (chain l)
    /\ chain (fst (cond s l)) <> 0.
Hypothesis cond_stop :
  forall s l, snd (cond s l) = false ->
    prev_at s (Z.land (cur l) (w_mask s)) <= limit
    \/ pre_decrement (chain l) = 0.

Lemma follows_chain_frame m : forall ps s c,
  follows_chain (set_match_start s m) c ps -> follows_chain s c ps.
Proof.
  induction ps as [|p ps IH]; intros s c H; [exact I|].
  destruct H as [Hc Hrest]. split; [exact Hc|]. apply IH. exact Hrest.
Qed.

Lemma walk_bound_last c : pre_decrement c = 0 -> walk_bound c = 1.
Proof. intros H. unfold walk_bound. lia. Qed.

Lemma last_probe_split (p0 p : probe) ps pre :
  p0 :: ps = pre ++ [p] ->
  (ps = [] /\ pre = [] /\ p = p0)
  \/ exists pre', pre = p0 :: pre' /\ ps = pre' ++ [p].
Proof.
  intros H. destruct pre as [|a pre]; cbn in H.
  - inversion H. left. auto.
  - inversion H. right. eauto.
Qed.

(** The walk probes the candidates of the chain in order, and goes on
    until there is a reason to stop. *)
Lemma walk_extent fuel s l sf lf ps :
  walk L body cond fuel s l = Some (sf, lf, ps) ->
  follows_chain s (cur l) ps
  /\ (ps = [] -> future s (cur l))
  /\ (forall pre p, ps = pre ++ [p] ->
        (exists len, outcome p = Some len /\ best_before p < len
                     /\ nice <= len)
        \/ (exists len, outcome p = Some len /\ len <= best_before p
                        /\ level s < trigger)
        \/ prev_at s (Z.land (cand p) (w_mask s)) <= limit
        \/ future s (prev_at s (Z.land (cand p) (w_mask s)))
        \/ Z.of_nat (List.length ps) = walk_bound (chain l)).
Proof.
  revert fuel s l sf lf ps.
  pose (P := fun (s : deflate_state) (l : L)
                 (r : deflate_state * L * list probe) =>
    follows_chain s (cur l) (snd r)
    /\ (snd r = [] -> future s (cur l))
    /\ (forall pre p, snd r = pre ++ [p] ->
          (exists len, outcome p = Some len /\ best_before p < len
                       /\ nice <= len)
          \/ (exists len, outcome p = Some len /\ len <= best_before p
                          /\ level s < trigger)
          \/ prev_at s (Z.land (cand p) (w_mask s)) <= limit
          \/ future s (prev_at s (Z.land (cand p) (w_mask s)))
          \/ Z.of_nat (List.length (snd r)) = walk_bound (chain l))).
  enough (H : forall fuel s l r, walk L body cond fuel s l = Some r -> P s l r).
  { intros fuel s l sf lf ps Hrun. exact (H _ _ _ _ Hrun). }
  apply (walk_ind L body cond P).
  - (* the body breaks *)
    intros s l s' l' ps Hbody. unfold P. simpl_locals.
    destruct (body_pass _ _ _ _ _ _ Hbody)
      as (_ & _ & _ & [(-> & _ & Hfut) | (o & -> & Hstop)]).
    + split; [exact I|]. split; [auto|].
      intros pre p Hps. destruct pre; discriminate.
    + split; [cbn; auto|]. split; [discriminate|].
      intros pre p Hps.
      destruct (last_probe_split _ _ _ _ Hps) as [(_ & _ & ->) | (pre' & _ & H)];
        [|destruct pre'; discriminate].
      destruct (Hstop eq_refl) as (len & -> & [Hnice | Hlow]).
      * left. exists len. simpl_locals. auto.
      * right. left. exists len. simpl_locals. auto.
  - (* the condition fails *)
    intros s l s' l' ps l'' Hbody Hcond. unfold P. simpl_locals.
    destruct (body_pass _ _ _ _ _ _ Hbody)
      as (Hcur & Hchain & (m & Hs') & [(_ & [=] & _) | (o & -> & _)]).
    split; [cbn; auto|]. split; [discriminate|].
    intros pre p Hps.
    destruct (last_probe_split _ _ _ _ Hps) as [(_ & _ & ->) | (pre' & _ & H)];
      [|destruct pre'; discriminate].
    pose proof (cond_stop s' l') as Hstop. rewrite Hcond in Hstop.
    specialize (Hstop eq_refl). rewrite Hcur, Hchain, Hs' in Hstop.
    simpl_locals.
    destruct Hstop as [Hlim | Hzero].
    + right. right. left. exact Hlim.
    + right. right. right. right. rewrite (walk_bound_last _ Hzero).
      reflexivity.
  - (* the walk goes on *)
    intros s l s' l' ps l'' sf lf ps' Hbody Hcond IH.
    unfold P in *. simpl_locals.
    destruct (body_pass _ _ _ _ _ _ Hbody)
      as (Hcur & Hchain & (m & Hs') & [(_ & [=] & _) | (o & -> & _)]).
    pose proof (cond_next s' l') as Hnext. rewrite Hcond in Hnext.
    destruct (Hnext eq_refl) as (Hcur'' & Hchain'' & Hnz).
    simpl_locals. rewrite Hcur, Hs' in Hcur''. rewrite Hchain in Hchain''.
    change (prev_at (set_match_start s m)) with (prev_at s) in Hcur''.
    change (w_mask (set_match_start s m)) with (w_mask s) in Hcur''.
    destruct IH as (I1 & I2 & I3). rewrite Hcur'' in I1, I2.
    rewrite Hs' in I1, I2, I3.
    cbn [app].
    split; [split; [reflexivity | now apply (follows_chain_frame m)]|].
    split; [discriminate|].
    intros pre p Hps.
    destruct (last_probe_split _ _ _ _ Hps)
      as [(-> & _ & ->) | (pre' & _ & Hps')].
    + simpl_locals.
      right. right. right. left. apply (future_frame _ m). now apply I2.
    + specialize (I3 _ _ Hps').
      change (prev_at (set_match_start s m)) with (prev_at s) in I3.
      change (w_mask (set_match_start s m)) with (w_mask s) in I3.
      change (level (set_match_start s m)) with (level s) in I3.
      destruct I3 as [H | [H | [H | [H | H]]]]; auto.
      * right. right. right. left. now apply (future_frame _ m).
      * right. right. right. right.
        rewrite Hchain'' in H. rewrite walk_bound_step in H
          by (rewrite <- Hchain''; exact Hnz).
        cbn [List.length]. lia.
Qed.

End WalkExtent.

Section Extent.

Variable MAX_DIST : deflate_state -> Z.
Variable TRIGGER_LEVEL : Z.

(** The passes of std1 and of std2 are as [walk_extent] requires. *)
Lemma walk_case_pass (L : Type) (cur chain best : L -> Z)
  (len_of : deflate_state -> Z -> Z) (nice : Z) s l e s' l' ps :
  walk_case L cur chain best len_of TRIGGER_LEVEL nice s l (e, s', l', ps) ->
  cur l' = cur l
  /\ chain l' = chain l
  /\ (exists m, s' = set_match_start s m)
  /\ ((ps = [] /\ e = Break /\ strstart s <= cur l)
      \/ (exists o,
            ps = [mk_probe (cur l) (best l) o]
            /\ (e = Break ->
                exists len,
                  o = Some len
                  /\ ((best l < len /\ nice <= len)
                      \/ (len <= best l /\ level s < TRIGGER_LEVEL))))).
Proof.
  intros Hc.
  inversion Hc; subst;
    (split; [auto|]); (split; [auto|]);
    (split; [eauto using same_state|]);
    first [ left; repeat split; assumption
          | right; eexists; split; [reflexivity|]; intros Hb;
            first [discriminate Hb | eexists; split; [reflexivity|]; auto] ].
Qed.

Lemma std1_condition_next s limit l :
  snd (std1_condition s limit l) = true ->
  l1_cur_match (fst (std1_condition s limit l))
  = prev_at s (Z.land (l1_cur_match l) (w_mask s))
  /\ l1_chain_length (fst (std1_condition s limit l))
     = pre_decrement (l1_chain_length l)
  /\ l1_chain_length (fst (std1_condition s limit l)) <> 0.
Proof.
  unfold std1_condition.
  destruct (prev_at s (Z.land (l1_cur_match l) (w_mask s)) >? limit) eqn:Hlim;
    simpl_locals; intros Hc; [|discriminate].
  apply negb_true_iff, Z.eqb_neq in Hc. auto.
Qed.

Lemma std1_condition_stop s limit l :
  snd (std1_condition s limit l) = false ->
  prev_at s (Z.land (l1_cur_match l) (w_mask s)) <= limit
  \/ pre_decrement (l1_chain_length l) = 0.
Proof.
  unfold std1_condition.
  destruct (prev_at s (Z.land (l1_cur_match l) (w_mask s)) >? limit) eqn:Hlim;
    simpl_locals; intros Hc; [|left; lia].
  apply negb_false_iff, Z.eqb_eq in Hc. auto.
Qed.

Lemma std2_condition_next s limit l :
  snd (std2_condition s limit l) = true ->
  l2_cur_match (fst (std2_condition s limit l))
  = prev_at s (Z.land (l2_cur_match l) (w_mask s))
  /\ l2_chain_length (fst (std2_condition s limit l))
     = pre_decrement (l2_chain_length l)
  /\ l2_chain_length (fst (std2_condition s limit l)) <> 0.
Proof.
  unfold std2_condition.
  destruct (pre_decrement (l2_chain_length l) =? 0) eqn:Hc;
    simpl_locals; intros Hgo; [discriminate|].
  apply Z.eqb_neq in Hc. auto.
Qed.

Lemma std2_condition_stop s limit l :
  snd (std2_condition s limit l) = false ->
  prev_at s (Z.land (l2_cur_match l) (w_mask s)) <= limit
  \/ pre_decrement (l2_chain_length l) = 0.
Proof.
  unfold std2_condition.
  destruct (pre_decrement (l2_chain_length l) =? 0) eqn:Hc;
    simpl_locals; intros Hgo; [right | left]; lia.
Qed.

Lemma std1_extent s cur_match :
  exists r,
    std1_longest_match MAX_DIST TRIGGER_LEVEL s cur_match = Some r
    /\ extent_of_walk MAX_DIST TRIGGER_LEVEL s cur_match r.
Proof.
  pose (nice := effective_nice_match s). pose (limit := chain_limit MAX_DIST s).
  pose proof (fun s0 l0 => std1_body_cases TRIGGER_LEVEL s0 nice l0) as Hbody.
  pose proof (fun s0 l0 => std1_condition_true s0 limit l0) as Htrue.
  unfold std1_longest_match. rewrite std1_loop_walk.
  destruct (walk_total _ _ _ _ _ _ _ _ _ _ Hbody Htrue
              (Z.to_nat (walk_bound (initial_chain_length s))) s
              (std1_initial_locals s cur_match)) as [[[sf lf] ps] Hrun].
  { cbn [std1_initial_locals l1_chain_length].
    pose proof (pre_decrement_range (initial_chain_length s)).
    unfold walk_bound. lia. }
  fold nice limit. rewrite Hrun. eexists. split; [reflexivity|].
  unfold extent_of_walk. simpl_locals.
  refine (walk_extent std1_locals l1_cur_match l1_chain_length l1_best_len
            _ _ TRIGGER_LEVEL nice limit (fun s0 c => strstart s0 <= c)
            _ _ _ _ _ s (std1_initial_locals s cur_match) sf lf ps Hrun).
  - auto.
  - intros s0 l0 e s' l' ps0 Hb. apply (walk_case_pass _ _ _ _ std1_len nice).
    rewrite <- Hb. apply Hbody.
  - intros s0 l0. apply std1_condition_next.
  - intros s0 l0. apply std1_condition_stop.
Qed.

Lemma std2_extent s cur_match :
  exists r,
    std2_longest_match MAX_DIST TRIGGER_LEVEL s cur_match = Some r
    /\ extent_of_walk MAX_DIST TRIGGER_LEVEL s cur_match r.
Proof.
  pose (nice := effective_nice_match s). pose (limit := chain_limit MAX_DIST s).
  pose (scan_start := load16 s (strstart s)).
  pose proof (fun s0 l0 => std2_body_cases TRIGGER_LEVEL s0 nice scan_start l0)
    as Hbody.
  pose proof (fun s0 l0 => std2_condition_true s0 limit l0) as Htrue.
  unfold std2_longest_match. rewrite std2_loop_walk.
  destruct (walk_total _ _ _ _ _ _ _ _ _ _ Hbody Htrue
              (Z.to_nat (walk_bound (initial_chain_length s))) s
              (std2_initial_locals s cur_match)) as [[[sf lf] ps] Hrun].
  { cbn [std2_initial_locals l2_chain_length].
    pose proof (pre_decrement_range (initial_chain_length s)).
    unfold walk_bound. lia. }
  fold nice limit scan_start. rewrite Hrun. eexists. split; [reflexivity|].
  unfold extent_of_walk. simpl_locals.
  refine (walk_extent std2_locals l2_cur_match l2_chain_length l2_best_len
            _ _ TRIGGER_LEVEL nice limit (fun s0 c => strstart s0 <= c)
            _ _ _ _ _ s (std2_initial_locals s cur_match) sf lf ps Hrun).
  - auto.
  - intros s0 l0 e s' l' ps0 Hb. apply (walk_case_pass _ _ _ _ std2_len nice).
    rewrite <- Hb. apply Hbody.
  - intros s0 l0. apply std2_condition_next.
  - intros s0 l0. apply std2_condition_stop.
Qed.

(** In std1 and in std2 the candidates examined are, in order, [cur_match]
    and the positions that the chain gives from it: each candidate after
    the first is [prev[c & wmask]] of the candidate [c] before it. *)
Theorem walk_follows_the_chain s cur_match :
  std1_and_std2 MAX_DIST TRIGGER_LEVEL s cur_match (fun r =>
    follows_chain s cur_match (examined r)).
Proof.
  split.
  - destruct (std1_extent s cur_match) as (r & Hr & He & _). eauto.
  - destruct (std2_extent s cur_match) as (r & Hr & He & _). eauto.
Qed.

(** In std1 and in std2 the walk ends only for a reason: it examines no
    candidate only if [cur_match] is not before [strstart]; and after its
    last candidate it stops because that candidate has a longer match that
    reaches [nice_match], or does not improve on [best_len] at a level
    below [TRIGGER_LEVEL], or because the next position of the chain is not
    beyond [limit] or not before [strstart], or because the budget
    [chain_length] is used up. *)
Theorem walk_ends_for_a_reason s cur_match :
  std1_and_std2 MAX_DIST TRIGGER_LEVEL s cur_match (fun r =>
    (examined r = [] -> strstart s <= cur_match)
    /\ (forall pre p, examined r = pre ++ [p] ->
          end_of_walk s TRIGGER_LEVEL (effective_nice_match s)
            (chain_limit MAX_DIST s) (initial_chain_length s)
            (List.length (examined r)) p)).
Proof.
  split.
  - destruct (std1_extent s cur_match) as (r & Hr & _ & He). eauto.
  - destruct (std2_extent s cur_match) as (r & Hr & _ & He). eauto.
Qed.

(** Called with a [cur_match] that is not before [strstart], std1 and std2
    examine nothing: the state is left as it was and the initial [best_len],
    clamped to [lookahead], is returned. *)
Theorem future_head_ends_the_walk s cur_match :
  strstart s <= cur_match ->
  std1_and_std2 MAX_DIST TRIGGER_LEVEL s cur_match (fun r =>
    examined r = []
    /\ final_state r = s
    /\ returned r = clamp_to_lookahead s (initial_best_len s)).
Proof.
  intros Hfut. apply in_std1_and_std2. intros r W.
  assert (Hnone : examined r = []).
  { destruct (examined r) as [|p rest] eqn:Hps; [reflexivity|].
    destruct (ws_chain _ _ _ _ _ W _ _ Hps) as [Hc _].
    pose proof (ws_before _ _ _ _ _ W) as Hb. rewrite Hps in Hb.
    inversion Hb; subst. lia. }
  split; [exact Hnone|].
  pose proof (ws_best _ _ _ _ _ W) as Hbest. rewrite Hnone in Hbest.
  change (best_after (initial_best_len s) []) with (initial_best_len s) in Hbest.
  split; [exact (ws_unchanged _ _ _ _ _ W Hbest)|].
  rewrite (ws_returned _ _ _ _ _ W), Hbest. reflexivity.
Qed.

Lemma std3_pass_extent t s s0 l0 e s' l' ps0 :
  std3_body t s0 (std3_nice_match s) (load_le s 4 (strstart s)) l0
  = (e, s', l', ps0) ->
  l3_cur_match l' = l3_cur_match l0
  /\ l3_chain_length l' = l3_chain_length l0
  /\ (exists m, s' = set_match_start s0 m)
  /\ ((ps0 = [] /\ e = Break /\ False)
      \/ (exists o,
            ps0 = [mk_probe (l3_cur_match l0) (l3_best_len l0) o]
            /\ (e = Break ->
                exists len,
                  o = Some len
                  /\ ((l3_best_len l0 < len /\ std3_nice_match s <= len)
                      \/ (len <= l3_best_len l0 /\ level s0 < level s))))).
Proof.
  intros Hb. unfold std3_body in Hb.
  destruct (std3_reject s0 (load_le s 4 (strstart s)) l0).
  { injection Hb as <- <- <- <-. repeat split; auto using same_state.
    right. eexists. split; [reflexivity | discriminate]. }
  cbv zeta in Hb.
  destruct (std3_len t s0 (l3_cur_match l0) >? l3_best_len l0) eqn:Hgt;
    [destruct (std3_len t s0 (l3_cur_match l0) >=? std3_nice_match s) eqn:Hn|];
    injection Hb as <- <- <- <-; repeat split; eauto using same_state;
    right; eexists; (split; [reflexivity|]); intros Hbr;
    first [discriminate Hbr | eexists; split; [reflexivity|]; left; lia].
Qed.

Lemma std3_condition_next s limit l :
  snd (std3_condition s limit l) = true ->
  l3_cur_match (fst (std3_condition s limit l))
  = prev_at s (Z.land (l3_cur_match l) (w_mask s))
  /\ l3_chain_length (fst (std3_condition s limit l))
     = pre_decrement (l3_chain_length l)
  /\ l3_chain_length (fst (std3_condition s limit l)) <> 0.
Proof.
  unfold std3_condition.
  destruct (prev_at s (Z.land (l3_cur_match l) (w_mask s)) >? limit) eqn:Hlim;
    simpl_locals3; intros Hc; [|discriminate].
  apply negb_true_iff, Z.eqb_neq in Hc. auto.
Qed.

Lemma std3_condition_stop s limit l :
  snd (std3_condition s limit l) = false ->
  prev_at s (Z.land (l3_cur_match l) (w_mask s)) <= limit
  \/ pre_decrement (l3_chain_length l) = 0.
Proof.
  unfold std3_condition.
  destruct (prev_at s (Z.land (l3_cur_match l) (w_mask s)) >? limit) eqn:Hlim;
    simpl_locals3; intros Hc; [|left; lia].
  apply negb_false_iff, Z.eqb_eq in Hc. auto.
Qed.

(** The same for std3, which has no test of the position and no cut-off by
    the level: it examines the candidates of the chain in order, the first
    one always, and after its last candidate it stops because that
    candidate has a longer match that reaches [nice_match], or because the
    next position of the chain is not beyond [limit], or because the budget
    is used up. *)
Theorem std3_follows_the_chain_to_its_end t s cur_match :
  exists r,
    std3_longest_match MAX_DIST t s cur_match = Some r
    /\ follows_chain s cur_match (examined r)
    /\ examined r <> []
    /\ (forall pre p, examined r = pre ++ [p] ->
          (exists len, outcome p = Some len /\ best_before p < len
                       /\ std3_nice_match s <= len)
          \/ prev_at s (Z.land (cand p) (w_mask s)) <= chain_limit MAX_DIST s
          \/ Z.of_nat (List.length (examined r))
             = walk_bound (std3_chain_length s)).
Proof.
  destruct (std3_run MAX_DIST t s cur_match)
    as (n & sf & lf & ps & r & Hrun & -> & Hr & W).
  eexists. split; [exact Hr|]. simpl_locals3.
  destruct (walk_extent std3_locals l3_cur_match l3_chain_length l3_best_len
              _ _ (level s) (std3_nice_match s) (chain_limit MAX_DIST s)
              (fun _ _ => False) (fun _ _ _ H => H)
              (std3_pass_extent t s)
              (fun s0 l0 => std3_condition_next s0 (chain_limit MAX_DIST s) l0)
              (fun s0 l0 => std3_condition_stop s0 (chain_limit MAX_DIST s) l0)
              _ _ _ _ _ _ Hrun) as (E1 & E2 & E3).
  cbn [std3_initial_locals l3_cur_match l3_chain_length] in *.
  split; [exact E1|]. split; [intros Hnil; exact (E2 Hnil)|].
  intros pre p Hps.
  destruct (E3 _ _ Hps) as [H | [H | [H | [H | H]]]]; auto.
  - destruct H as (len & _ & _ & Hl). lia.
  - contradiction.
Qed.

End Extent.

(** ** The candidate recorded *)

Section TieBreak.

Variable MAX_DIST : deflate_state -> Z.
Variable TRIGGER_LEVEL : Z.

(** Where every [len] is the length of the match and the quick check
    rejected no candidate that could have improved, the first of the
    candidates with the longest match is the one recorded. *)
Lemma summary_first_longest s cur_match r :
  walk_summary MAX_DIST TRIGGER_LEVEL s cur_match r ->
  Forall (reported_exactly s) (examined r) ->
  Forall (no_longer_than_recorded s) (examined r) ->
  first_longest_recorded s r.
Proof.
  intros W Hrep Hno.
  pose proof (summary_no_longer MAX_DIST TRIGGER_LEVEL s cur_match r W Hno)
    as Hall.
  rewrite Forall_forall in Hrep, Hno, Hall.
  destruct (summary_best_len MAX_DIST TRIGGER_LEVEL _ _ _ W) as [Hlo _].
  split; [exact Hlo|]. split; [exact Hall|].
  split; [exact (ws_unchanged _ _ _ _ _ W)|]. split.
  - intros Hlt.
    destruct (ws_recorded _ _ _ _ _ W Hlt)
      as (pre & p & post & Hps & Ho & Himp & Hm & _).
    assert (Hin : In p (examined r))
      by (rewrite Hps; apply in_or_app; right; left; reflexivity).
    exists pre, p, post. split; [exact Hps|]. split; [exact Hm|].
    split; [symmetry; exact (Hrep p Hin _ Ho)|].
    intros q Hq.
    pose proof (ws_best_before _ _ _ _ _ W _ _ _ Hps) as Hbp.
    unfold improved in Himp. rewrite Ho in Himp. apply Z.ltb_lt in Himp.
    apply in_split in Hq. destruct Hq as (pre1 & pre2 & ->).
    assert (Hinq : In q (examined r)).
    { rewrite Hps. apply in_or_app. left. apply in_or_app. right. left.
      reflexivity. }
    pose proof (Hno q Hinq) as Hq. unfold no_longer_than_recorded in Hq.
    rewrite <- app_assoc in Hps. cbn [app] in Hps.
    rewrite (ws_best_before _ _ _ _ _ W _ _ _ Hps) in Hq.
    rewrite best_after_app, best_after_cons in Hbp.
    pose proof (best_after_ge pre2
                  (best_with (best_after (initial_best_len s) pre1) q)).
    lia.
  - intros pre p mid q post Hps Hle.
    assert (Hinp : In p (examined r))
      by (rewrite Hps; apply in_or_app; right; left; reflexivity).
    assert (Hinq : In q (examined r)).
    { rewrite Hps. apply in_or_app. right. right. apply in_or_app. right.
      left. reflexivity. }
    pose proof (Hno p Hinp) as Hp. unfold no_longer_than_recorded in Hp.
    rewrite (ws_best_before _ _ _ _ _ W _ _ _ Hps) in Hp.
    rewrite app_comm_cons, app_assoc in Hps.
    pose proof (ws_best_before _ _ _ _ _ W _ _ _ Hps) as Hbq.
    rewrite best_after_app, best_after_cons in Hbq.
    pose proof (best_after_ge mid
                  (best_with (best_after (initial_best_len s) pre) p)).
    unfold improved. destruct (outcome q) as [len|] eqn:Ho; [|reflexivity].
    rewrite (Hrep q Hinq _ Ho). apply Z.ltb_ge. lia.
Qed.

(** The probes of std1 at candidates that keep the promise of the hash
    chain report the lengths of their matches. *)
Lemma third_byte_reported s ps :
  Forall (reported_beyond_third_byte s) ps ->
  forallb (third_byte_agrees s) ps = true ->
  Forall (reported_exactly s) ps.
Proof.
  intros Hall Hthird. rewrite Forall_forall in *.
  rewrite forallb_forall in Hthird.
  intros p Hin len Ho.
  specialize (Hall p Hin len Ho). specialize (Hthird p Hin).
  unfold third_byte_agrees in Hthird. rewrite Ho in Hthird.
  rewrite Hthird in Hall. apply Hall.
Qed.

(** C4.  In std1 and in std2 the candidates examined are those of the
    chain from [cur_match], in order, the walk going on until there is a
    reason to stop; and of the candidates examined, the first with the
    longest match is the one recorded in [match_start]: a candidate whose
    match is no longer than that of a candidate before it is never recorded,
    and the state is untouched when no match exceeds the initial
    [best_len].  For std1, which does not compare the third byte, this is
    so where the candidates it extends keep the promise of the hash
    chain. *)
Theorem first_longest_wins s cur_match :
  0 <= prev_length s ->
  (exists r,
     std1_longest_match MAX_DIST TRIGGER_LEVEL s cur_match = Some r
     /\ extent_of_walk MAX_DIST TRIGGER_LEVEL s cur_match r
     /\ (forallb (third_byte_agrees s) (examined r) = true ->
         first_longest_recorded s r))
  /\ (exists r,
        std2_longest_match MAX_DIST TRIGGER_LEVEL s cur_match = Some r
        /\ extent_of_walk MAX_DIST TRIGGER_LEVEL s cur_match r
        /\ first_longest_recorded s r).
Proof.
  intros Hprev. split.
  - destruct (std1_walk MAX_DIST TRIGGER_LEVEL s cur_match)
      as (r & Hr & W & Hrep & Hno).
    destruct (std1_extent MAX_DIST TRIGGER_LEVEL s cur_match)
      as (r' & Hr' & He).
    rewrite Hr in Hr'. injection Hr' as <-.
    exists r. split; [exact Hr|]. split; [exact He|].
    intros Hthird.
    apply (summary_first_longest s cur_match r W); [|exact (Hno Hprev)].
    now apply third_byte_reported.
  - destruct (std2_walk MAX_DIST TRIGGER_LEVEL s cur_match)
      as (r & Hr & W & Hrep & Hno).
    destruct (std2_extent MAX_DIST TRIGGER_LEVEL s cur_match)
      as (r' & Hr' & He).
    rewrite Hr in Hr'. injection Hr' as <-.
    exists r. split; [exact Hr|]. split; [exact He|].
    exact (summary_first_longest s cur_match r W Hrep (Hno Hprev)).
Qed.

End TieBreak.

(** ** The bytes beyond the lookahead *)

(** Two runs of bytes, in states that agree on the first [v] bytes of each,
    are the same when they end within those bytes, and reach beyond them
    together. *)
Lemma equal_run_same_input s s' n : forall a b v,
  (forall i, 0 <= i < v ->
     byte_at s' (a + i) = byte_at s (a + i)
     /\ byte_at s' (b + i) = byte_at s (b + i)) ->
  (equal_run s n a b < v -> equal_run s' n a b = equal_run s n a b)
  /\ (v <= equal_run s n a b -> v <= equal_run s' n a b).
Proof.
  induction n as [|n IH]; intros a b v Hv.
  - cbn [equal_run]. split; [reflexivity | auto].
  - cbn [equal_run].
    pose proof (equal_run_bounds s n (a + 1) (b + 1)) as Hb.
    pose proof (equal_run_bounds s' n (a + 1) (b + 1)) as Hb'.
    destruct (Z_le_gt_dec v 0) as [Hle | Hpos].
    { split; [|intros _].
      - destruct (Byte.eqb (byte_at s a) (byte_at s b)); lia.
      - destruct (Byte.eqb (byte_at s' a) (byte_at s' b)); lia. }
    destruct (Hv 0 ltac:(lia)) as [Ha0 Hb0]. rewrite !Z.add_0_r in Ha0, Hb0.
    rewrite Ha0, Hb0.
    destruct (Byte.eqb (byte_at s a) (byte_at s b)); [|split; lia].
    destruct (IH (a + 1) (b + 1) (v - 1)) as [I1 I2].
    { intros i Hi. specialize (Hv (1 + i) ltac:(lia)).
      rewrite !Z.add_assoc in Hv. exact Hv. }
    split; intros H; [rewrite I1 by lia; reflexivity|].
    specialize (I2 ltac:(lia)). lia.
Qed.

(** Two windows with the same first [strstart + lookahead] bytes. *)
Lemma same_input_firstn s w :
  firstn (Z.to_nat (strstart s + lookahead s)) w
  = firstn (Z.to_nat (strstart s + lookahead s)) (window s) ->
  same_input s w.
Proof.
  intros Heq p Hp. unfold byte_at. cbn [window with_window].
  destruct (p <? 0) eqn:E; [reflexivity|].
  pose proof (nth_firstn (Z.to_nat (strstart s + lookahead s)) w
                (Z.to_nat p) x00) as Hw.
  pose proof (nth_firstn (Z.to_nat (strstart s + lookahead s)) (window s)
                (Z.to_nat p) x00) as Hs.
  replace (Z.to_nat p <? Z.to_nat (strstart s + lookahead s))%nat
    with true in Hw, Hs by (symmetry; apply Nat.ltb_lt; lia).
  rewrite <- Hw, <- Hs, Heq. reflexivity.
Qed.

Section SameInput.

Variable MAX_DIST : deflate_state -> Z.
Variable TRIGGER_LEVEL : Z.

(** [len] in the two states: the same below [lookahead], or at least
    [lookahead] in both. *)
Lemma std2_len_same_input s w c :
  same_input s w -> c < strstart s ->
  (std2_len s c < lookahead s -> std2_len (with_window s w) c = std2_len s c)
  /\ (lookahead s <= std2_len s c ->
      lookahead s <= std2_len (with_window s w) c).
Proof.
  intros Hw Hc. rewrite !std2_len_spec.
  change (strstart (with_window s w)) with (strstart s).
  destruct (equal_run_same_input s (with_window s w) 257
              (strstart s + 1) (c + 1) (lookahead s - 1)) as [H1 H2].
  { intros i Hi. split; apply Hw; lia. }
  split; intros H; [rewrite H1 by lia; reflexivity|].
  specialize (H2 ltac:(lia)). lia.
Qed.

Lemma std1_len_same_input s w c :
  same_input s w -> c < strstart s ->
  (std1_len s c < lookahead s -> std1_len (with_window s w) c = std1_len s c)
  /\ (lookahead s <= std1_len s c ->
      lookahead s <= std1_len (with_window s w) c).
Proof.
  intros Hw Hc. rewrite !std1_len_spec.
  change (strstart (with_window s w)) with (strstart s).
  destruct (equal_run_same_input s (with_window s w) 255
              (strstart s + 3) (c + 3) (lookahead s - 3)) as [H1 H2].
  { intros i Hi. split; apply Hw; lia. }
  split; intros H; [rewrite H1 by lia; reflexivity|].
  specialize (H2 ltac:(lia)). lia.
Qed.


Lemma same_input_load16_at s w p :
  same_input s w -> p + 1 < strstart s + lookahead s ->
  load16 (with_window s w) p = load16 s p.
Proof.
  intros Hw Hp. unfold load16. rewrite !Hw by lia. reflexivity.
Qed.

(** One pass through the body of std2 in the two states, with [best_len]
    below [lookahead]: the same way through the body, and the same locals
    after it unless the pass leaves the loop with a [len] of at least
    [lookahead]. *)
Lemma std2_body_same_input s w nice scan_start l e sa la ps :
  same_input s w ->
  1 <= l2_best_len l < lookahead s ->
  nice <= lookahead s ->
  std2_body TRIGGER_LEVEL s nice scan_start l = (e, sa, la, ps) ->
  exists lb ps',
    std2_body TRIGGER_LEVEL (with_window s w) nice scan_start l
    = (e, with_window sa w, lb, ps')
    /\ map cand ps' = map cand ps
    /\ same_input sa w /\ lookahead sa = lookahead s
    /\ (e = ToCondition -> lb = la /\ 1 <= l2_best_len la < lookahead s)
    /\ Z.min (l2_best_len lb) (lookahead s)
       = Z.min (l2_best_len la) (lookahead s).
Proof.
  intros Hw Hbest Hnice Hbody. unfold std2_body in *.
  change (strstart (with_window s w)) with (strstart s).
  change (level (with_window s w)) with (level s).
  destruct (l2_cur_match l >=? strstart s) eqn:Hfut.
  { injection Hbody as <- <- <- <-. exists l, [].
    repeat split; try assumption; try discriminate. }
  assert (Hc : l2_cur_match l < strstart s) by lia.
  assert (Hrej : std2_reject (with_window s w) scan_start l
                 = std2_reject s scan_start l).
  { unfold std2_reject.
    rewrite !(same_input_load16_at s w) by (assumption || lia).
    reflexivity. }
  rewrite Hrej.
  destruct (std2_reject s scan_start l).
  { injection Hbody as <- <- <- <-. eexists _, _.
    repeat split; try reflexivity; try assumption; lia. }
  destruct (std2_len_same_input s w (l2_cur_match l) Hw Hc) as [Hlt Hge].
  destruct (Z_lt_le_dec (std2_len s (l2_cur_match l)) (lookahead s))
    as [Hshort | Hlong].
  - rewrite (Hlt Hshort).
    destruct (std2_len s (l2_cur_match l) >? l2_best_len l) eqn:Hgain.
    + destruct (std2_len s (l2_cur_match l) >=? nice) eqn:Hn.
      * injection Hbody as <- <- <- <-. eexists _, _.
        repeat split; try reflexivity; try assumption; discriminate.
      * rewrite (same_input_load16_at s w) by (assumption || lia).
        injection Hbody as <- <- <- <-. eexists _, _.
        repeat split; try reflexivity; try assumption; simpl_locals; lia.
    + destruct (level s <? TRIGGER_LEVEL).
      * injection Hbody as <- <- <- <-. eexists _, _.
        repeat split; try reflexivity; try assumption; discriminate.
      * injection Hbody as <- <- <- <-. eexists _, _.
        repeat split; try reflexivity; try assumption; lia.
  - specialize (Hge Hlong).
    replace (std2_len s (l2_cur_match l) >? l2_best_len l) with true in Hbody
      by lia.
    replace (std2_len s (l2_cur_match l) >=? nice) with true in Hbody by lia.
    replace (std2_len (with_window s w) (l2_cur_match l) >? l2_best_len l)
      with true by lia.
    replace (std2_len (with_window s w) (l2_cur_match l) >=? nice)
      with true by lia.
    injection Hbody as <- <- <- <-. eexists _, _.
    split; [reflexivity|]. split; [cbn [map cand]; reflexivity|].
    split; [assumption|]. split; [reflexivity|]. split; [discriminate|].
    simpl_locals. lia.
Qed.

(** The same of std1. *)
Lemma std1_body_same_input s w nice l e sa la ps :
  same_input s w ->
  1 <= l1_best_len l < lookahead s ->
  nice <= lookahead s ->
  std1_body TRIGGER_LEVEL s nice l = (e, sa, la, ps) ->
  exists lb ps',
    std1_body TRIGGER_LEVEL (with_window s w) nice l
    = (e, with_window sa w, lb, ps')
    /\ map cand ps' = map cand ps
    /\ same_input sa w /\ lookahead sa = lookahead s
    /\ (e = ToCondition -> lb = la /\ 1 <= l1_best_len la < lookahead s)
    /\ Z.min (l1_best_len lb) (lookahead s)
       = Z.min (l1_best_len la) (lookahead s).
Proof.
  intros Hw Hbest Hnice Hbody. unfold std1_body in *.
  change (strstart (with_window s w)) with (strstart s).
  change (level (with_window s w)) with (level s).
  destruct (l1_cur_match l >=? strstart s) eqn:Hfut.
  { injection Hbody as <- <- <- <-. exists l, [].
    repeat split; try assumption; try discriminate. }
  assert (Hc : l1_cur_match l < strstart s) by lia.
  assert (Hrej : std1_reject (with_window s w) l = std1_reject s l).
  { unfold std1_reject.
    change (strstart (with_window s w)) with (strstart s).
    rewrite !Hw by lia. reflexivity. }
  rewrite Hrej.
  destruct (std1_reject s l).
  { injection Hbody as <- <- <- <-. eexists _, _.
    repeat split; try reflexivity; try assumption; lia. }
  destruct (std1_len_same_input s w (l1_cur_match l) Hw Hc) as [Hlt Hge].
  destruct (Z_lt_le_dec (std1_len s (l1_cur_match l)) (lookahead s))
    as [Hshort | Hlong].
  - rewrite (Hlt Hshort).
    destruct (std1_len s (l1_cur_match l) >? l1_best_len l) eqn:Hgain.
    + destruct (std1_len s (l1_cur_match l) >=? nice) eqn:Hn.
      * injection Hbody as <- <- <- <-. eexists _, _.
        repeat split; try reflexivity; try assumption; discriminate.
      * rewrite !Hw by lia.
        injection Hbody as <- <- <- <-. eexists _, _.
        repeat split; try reflexivity; try assumption; simpl_locals; lia.
    + destruct (level s <? TRIGGER_LEVEL).
      * injection Hbody as <- <- <- <-. eexists _, _.
        repeat split; try reflexivity; try assumption; discriminate.
      * injection Hbody as <- <- <- <-. eexists _, _.
        repeat split; try reflexivity; try assumption; lia.
  - specialize (Hge Hlong).
    replace (std1_len s (l1_cur_match l) >? l1_best_len l) with true in Hbody
      by lia.
    replace (std1_len s (l1_cur_match l) >=? nice) with true in Hbody by lia.
    replace (std1_len (with_window s w) (l1_cur_match l) >? l1_best_len l)
      with true by lia.
    replace (std1_len (with_window s w) (l1_cur_match l) >=? nice)
      with true by lia.
    injection Hbody as <- <- <- <-. eexists _, _.
    split; [reflexivity|]. split; [cbn [map cand]; reflexivity|].
    split; [assumption|]. split; [reflexivity|]. split; [discriminate|].
    simpl_locals. lia.
Qed.


Lemma std1_condition_window s w limit l :
  std1_condition (with_window s w) limit l = std1_condition s limit l.
Proof. reflexivity. Qed.

Lemma std2_condition_window s w limit l :
  std2_condition (with_window s w) limit l = std2_condition s limit l.
Proof. reflexivity. Qed.

(** The walk in the two states, for a variant whose body passes as above
    in the states with [ahead] bytes of lookahead, and whose condition does
    not read the window. *)
Section WalkSameInput.

Variable L : Type.
Variable best : L -> Z.
Variable body : deflate_state -> L -> body_end * deflate_state * L * list probe.
Variable cond : deflate_state -> L -> L * bool.
Variable w : list byte.
Variable ahead : Z.

Hypothesis pass : forall s l e sa la ps,
  same_input s w -> lookahead s = ahead ->
  1 <= best l < ahead ->
  body s l = (e, sa, la, ps) ->
  exists lb ps',
    body (with_window s w) l = (e, with_window sa w, lb, ps')
    /\ map cand ps' = map cand ps
    /\ same_input sa w /\ lookahead sa = ahead
    /\ (e = ToCondition -> lb = la /\ 1 <= best la < ahead)
    /\ Z.min (best lb) ahead = Z.min (best la) ahead.
Hypothesis cond_window : forall s l, cond (with_window s w) l = cond s l.
Hypothesis cond_best : forall s l, best (fst (cond s l)) = best l.

Lemma walk_same_input : forall fuel s l sf lf ps,
  same_input s w -> lookahead s = ahead ->
  1 <= best l < ahead ->
  walk L body cond fuel s l = Some (sf, lf, ps) ->
  exists lf' ps',
    walk L body cond fuel (with_window s w) l = Some (with_window sf w, lf', ps')
    /\ map cand ps' = map cand ps
    /\ lookahead sf = ahead
    /\ Z.min (best lf') ahead = Z.min (best lf) ahead.
Proof.
  induction fuel as [|fuel IH]; intros s l sf lf ps Hw Hla Hbest Hrun;
    cbn [walk] in *; [discriminate|].
  destruct (body s l) as [[[e sa] la] ps0] eqn:Hbody.
  destruct (pass _ _ _ _ _ _ Hw Hla Hbest Hbody)
    as (lb & ps0' & Hbody' & Hmap & Hw' & Hla' & Hgo & Hmin).
  rewrite Hbody'. destruct e.
  - injection Hrun as <- <- <-. exists lb, ps0'. auto.
  - destruct (Hgo eq_refl) as [-> Hbest']. rewrite cond_window.
    pose proof (cond_best sa la) as Hcb.
    destruct (cond sa la) as [l'' go]. cbn [fst] in Hcb. destruct go.
    + destruct (walk L body cond fuel sa l'') as [[[sf' lf'] ps']|] eqn:Hrec;
        [|discriminate].
      injection Hrun as <- <- <-.
      assert (Hbest'' : 1 <= best l'' < ahead) by lia.
      destruct (IH _ _ _ _ _ Hw' Hla' Hbest'' Hrec)
        as (lf2 & ps2 & Hrun2 & Hmap2 & Hla2 & Hmin2).
      rewrite Hrun2. exists lf2, (ps0' ++ ps2).
      split; [reflexivity|]. split; [|split; [exact Hla2 | exact Hmin2]].
      rewrite !map_app, Hmap, Hmap2. reflexivity.
    + injection Hrun as <- <- <-. exists l'', ps0'. auto.
Qed.

End WalkSameInput.

(** A call whose initial [best_len] is not below [lookahead] returns
    [lookahead]. *)
Lemma returned_lookahead s cur_match r :
  walk_summary MAX_DIST TRIGGER_LEVEL s cur_match r ->
  lookahead s <= initial_best_len s ->
  returned r = lookahead s.
Proof.
  intros W Hla. pose proof (summary_best_len _ _ _ _ _ W) as [Hge _].
  rewrite (ws_returned _ _ _ _ _ W). unfold clamp_to_lookahead.
  destruct (final_best_len r <=? lookahead s) eqn:E; lia.
Qed.

Lemma clamp_to_lookahead_min s b :
  clamp_to_lookahead s b = Z.min b (lookahead s).
Proof. unfold clamp_to_lookahead. destruct (b <=? lookahead s) eqn:E; lia. Qed.

(** The two calls of std2. *)
Lemma std2_same_result s w cur_match :
  0 <= prev_length s ->
  MAX_DIST (with_window s w) = MAX_DIST s ->
  same_input s w ->
  exists r r',
    std2_longest_match MAX_DIST TRIGGER_LEVEL s cur_match = Some r
    /\ std2_longest_match MAX_DIST TRIGGER_LEVEL (with_window s w) cur_match
       = Some r'
    /\ same_result s r r'.
Proof.
  intros Hprev Hdist Hw.
  destruct (std2_summary MAX_DIST TRIGGER_LEVEL s cur_match) as (r & Hr & W).
  destruct (std2_summary MAX_DIST TRIGGER_LEVEL (with_window s w) cur_match)
    as (r' & Hr' & W').
  exists r, r'. split; [exact Hr|]. split; [exact Hr'|].
  destruct (Z_lt_le_dec (initial_best_len s) (lookahead s)) as [Hlt | Hge].
  2:{ split; [|lia].
      rewrite (returned_lookahead _ _ _ W Hge).
      apply (returned_lookahead _ _ _ W'). exact Hge. }
  pose proof (initial_best_len_positive s Hprev) as Hpos.
  clear W W'. unfold std2_longest_match in Hr, Hr'.
  rewrite std2_loop_walk in Hr, Hr'.
  destruct (walk _ _ _ _ s _) as [[[sf lf] ps]|] eqn:Hrun; [|discriminate].
  injection Hr as <-.
  assert (Hnice : effective_nice_match s <= lookahead s).
  { unfold effective_nice_match.
    destruct (to_unsigned (nice_match s) >? lookahead s) eqn:E; lia. }
  assert (Hinit : std2_initial_locals (with_window s w) cur_match
                  = std2_initial_locals s cur_match).
  { unfold std2_initial_locals.
    change (initial_best_len (with_window s w)) with (initial_best_len s).
    change (initial_chain_length (with_window s w))
      with (initial_chain_length s).
    change (strstart (with_window s w)) with (strstart s).
    rewrite (same_input_load16_at s w) by (assumption || lia). reflexivity. }
  assert (Hstart : load16 (with_window s w) (strstart (with_window s w))
                   = load16 s (strstart s)).
  { change (strstart (with_window s w)) with (strstart s).
    apply same_input_load16_at; [assumption | lia]. }
  assert (Hlimit : chain_limit MAX_DIST (with_window s w)
                   = chain_limit MAX_DIST s).
  { unfold chain_limit. rewrite Hdist. reflexivity. }
  rewrite Hinit, Hstart, Hlimit in Hr'.
  change (initial_chain_length (with_window s w))
    with (initial_chain_length s) in Hr'.
  change (effective_nice_match (with_window s w))
    with (effective_nice_match s) in Hr'.
  assert (PASS : forall s0 l0 e sa la ps0,
            same_input s0 w -> lookahead s0 = lookahead s ->
            1 <= l2_best_len l0 < lookahead s ->
            std2_body TRIGGER_LEVEL s0 (effective_nice_match s)
              (load16 s (strstart s)) l0 = (e, sa, la, ps0) ->
            exists lb ps',
              std2_body TRIGGER_LEVEL (with_window s0 w)
                (effective_nice_match s) (load16 s (strstart s)) l0
              = (e, with_window sa w, lb, ps')
              /\ map cand ps' = map cand ps0
              /\ same_input sa w /\ lookahead sa = lookahead s
              /\ (e = ToCondition ->
                  lb = la /\ 1 <= l2_best_len la < lookahead s)
              /\ Z.min (l2_best_len lb) (lookahead s)
                 = Z.min (l2_best_len la) (lookahead s)).
  { intros s0 l0 e sa la ps0 Hw0 Hla0 Hb0 Hbody0. rewrite <- Hla0 in *.
    destruct (std2_body_same_input _ _ _ _ _ _ _ _ _ Hw0 Hb0 Hnice Hbody0)
      as (lb & ps' & H1 & H2 & H3 & H4 & H5 & H6).
    exists lb, ps'. rewrite H4. auto 10. }
  assert (Hbest : 1 <= l2_best_len (std2_initial_locals s cur_match)
                  < lookahead s)
    by (unfold std2_initial_locals; simpl_locals; lia).
  destruct (walk_same_input std2_locals l2_best_len _ _ w (lookahead s) PASS
              (fun s0 l0 => std2_condition_window s0 w _ l0)
              (fun s0 l0 => std2_condition_best_len s0 _ l0)
              _ s _ sf lf ps Hw eq_refl Hbest Hrun)
    as (lf' & ps' & Hrun' & Hmap & Hla & Hmin).
  rewrite Hrun' in Hr'. injection Hr' as <-.
  unfold same_result. simpl_locals.
  rewrite !clamp_to_lookahead_min.
  change (lookahead (with_window sf w)) with (lookahead sf). rewrite Hla.
  split; [exact Hmin|]. intros _. split; [reflexivity | exact Hmap].
Qed.


(** The two calls of std1. *)
Lemma std1_same_result s w cur_match :
  0 <= prev_length s ->
  MAX_DIST (with_window s w) = MAX_DIST s ->
  same_input s w ->
  exists r r',
    std1_longest_match MAX_DIST TRIGGER_LEVEL s cur_match = Some r
    /\ std1_longest_match MAX_DIST TRIGGER_LEVEL (with_window s w) cur_match
       = Some r'
    /\ same_result s r r'.
Proof.
  intros Hprev Hdist Hw.
  destruct (std1_summary MAX_DIST TRIGGER_LEVEL s cur_match) as (r & Hr & W).
  destruct (std1_summary MAX_DIST TRIGGER_LEVEL (with_window s w) cur_match)
    as (r' & Hr' & W').
  exists r, r'. split; [exact Hr|]. split; [exact Hr'|].
  destruct (Z_lt_le_dec (initial_best_len s) (lookahead s)) as [Hlt | Hge].
  2:{ split; [|lia].
      rewrite (returned_lookahead _ _ _ W Hge).
      apply (returned_lookahead _ _ _ W'). exact Hge. }
  pose proof (initial_best_len_positive s Hprev) as Hpos.
  clear W W'. unfold std1_longest_match in Hr, Hr'.
  rewrite std1_loop_walk in Hr, Hr'.
  destruct (walk _ _ _ _ s _) as [[[sf lf] ps]|] eqn:Hrun; [|discriminate].
  injection Hr as <-.
  assert (Hnice : effective_nice_match s <= lookahead s).
  { unfold effective_nice_match.
    destruct (to_unsigned (nice_match s) >? lookahead s) eqn:E; lia. }
  assert (Hinit : std1_initial_locals (with_window s w) cur_match
                  = std1_initial_locals s cur_match).
  { unfold std1_initial_locals.
    change (initial_best_len (with_window s w)) with (initial_best_len s).
    change (initial_chain_length (with_window s w))
      with (initial_chain_length s).
    change (strstart (with_window s w)) with (strstart s).
    rewrite !Hw by lia. reflexivity. }
  assert (Hlimit : chain_limit MAX_DIST (with_window s w)
                   = chain_limit MAX_DIST s).
  { unfold chain_limit. rewrite Hdist. reflexivity. }
  rewrite Hinit, Hlimit in Hr'.
  change (initial_chain_length (with_window s w))
    with (initial_chain_length s) in Hr'.
  change (effective_nice_match (with_window s w))
    with (effective_nice_match s) in Hr'.
  assert (PASS : forall s0 l0 e sa la ps0,
            same_input s0 w -> lookahead s0 = lookahead s ->
            1 <= l1_best_len l0 < lookahead s ->
            std1_body TRIGGER_LEVEL s0 (effective_nice_match s) l0 = (e, sa, la, ps0) ->
            exists lb ps',
              std1_body TRIGGER_LEVEL (with_window s0 w)
                (effective_nice_match s) l0
              = (e, with_window sa w, lb, ps')
              /\ map cand ps' = map cand ps0
              /\ same_input sa w /\ lookahead sa = lookahead s
              /\ (e = ToCondition ->
                  lb = la /\ 1 <= l1_best_len la < lookahead s)
              /\ Z.min (l1_best_len lb) (lookahead s)
                 = Z.min (l1_best_len la) (lookahead s)).
  { intros s0 l0 e sa la ps0 Hw0 Hla0 Hb0 Hbody0. rewrite <- Hla0 in *.
    destruct (std1_body_same_input _ _ _ _ _ _ _ _ Hw0 Hb0 Hnice Hbody0)
      as (lb & ps' & H1 & H2 & H3 & H4 & H5 & H6).
    exists lb, ps'. rewrite H4. auto 10. }
  assert (Hbest : 1 <= l1_best_len (std1_initial_locals s cur_match)
                  < lookahead s)
    by (unfold std1_initial_locals; simpl_locals; lia).
  destruct (walk_same_input std1_locals l1_best_len _ _ w (lookahead s) PASS
              (fun s0 l0 => std1_condition_window s0 w _ l0)
              (fun s0 l0 => std1_condition_best_len s0 _ l0)
              _ s _ sf lf ps Hw eq_refl Hbest Hrun)
    as (lf' & ps' & Hrun' & Hmap & Hla & Hmin).
  rewrite Hrun' in Hr'. injection Hr' as <-.
  unfold same_result. simpl_locals.
  rewrite !clamp_to_lookahead_min.
  change (lookahead (with_window sf w)) with (lookahead sf). rewrite Hla.
  split; [exact Hmin|]. intros _. split; [reflexivity | exact Hmap].
Qed.



(** The bytes of the window at and after [strstart + lookahead] do not show
    in what a call of std1 or of std2 hands to its caller (lines 72-76 and
    157-159; 192-196 and 309-311): in two states that differ in these bytes
    only, the calls return the same value and, where the initial [best_len]
    is below [lookahead], record the same [match_start] after examining the
    same candidates.  [MAX_DIST] is taken not to read the window. *)
Theorem result_ignores_bytes_beyond_lookahead s w cur_match :
  0 <= prev_length s ->
  MAX_DIST (with_window s w) = MAX_DIST s ->
  same_input s w ->
  (exists r r',
     std1_longest_match MAX_DIST TRIGGER_LEVEL s cur_match = Some r
     /\ std1_longest_match MAX_DIST TRIGGER_LEVEL (with_window s w) cur_match
        = Some r'
     /\ same_result s r r')
  /\ (exists r r',
        std2_longest_match MAX_DIST TRIGGER_LEVEL s cur_match = Some r
        /\ std2_longest_match MAX_DIST TRIGGER_LEVEL (with_window s w)
             cur_match = Some r'
        /\ same_result s r r').
Proof.
  intros Hprev Hdist Hw. split.
  - exact (std1_same_result s w cur_match Hprev Hdist Hw).
  - exact (std2_same_result s w cur_match Hprev Hdist Hw).
Qed.

End SameInput.

(** ** The claims at concrete states *)

(** The scenario of the specification, in std1 and std2: length 6 at 1. *)
Example repeated_string_found :
  summary (std1_longest_match MAX_DIST_512 TRIGGER_LEVEL_5 repeated_string 1)
  = Some (6, 1, [(1, Some 6)])
  /\ summary (std2_longest_match MAX_DIST_512 TRIGGER_LEVEL_5 repeated_string 1)
     = Some (6, 1, [(1, Some 6)]).
Proof. split; vm_compute; reflexivity. Qed.

(** With three bytes of lookahead the same match is reported as 3, although
    the comparator ran on to 6. *)
Example short_lookahead_clamped :
  option_map (fun r => (returned r, final_best_len r))
    (std1_longest_match MAX_DIST_512 TRIGGER_LEVEL_5 short_lookahead 1)
  = Some (3, 6).
Proof. vm_compute. reflexivity. Qed.

(** C1, as stated, fails.  On a match of three bytes std1 returns 3 and
    records 1 while std3, which looks for matches of four bytes, returns 2
    and records nothing, although the candidate keeps the promise of the
    hash chain; and where a candidate breaks that promise, std1 returns 6
    and std2 returns 2. *)
Lemma variants_disagree :
  (summary (std1_longest_match MAX_DIST_512 TRIGGER_LEVEL_5 three_byte_match 1)
   = Some (3, 1, [(1, Some 3)])
   /\ summary (std3_longest_match MAX_DIST_512 gnuc_lp64 three_byte_match 1)
      = Some (2, 99, [(1, None)])
   /\ byte_at three_byte_match (1 + 2)
      = byte_at three_byte_match (strstart three_byte_match + 2))
  /\ (summary (std1_longest_match MAX_DIST_512 TRIGGER_LEVEL_5
                 third_byte_differs 1)
      = Some (6, 1, [(1, Some 6)])
      /\ summary (std2_longest_match MAX_DIST_512 TRIGGER_LEVEL_5
                    third_byte_differs 1)
         = Some (2, 1, [(1, Some 2)])).
Proof. repeat split; vm_compute; reflexivity. Qed.

(** At the scenario of the specification, where [prev_length] is 2, the
    word that std3 loads at [best_len - 3] begins one byte before the
    strings (lines 357 and 390): the bytes before them differ, the candidate
    is rejected, and std3 returns 2 where std1 and std2 return 6. *)
Example std3_at_the_scenario_of_the_specification :
  summary (std3_longest_match MAX_DIST_512 gnuc_lp64 repeated_string 1)
  = Some (2, 0, [(1, None)])
  /\ summary (std3_longest_match MAX_DIST_512 msc_win32 repeated_string 1)
     = Some (2, 0, [(1, None)])
  /\ byte_at repeated_string (1 - 1)
     <> byte_at repeated_string (strstart repeated_string - 1).
Proof. repeat split; try (vm_compute; reflexivity). vm_compute. discriminate. Qed.

(** The agreement of the three variants on the chain of three candidates,
    in a call with [prev_length = 3] at level 6. *)
Lemma variants_agree_witness :
  (3 <= prev_length deep_chain < 2 ^ 31
   /\ 0 <= nice_match deep_chain < 2 ^ 31
   /\ 0 <= lookahead deep_chain
   /\ TRIGGER_LEVEL_5 <= level deep_chain
   /\ 25 < strstart deep_chain)
  /\ exists r r3,
      std1_longest_match MAX_DIST_512 TRIGGER_LEVEL_5 deep_chain 25 = Some r
      /\ forallb (third_byte_agrees deep_chain) (examined r) = true
      /\ std2_longest_match MAX_DIST_512 TRIGGER_LEVEL_5 deep_chain 25 = Some r
      /\ std3_longest_match MAX_DIST_512 gnuc_lp64 deep_chain 25 = Some r3
      /\ returned r3 = returned r
      /\ final_state r3 = final_state r
      /\ map cand (examined r3) = [25; 14; 1].
Proof.
  assert (H1 : 3 <= prev_length deep_chain < 2 ^ 31)
    by (split; [vm_compute; discriminate | vm_compute; reflexivity]).
  assert (H2 : 0 <= nice_match deep_chain < 2 ^ 31)
    by (split; [vm_compute; discriminate | vm_compute; reflexivity]).
  assert (H3 : 0 <= lookahead deep_chain) by (vm_compute; discriminate).
  assert (H4 : TRIGGER_LEVEL_5 <= level deep_chain)
    by (vm_compute; discriminate).
  assert (H5 : 25 < strstart deep_chain) by (vm_compute; reflexivity).
  assert (H6 : forall i, prev_at deep_chain i < strstart deep_chain).
  { apply prev_at_below; vm_compute; reflexivity. }
  split; [auto|].
  destruct (variants_agree MAX_DIST_512 TRIGGER_LEVEL_5 deep_chain 25)
    as (r & E1 & Hagree).
  assert (Hps : option_map examined (Some r)
                = Some [mk_probe 25 3 (Some 9); mk_probe 14 9 (Some 4);
                        mk_probe 1 9 (Some 12)])
    by (rewrite <- E1; vm_compute; reflexivity).
  injection Hps as Hps.
  assert (Hthird : forallb (third_byte_agrees deep_chain) (examined r) = true)
    by (rewrite Hps; vm_compute; reflexivity).
  destruct (Hagree Hthird) as (E2 & Hstd3).
  destruct (Hstd3 H1 H2 H3 H4 H5 H6) as (r3 & E3 & Hr & Hs & _ & Hc).
  exists r, r3. rewrite Hc, Hps. repeat split; assumption || reflexivity.
Defined.

(** The bounds of C2 at the scenario of the specification. *)
Lemma returned_bounds_witness :
  prev_length repeated_string <= MAX_MATCH
  /\ std1_and_std2 MAX_DIST_512 TRIGGER_LEVEL_5 repeated_string 1 (fun r =>
       returned r <= lookahead repeated_string /\ returned r <= MAX_MATCH).
Proof.
  assert (H : prev_length repeated_string <= MAX_MATCH)
    by (vm_compute; discriminate).
  split; [exact H|].
  exact (returned_bounds MAX_DIST_512 TRIGGER_LEVEL_5 repeated_string 1 H).
Defined.

(** C3, as stated, fails: with [prev_length = 4] and [lookahead = 3] the
    call returns 3, in std1 and in std2. *)
Lemma returned_below_prev_length :
  1 <= prev_length short_lookahead
  /\ strstart short_lookahead - 1 <= MAX_DIST_512 short_lookahead
  /\ option_map returned
       (std1_longest_match MAX_DIST_512 TRIGGER_LEVEL_5 short_lookahead 1)
     = Some 3
  /\ option_map returned
       (std2_longest_match MAX_DIST_512 TRIGGER_LEVEL_5 short_lookahead 1)
     = Some 3
  /\ ~ 3 >= prev_length short_lookahead.
Proof.
  split; [vm_compute; discriminate|]. split; [vm_compute; discriminate|].
  split; [vm_compute; reflexivity|]. split; [vm_compute; reflexivity|].
  cbn. lia.
Qed.

(** Two candidates with the same match of five bytes: the one nearer to
    [strstart], which the walk meets first, is recorded, and the other is
    rejected by the quick check. *)
Example equal_candidates_found :
  match_length equal_candidates 8 = 5
  /\ match_length equal_candidates 1 = 5
  /\ summary (std1_longest_match MAX_DIST_512 TRIGGER_LEVEL_5
                equal_candidates 8)
     = Some (5, 8, [(8, Some 5); (1, None)])
  /\ summary (std2_longest_match MAX_DIST_512 TRIGGER_LEVEL_5
                equal_candidates 8)
     = Some (5, 8, [(8, Some 5); (1, None)]).
Proof. repeat split; vm_compute; reflexivity. Qed.

(** C4 at that state, in std1 and in std2. *)
Lemma first_longest_wins_witness :
  0 <= prev_length equal_candidates
  /\ (exists r,
        std1_longest_match MAX_DIST_512 TRIGGER_LEVEL_5 equal_candidates 8
        = Some r
        /\ extent_of_walk MAX_DIST_512 TRIGGER_LEVEL_5 equal_candidates 8 r
        /\ first_longest_recorded equal_candidates r)
  /\ (exists r,
        std2_longest_match MAX_DIST_512 TRIGGER_LEVEL_5 equal_candidates 8
        = Some r
        /\ extent_of_walk MAX_DIST_512 TRIGGER_LEVEL_5 equal_candidates 8 r
        /\ first_longest_recorded equal_candidates r).
Proof.
  assert (H : 0 <= prev_length equal_candidates) by (vm_compute; discriminate).
  split; [exact H|].
  destruct (first_longest_wins MAX_DIST_512 TRIGGER_LEVEL_5
              equal_candidates 8 H) as [(r1 & E1 & X1 & F1) Hstd2].
  split; [|exact Hstd2].
  exists r1. split; [exact E1|]. split; [exact X1|]. apply F1.
  assert (Hps : option_map examined (Some r1)
                = Some [mk_probe 8 2 (Some 5); mk_probe 1 5 None])
    by (rewrite <- E1; vm_compute; reflexivity).
  injection Hps as ->. vm_compute. reflexivity.
Defined.

(** C5, as stated, fails: the threshold is 3; the candidate at 10 yields
    [len = 3], which does not exceed [best_len = 5], and the walk goes on to
    the candidate at 1, in std1 and in std2. *)
Lemma walk_continues_past_nice_match :
  effective_nice_match small_nice_match = 3
  /\ option_map examined
       (std1_longest_match MAX_DIST_512 TRIGGER_LEVEL_5 small_nice_match 10)
     = Some [mk_probe 10 5 (Some 3); mk_probe 1 5 (Some 8)]
  /\ option_map examined
       (std2_longest_match MAX_DIST_512 TRIGGER_LEVEL_5 small_nice_match 10)
     = Some [mk_probe 10 5 (Some 3); mk_probe 1 5 (Some 8)].
Proof. repeat split; vm_compute; reflexivity. Qed.

(** C6, as stated, fails: the chain holds 50, at distance exactly
    [MAX_DIST], and 49; the candidate at 50 would give length 8, but it is
    not probed and 3 is returned. *)
Lemma candidate_at_max_dist_not_probed :
  prev_at far_candidate (Z.land 200 (w_mask far_candidate)) = 50
  /\ prev_at far_candidate (Z.land 50 (w_mask far_candidate)) = 49
  /\ strstart far_candidate - 50 = MAX_DIST_512 far_candidate
  /\ std1_len far_candidate 50 = 8
  /\ std2_len far_candidate 50 = 8
  /\ summary (std1_longest_match MAX_DIST_512 TRIGGER_LEVEL_5 far_candidate 200)
     = Some (3, 200, [(200, Some 3)])
  /\ summary (std2_longest_match MAX_DIST_512 TRIGGER_LEVEL_5 far_candidate 200)
     = Some (3, 200, [(200, Some 3)]).
Proof. repeat split; vm_compute; reflexivity. Qed.

(** C7 at std3: [level = 2] is below the trigger level.  The candidate at 25
    raises [best_len] to 9 (to 8 with the [__builtin_ctzl] of lines
    323-328); the candidate at 14 is then extended to [len = 4 <= best_len].
    std1 and std2 stop there and return 9 with [match_start = 25]; std3
    goes on to the candidate at 1 and returns 12 with [match_start = 1], for
    either target. *)
Theorem std3_walks_on_below_trigger_level :
  level low_level < TRIGGER_LEVEL_5
  /\ option_map examined
       (std3_longest_match MAX_DIST_512 gnuc_lp64 low_level 25)
     = Some [mk_probe 25 2 (Some 9); mk_probe 14 9 (Some 4);
             mk_probe 1 9 (Some 12)]
  /\ summary (std3_longest_match MAX_DIST_512 gnuc_lp64 low_level 25)
     = Some (12, 1, [(25, Some 9); (14, Some 4); (1, Some 12)])
  /\ summary (std3_longest_match MAX_DIST_512 msc_win32 low_level 25)
     = Some (12, 1, [(25, Some 8); (14, Some 4); (1, Some 12)])
  /\ summary (std1_longest_match MAX_DIST_512 TRIGGER_LEVEL_5 low_level 25)
     = Some (9, 25, [(25, Some 9); (14, Some 4)])
  /\ summary (std2_longest_match MAX_DIST_512 TRIGGER_LEVEL_5 low_level 25)
     = Some (9, 25, [(25, Some 9); (14, Some 4)]).
Proof. repeat split; vm_compute; reflexivity. Qed.

(** The cut-off of std1 and std2 at that state. *)
Lemma low_level_walk_stops_witness :
  level low_level < TRIGGER_LEVEL_5
  /\ std1_and_std2 MAX_DIST_512 TRIGGER_LEVEL_5 low_level 25 (fun r =>
       forall pre p post len,
         examined r = pre ++ p :: post ->
         outcome p = Some len -> len <= best_before p -> post = []).
Proof.
  assert (H : level low_level < TRIGGER_LEVEL_5) by (vm_compute; reflexivity).
  split; [exact H|].
  exact (low_level_walk_stops MAX_DIST_512 TRIGGER_LEVEL_5 low_level 25 H).
Defined.

(** C9, as stated, fails: [max_chain_length] is 3, the budget of line 70 is
    0, and five candidates are probed, in std1 and in std2. *)
Lemma budget_zero_walks_on :
  max_chain_length empty_budget = 3
  /\ initial_chain_length empty_budget = 0
  /\ option_map (fun r => List.length (examined r))
       (std1_longest_match MAX_DIST_512 TRIGGER_LEVEL_5 empty_budget 25)
     = Some 5%nat
  /\ option_map (fun r => List.length (examined r))
       (std2_longest_match MAX_DIST_512 TRIGGER_LEVEL_5 empty_budget 25)
     = Some 5%nat.
Proof. repeat split; lazy; reflexivity. Qed.

(** The range of the written position at the scenario of the
    specification. *)
Lemma written_position_range_witness :
  0 <= 1
  /\ strstart repeated_string - 1 <= MAX_DIST_512 repeated_string
  /\ std1_and_std2 MAX_DIST_512 TRIGGER_LEVEL_5 repeated_string 1 (fun r =>
       Forall (fun p => chain_limit MAX_DIST_512 repeated_string <= cand p
                        /\ 1 <= strstart repeated_string - cand p
                           <= MAX_DIST_512 repeated_string)
         (examined r)).
Proof.
  assert (H0 : 0 <= 1) by lia.
  assert (H1 : strstart repeated_string - 1
               <= MAX_DIST_512 repeated_string)
    by (vm_compute; discriminate).
  split; [exact H0|]. split; [exact H1|].
  destruct (written_position_range MAX_DIST_512 TRIGGER_LEVEL_5
              repeated_string 1)
    as [(r1 & Hr1 & _ & _ & Hrange1) (r2 & Hr2 & _ & _ & Hrange2)].
  split; [exists r1 | exists r2]; split; auto.
Defined.

(** The three comparators at the scenario of the specification. *)
Lemma comparators_scan_naively_witness :
  equal_run repeated_string 4 (strstart repeated_string) 1 = 4
  /\ equal_run repeated_string 258 (strstart repeated_string) 1 = 6
  /\ std1_len repeated_string 1 = 6
  /\ std2_len repeated_string 1 = 6
  /\ std3_len gnuc_lp64 repeated_string 1 = 6
  /\ 6 - 3 <= std3_len msc_win32 repeated_string 1 <= 6.
Proof.
  destruct (comparators_scan_naively repeated_string 1) as (H1 & H2 & H3).
  assert (E4 : equal_run repeated_string 4 (strstart repeated_string) 1 = 4)
    by (vm_compute; reflexivity).
  assert (E : equal_run repeated_string 258 (strstart repeated_string) 1 = 6)
    by (vm_compute; reflexivity).
  destruct (H3 E4) as [H64 H32]. rewrite E in H64, H32.
  split; [exact E4|]. split; [exact E|].
  rewrite H1, H2 by (vm_compute; reflexivity).
  rewrite E. repeat split; try reflexivity; try exact H64; apply H32.
Defined.

(** ** The added properties at concrete states *)

(** No examined candidate is longer than the match found, at the state with
    a rejected and a non-improving candidate. *)
Lemma examined_candidates_no_longer_witness :
  0 <= prev_length low_level
  /\ std1_and_std2 MAX_DIST_512 TRIGGER_LEVEL_5 low_level 25 (fun r =>
       Forall (fun p => match_length low_level (cand p) <= final_best_len r)
         (examined r)).
Proof.
  assert (H : 0 <= prev_length low_level) by (vm_compute; discriminate).
  split; [exact H|].
  exact (examined_candidates_no_longer MAX_DIST_512 TRIGGER_LEVEL_5
           low_level 25 H).
Defined.

(** The same for std3 and both its targets, on the chain of three
    candidates with [prev_length = 3]. *)
Lemma std3_examined_candidates_no_longer_witness :
  3 <= prev_length deep_chain < 2 ^ 31
  /\ (exists r,
        std3_longest_match MAX_DIST_512 gnuc_lp64 deep_chain 25 = Some r
        /\ Forall (fun p => match_length deep_chain (cand p)
                            <= final_best_len r + 0) (examined r))
  /\ (exists r,
        std3_longest_match MAX_DIST_512 msc_win32 deep_chain 25 = Some r
        /\ Forall (fun p => match_length deep_chain (cand p)
                            <= final_best_len r + 3) (examined r)).
Proof.
  assert (H : 3 <= prev_length deep_chain < 2 ^ 31)
    by (split; [vm_compute; discriminate | vm_compute; reflexivity]).
  split; [exact H|]. split.
  - exact (std3_examined_candidates_no_longer MAX_DIST_512 gnuc_lp64
             deep_chain 25 H).
  - exact (std3_examined_candidates_no_longer MAX_DIST_512 msc_win32
             deep_chain 25 H).
Defined.

(** With the [__builtin_ctzl] of lines 323-328 the bound is reached: the only
    candidate has a match of nine bytes and [best_len] ends as 8. *)
Example msc_std3_best_len_one_short :
  match_length nine_byte_match 25 = 9
  /\ option_map final_best_len
       (std3_longest_match MAX_DIST_512 msc_win32 nine_byte_match 25)
     = Some 8.
Proof. split; vm_compute; reflexivity. Qed.

(** The byte index of line 409 on two words that agree on five bytes: 5
    with a [__builtin_ctzl] of 64 bits, 4 with the one of lines 323-328. *)
Lemma msc_ctzl_sees_four_bytes_witness :
  equal_run low_level 8 (strstart low_level + 4) (25 + 4) < 8
  /\ builtin_ctzl (Z.lxor (load_le low_level 8 (strstart low_level + 4))
                     (load_le low_level 8 (25 + 4))) / 8 = 5
  /\ msc_builtin_ctzl (Z.lxor (load_le low_level 8 (strstart low_level + 4))
                         (load_le low_level 8 (25 + 4))) / 8 = 4.
Proof.
  assert (H : equal_run low_level 8 (strstart low_level + 4) (25 + 4) < 8)
    by (vm_compute; reflexivity).
  split; [exact H|].
  destruct (msc_ctzl_sees_four_bytes low_level _ _ H) as (_ & -> & ->).
  split; vm_compute; reflexivity.
Defined.

(** The candidate at 25 has a match of 9 bytes; under MSC std3 computes 8. *)
Example msc_std3_len_one_short :
  match_length low_level 25 = 9
  /\ std3_len gnuc_lp64 low_level 25 = 9
  /\ std3_len msc_win32 low_level 25 = 8.
Proof. repeat split; vm_compute; reflexivity. Qed.

(** std3 with the builtin of 64 bits against std2 on the chain of three
    candidates, in a call with [prev_length = 3] at level 6. *)
Lemma std3_agrees_with_std2_witness :
  (3 <= prev_length deep_chain < 2 ^ 31
   /\ 0 <= nice_match deep_chain < 2 ^ 31
   /\ 0 <= lookahead deep_chain
   /\ TRIGGER_LEVEL_5 <= level deep_chain
   /\ 25 < strstart deep_chain)
  /\ exists r2 r3,
      std2_longest_match MAX_DIST_512 TRIGGER_LEVEL_5 deep_chain 25 = Some r2
      /\ std3_longest_match MAX_DIST_512 gnuc_lp64 deep_chain 25 = Some r3
      /\ returned r3 = returned r2
      /\ final_state r3 = final_state r2
      /\ map cand (examined r3) = map cand (examined r2).
Proof.
  assert (H1 : 3 <= prev_length deep_chain < 2 ^ 31)
    by (split; [vm_compute; discriminate | vm_compute; reflexivity]).
  assert (H2 : 0 <= nice_match deep_chain < 2 ^ 31)
    by (split; [vm_compute; discriminate | vm_compute; reflexivity]).
  assert (H3 : 0 <= lookahead deep_chain) by (vm_compute; discriminate).
  assert (H4 : TRIGGER_LEVEL_5 <= level deep_chain)
    by (vm_compute; discriminate).
  assert (H5 : 25 < strstart deep_chain) by (vm_compute; reflexivity).
  assert (H6 : forall i, prev_at deep_chain i < strstart deep_chain).
  { apply prev_at_below; vm_compute; reflexivity. }
  split; [auto|].
  destruct (std3_agrees_with_std2 MAX_DIST_512 TRIGGER_LEVEL_5 deep_chain 25
              H1 H2 H3 H4 H5 H6) as (r2 & r3 & E2 & E3 & Er & Es & _ & Ec).
  exists r2, r3. auto.
Defined.

(** The calls on that chain: the three candidates are examined and the
    match of twelve bytes at 1 is recorded. *)
Example deep_chain_found :
  summary (std2_longest_match MAX_DIST_512 TRIGGER_LEVEL_5 deep_chain 25)
  = Some (12, 1, [(25, Some 9); (14, Some 4); (1, Some 12)])
  /\ summary (std3_longest_match MAX_DIST_512 gnuc_lp64 deep_chain 25)
     = Some (12, 1, [(25, Some 9); (14, Some 4); (1, Some 12)]).
Proof. split; vm_compute; reflexivity. Qed.

(** With the [__builtin_ctzl] of lines 323-328 std3 does not agree with
    std2, at a state of that kind: on the match of nine bytes std2 returns
    9 and std3 returns 8. *)
Example msc_std3_differs_from_std2 :
  (3 <= prev_length nine_byte_match
   /\ TRIGGER_LEVEL_5 <= level nine_byte_match
   /\ 25 < strstart nine_byte_match)
  /\ summary (std2_longest_match MAX_DIST_512 TRIGGER_LEVEL_5
                nine_byte_match 25)
     = Some (9, 25, [(25, Some 9)])
  /\ summary (std3_longest_match MAX_DIST_512 gnuc_lp64 nine_byte_match 25)
     = Some (9, 25, [(25, Some 9)])
  /\ summary (std3_longest_match MAX_DIST_512 msc_win32 nine_byte_match 25)
     = Some (8, 25, [(25, Some 8)]).
Proof.
  split; [repeat split; vm_compute; (discriminate || reflexivity)|].
  repeat split; vm_compute; reflexivity.
Qed.

(** std33 at the scenario of the specification and at a level below
    [TRIGGER_LEVEL]. *)
Example std33_found :
  summary (std33_longest_match MAX_DIST_512 TRIGGER_LEVEL_5 repeated_string 1)
  = Some (6, 1, [(1, Some 6)])
  /\ summary (std33_longest_match MAX_DIST_512 TRIGGER_LEVEL_5 low_level 25)
     = Some (9, 25, [(25, Some 9); (14, Some 4)]).
Proof. split; vm_compute; reflexivity. Qed.

(** std33 against std2 at the state with a chain of three candidates. *)
Lemma std33_agrees_with_std2_witness :
  1 <= prev_length low_level
  /\ std33_longest_match MAX_DIST_512 TRIGGER_LEVEL_5 low_level 25
     = std2_longest_match MAX_DIST_512 TRIGGER_LEVEL_5 low_level 25.
Proof.
  assert (H1 : 1 <= prev_length low_level) by (vm_compute; discriminate).
  assert (H2 : forall i, prev_at low_level i < strstart low_level).
  { apply prev_at_below; vm_compute; reflexivity. }
  split; [exact H1|].
  destruct (std33_agrees_with_std2 MAX_DIST_512 TRIGGER_LEVEL_5 low_level 25
              H1 H2) as (r & -> & ->).
  reflexivity.
Defined.

(** A call with [cur_match = strstart] in std1 and std2. *)
Lemma future_head_ends_the_walk_witness :
  strstart repeated_string <= 7
  /\ std1_and_std2 MAX_DIST_512 TRIGGER_LEVEL_5 repeated_string 7 (fun r =>
       examined r = []
       /\ final_state r = repeated_string
       /\ returned r
          = clamp_to_lookahead repeated_string
              (initial_best_len repeated_string)).
Proof.
  assert (H : strstart repeated_string <= 7) by (vm_compute; discriminate).
  split; [exact H|].
  exact (future_head_ends_the_walk MAX_DIST_512 TRIGGER_LEVEL_5
           repeated_string 7 H).
Defined.

(** The walk at the state with an empty budget: five candidates of the
    chain, the last of which has no successor beyond [limit]. *)
Example empty_budget_chain :
  option_map (fun r => map cand (examined r))
    (std1_longest_match MAX_DIST_512 TRIGGER_LEVEL_5 empty_budget 25)
  = Some [25; 19; 13; 7; 1]
  /\ prev_at empty_budget (Z.land 1 (w_mask empty_budget))
     <= chain_limit MAX_DIST_512 empty_budget.
Proof. split; [lazy; reflexivity | vm_compute; discriminate]. Qed.

(** The string "abcXYZ" at 7 against the one at 1, with six bytes of
    lookahead: the byte after them, at 13, is '!' in one window and 'a', as
    at 7, in the other. *)
Lemma result_ignores_bytes_beyond_lookahead_witness :
  (0 <= prev_length repeated_string
   /\ MAX_DIST_512 (with_window repeated_string
                      (text "_abcXYZabcXYZa" ++ zeros 300))
      = MAX_DIST_512 repeated_string
   /\ same_input repeated_string (text "_abcXYZabcXYZa" ++ zeros 300))
  /\ (exists r r',
        std1_longest_match MAX_DIST_512 TRIGGER_LEVEL_5 repeated_string 1
        = Some r
        /\ std1_longest_match MAX_DIST_512 TRIGGER_LEVEL_5
             (with_window repeated_string
                (text "_abcXYZabcXYZa" ++ zeros 300)) 1 = Some r'
        /\ same_result repeated_string r r')
  /\ (exists r r',
        std2_longest_match MAX_DIST_512 TRIGGER_LEVEL_5 repeated_string 1
        = Some r
        /\ std2_longest_match MAX_DIST_512 TRIGGER_LEVEL_5
             (with_window repeated_string
                (text "_abcXYZabcXYZa" ++ zeros 300)) 1 = Some r'
        /\ same_result repeated_string r r').
Proof.
  assert (H1 : 0 <= prev_length repeated_string) by (vm_compute; discriminate).
  assert (H2 : MAX_DIST_512 (with_window repeated_string
                               (text "_abcXYZabcXYZa" ++ zeros 300))
               = MAX_DIST_512 repeated_string) by reflexivity.
  assert (H3 : same_input repeated_string
                 (text "_abcXYZabcXYZa" ++ zeros 300))
    by (apply same_input_firstn; vm_compute; reflexivity).
  split; [auto|].
  exact (result_ignores_bytes_beyond_lookahead MAX_DIST_512 TRIGGER_LEVEL_5
           repeated_string _ 1 H1 H2 H3).
Defined.

(** The two calls of that state: [len] is 6 in one window and 7 in the
    other, and 6 is returned in both. *)
Example slack_byte_changes_len :
  option_map (fun r => (returned r, final_best_len r))
    (std2_longest_match MAX_DIST_512 TRIGGER_LEVEL_5 repeated_string 1)
  = Some (6, 6)
  /\ option_map (fun r => (returned r, final_best_len r))
       (std2_longest_match MAX_DIST_512 TRIGGER_LEVEL_5
          (with_window repeated_string (text "_abcXYZabcXYZa" ++ zeros 300)) 1)
     = Some (6, 7).
Proof. split; vm_compute; reflexivity. Qed.
